(** * redis-purge: value matching, keyspace purge and delete reconciliation

    A shallow embedding of [redis-purge.go] (the last revision, the one with
    [WAIT_AND_REDELETE]) and the properties its specification states about it.

    Go's [int] and [int64] are 64-bit two's-complement integers, modelled as
    [Z] with the wrap-around of [+] written out; [[]byte] is [list byte];
    Go strings (keys, the search argument) are [string].  Calls to the redis
    client are state transformers over an abstract [World]; everything the
    program prints and every client call it makes is recorded as an [event]. *)

From Stdlib Require Import Strings.Ascii Strings.String Strings.Byte.
From Stdlib Require Import ZArith List Bool Lia Sorting.Permutation.
From Stdlib Require Import Floats.PrimFloat Numbers.Cyclic.Int63.Uint63.
Import ListNotations.

Local Open Scope Z_scope.

(** ** Machine integers *)

Definition min_int : Z := - 2 ^ 63.
Definition max_int : Z := 2 ^ 63 - 1.

(** Two's-complement reduction of a mathematical integer to 64 bits. *)
Definition wrap64 (z : Z) : Z := (z + 2 ^ 63) mod 2 ^ 64 - 2 ^ 63.

(** Go's [a + b] (and [a++]) on [int] / [int64]. *)
Definition add64 (a b : Z) : Z := wrap64 (a + b).

Definition in_int (z : Z) : Prop := min_int <= z <= max_int.

(** ** Byte strings *)

Definition bytes := list byte.

Definition len {A} (s : list A) : Z := Z.of_nat (length s).

Definition byte_eqb (a b : byte) : bool := Byte.eqb a b.

(** [bytes.Equal]. *)
Fixpoint Equal (a b : bytes) : bool :=
  match a, b with
  | [], [] => true
  | x :: a', y :: b' => byte_eqb x y && Equal a' b'
  | _, _ => false
  end.

(** [bytes.HasPrefix]. *)
Fixpoint HasPrefix (s prefix : bytes) {struct prefix} : bool :=
  match prefix, s with
  | [], _ => true
  | _ :: _, [] => false
  | y :: prefix', x :: s' => byte_eqb x y && HasPrefix s' prefix'
  end.

(** [bytes.Index]: the index of the first instance of [sep] in [s], or [-1]. *)
Fixpoint Index (s sep : bytes) : Z :=
  if HasPrefix s sep then 0
  else match s with
       | [] => -1
       | _ :: s' => let i := Index s' sep in if i <? 0 then -1 else i + 1
       end.

(** [utf8.RuneCount], which [bytes.Count] falls back on for an empty
    separator.  [acceptRange] is Go's [acceptRanges] table indexed by the
    lead byte, [leadSize] the low bits of its [first] table (0 for [xx]). *)
Definition byteZ (b : byte) : Z := Z.of_N (Byte.to_N b).

Definition leadSize (c : Z) : Z :=
  if c <? 0xC2 then 0
  else if c <? 0xE0 then 2
  else if c <? 0xF0 then 3
  else if c <? 0xF5 then 4
  else 0.

Definition acceptRange (c : Z) : Z * Z :=
  if c =? 0xE0 then (0xA0, 0xBF)
  else if c =? 0xED then (0x80, 0x9F)
  else if c =? 0xF0 then (0x90, 0xBF)
  else if c =? 0xF4 then (0x80, 0x8F)
  else (0x80, 0xBF).

Definition inRange (lohi : Z * Z) (b : byte) : bool :=
  (fst lohi <=? byteZ b) && (byteZ b <=? snd lohi).

(** The number of bytes the loop of [RuneCount] advances by at [p]. *)
Definition runeStep (p : bytes) : nat :=
  match p with
  | [] => 1%nat
  | c :: rest =>
      if byteZ c <? 0x80 then 1%nat
      else
        let size := leadSize (byteZ c) in
        if size =? 0 then 1%nat
        else if len p <? size then 1%nat
        else match rest with
             | c1 :: rest1 =>
                 if negb (inRange (acceptRange (byteZ c)) c1) then 1%nat
                 else if size =? 2 then 2%nat
                 else match rest1 with
                      | c2 :: rest2 =>
                          if negb (inRange (0x80, 0xBF) c2) then 1%nat
                          else if size =? 3 then 3%nat
                          else match rest2 with
                               | c3 :: _ =>
                                   if negb (inRange (0x80, 0xBF) c3) then 1%nat
                                   else 4%nat
                               | [] => 1%nat
                               end
                      | [] => 1%nat
                      end
             | [] => 1%nat
             end
  end.

Fixpoint runeCountLoop (fuel : nat) (p : bytes) (n : Z) : Z :=
  match fuel, p with
  | S fuel', _ :: _ => runeCountLoop fuel' (skipn (runeStep p) p) (n + 1)
  | _, _ => n
  end.

Definition RuneCount (p : bytes) : Z := runeCountLoop (length p) p 0.

(** The loop of [bytes.Count] for a non-empty separator: find the next
    instance, count it, continue after it.  Every round drops at least one
    byte, so [S (length s)] rounds always reach the [return]
    ([countLoop_fuel] below). *)
Fixpoint countLoop (fuel : nat) (s sep : bytes) (n : Z) : Z :=
  match fuel with
  | O => n
  | S fuel' =>
      let i := Index s sep in
      if i =? -1 then n
      else countLoop fuel' (skipn (Z.to_nat i + length sep) s) sep (n + 1)
  end.

(** [bytes.Count]: the number of non-overlapping instances of [sep] in [s];
    for an empty [sep], the number of UTF-8 code points of [s] plus one. *)
Definition Count (s sep : bytes) : Z :=
  match sep with
  | [] => RuneCount s + 1
  | _ :: _ => countLoop (S (length s)) s sep 0
  end.

(** [[]byte(s)] for a Go string [s]. *)
Definition bs (s : string) : bytes := list_byte_of_string s.
Arguments bs s%_string.

(** ** The search condition and its matcher *)

Inductive valueAccessMode := valueAccessString | valueAccessHash.

(** A [searchCondition] specifies how to find a Redis value of interest. *)
Record searchCondition := {
  AccessMode : valueAccessMode;
  SizeThreshold : Z;
  Search : string;
  Occurrences : Z
}.

(** [Matcher] returns the predicate on a key's value; [searchBytes] is
    computed once, outside the closure. *)
Definition Matcher (s : searchCondition) : bytes -> bool :=
  let searchBytes := bs (Search s) in
  fun value =>
    if len value <? SizeThreshold s then false
    else if len searchBytes =? 0 then true
    else if Occurrences s <=? 0 then Equal value searchBytes
    else Count value searchBytes >=? Occurrences s.

(** ** Summary statistics *)

(** Go's conversion [float64(n)] of an [int64]: the nearest binary64. *)
Definition float64 (z : Z) : float :=
  if z =? min_int then (- 0x1p63)%float
  else if z <? 0 then (- of_uint63 (Uint63.of_Z (- z)))%float
  else of_uint63 (Uint63.of_Z z).

Definition percentage (num den : Z) : float :=
  if den =? 0 then 0%float
  else (float64 num * 100 / float64 den)%float.

Definition average (sum n : Z) : float :=
  if n =? 0 then 0%float
  else (float64 sum / float64 n)%float.

(** ** Environment *)

Definition digitOf (a : ascii) : option Z :=
  let n := Z.of_N (N_of_ascii a) in
  if (48 <=? n) && (n <=? 57) then Some (n - 48) else None.

Fixpoint parseDigits (s : string) (acc : Z) : option Z :=
  match s with
  | EmptyString => Some acc
  | String a s' =>
      match digitOf a with
      | None => None
      | Some d => parseDigits s' (acc * 10 + d)
      end
  end.

Definition splitSign (s : string) : bool * string :=
  match s with
  | String "-" s' => (true, s')
  | String "+" s' => (false, s')
  | _ => (false, s)
  end.

(** [strconv.Atoi]: an optional sign and decimal digits; [None] stands for a
    non-nil error (syntax or range). *)
Definition Atoi (s : string) : option Z :=
  let '(neg, body) := splitSign s in
  match body with
  | EmptyString => None
  | _ =>
      match parseDigits body 0 with
      | None => None
      | Some n =>
          let v := if neg : bool then - n else n in
          if (min_int <=? v) && (v <=? max_int) then Some v else None
      end
  end.

(** The process environment, [os.Getenv]. *)
Definition environ := string -> string.

Definition envInt (getenv : environ) (name : string) (defval : Z) : Z :=
  match Atoi (getenv name) with
  | Some intValue => intValue
  | None => defval
  end.

(** ** Errors, client calls and output *)

(** Go [error] values: those the client returns and the wrappers
    [fmt.Errorf] builds around them. *)
Inductive error :=
| ClientError (msg : string)
| CountKeysError (e : error)               (* couldn't count keys: %w *)
| HashAccessError (key : string) (e : error) (* valueAccessHash[%#v]: %w *)
| ExistCheckError (key : string) (e : error) (* key EXIST check failed for %s: %w *)
| DeleteFailError (key : string) (e : error). (* key DELETE fail for %s: %w *)

Inductive result (A : Type) := Ok (a : A) | Err (e : error).
Arguments Ok {A} a.
Arguments Err {A} e.

(** The calls the program makes on [*redis.Client], each a transformer of
    the state of the world outside the program (the store, its other
    clients, the network).  [HGetAll] yields the fields in the order in
    which the program's [range] over the returned map visits them. *)
Record Client (World : Type) := {
  DBSize : World -> result Z * World;
  Scan : Z -> string -> Z -> World -> result (list string * Z) * World;
  Get : string -> World -> result bytes * World;
  HGetAll : string -> World -> result (list (string * string)) * World;
  Del : string -> World -> option error * World;
  Exists : string -> World -> result Z * World
}.
Arguments DBSize {World}.
Arguments Scan {World}.
Arguments Get {World}.
Arguments HGetAll {World}.
Arguments Del {World}.
Arguments Exists {World}.

Record redisSearch (World : Type) := {
  client : Client World;
  Debug : bool;
  Progress : bool
}.
Arguments client {World}.
Arguments Debug {World}.
Arguments Progress {World}.

Inductive event :=
(* client calls and sleeps *)
| CallDBSize (r : result Z)
| CallScan (cursor : Z) (r : result (list string * Z))
| CallGet (key : string) (r : result bytes)
| CallHGetAll (key : string) (r : result (list (string * string)))
| CallDel (key : string) (r : option error)
| CallExists (key : string) (r : result Z)
| Sleep (duration : Z)
(* standard output *)
| PrintMatch (key : string) (size : Z)      (* %s (size = %d) *)
| PrintDelete (key : string) (size : Z)     (* DELETE %s (size = %d) *)
| PrintRedelete (key : string)              (* DELETE %s *)
(* standard error *)
| LogScanCursor (cursor n : Z)
| LogVisiting (from to total : Z) (pct : float)
| LogFetchSkip (key : string) (e : error)
| LogDeleteFailed (key : string) (e : error)
| LogDeleting (search : searchCondition)
| LogDeleted (count total : Z) (avg : float) (search : searchCondition) (failed : Z)
| LogListing (search : searchCondition)
| LogFound (count total : Z) (avg : float) (search : searchCondition)
| LogRepeatPass (nkeys pass clean minClean : Z).

(** ** Computations

    A computation runs from a state of the world to a value, the new state
    and the events it produced, in order.  [None] is a loop that has not
    returned within its fuel. *)
Definition M (World A : Type) : Type := World -> option (A * World * list event).

Definition ret {World A} (a : A) : M World A := fun w => Some (a, w, []).

Definition bind {World A B} (m : M World A) (k : A -> M World B) : M World B :=
  fun w =>
    match m w with
    | None => None
    | Some (a, w1, t1) =>
        match k a w1 with
        | None => None
        | Some (b, w2, t2) => Some (b, w2, t1 ++ t2)
        end
    end.

Definition emit {World} (e : event) : M World unit := fun w => Some (tt, w, [e]).

Definition when {World} (cond : bool) (m : M World unit) : M World unit :=
  if cond then m else ret tt.

Definition diverge {World A} : M World A := fun _ => None.

(** A client call, recorded. *)
Definition call {World A} (op : World -> A * World) (ev : A -> event) : M World A :=
  fun w => let '(a, w') := op w in Some (a, w', [ev a]).

Declare Scope go_scope.
Delimit Scope go_scope with go.
Notation "x <- m ;; k" := (bind m (fun x => k))
  (at level 61, m at next level, right associativity) : go_scope.
Notation "' p <- m ;; k" := (bind m (fun x => let 'p := x in k))
  (at level 61, p pattern, m at next level, right associativity) : go_scope.
Notation "m ;;; k" := (bind m (fun _ => k))
  (at level 61, right associativity) : go_scope.
Local Open Scope go_scope.

(** ** The program *)

Section Program.

Context {World : Type}.
Variable r : redisSearch World.

Local Abbreviation M := (M World).

Definition hashAsBytes (valueHash : list (string * string)) : bytes :=
  flat_map (fun kv => bs (fst kv) ++ bs (snd kv)) valueHash.

(** [valueAccessMode.Get]. *)
Definition valueAccessMode_Get (v : valueAccessMode) (key : string) : M (result bytes) :=
  match v with
  | valueAccessString => call (Get (client r) key) (CallGet key)
  | valueAccessHash =>
      hashValue <- call (HGetAll (client r) key) (CallHGetAll key) ;;
      match hashValue with
      | Err e => ret (Err (HashAccessError key e))
      | Ok h => ret (Ok (hashAsBytes h))
      end
  end.

Definition fetchValue (key : string) (accessMode : valueAccessMode) : M (result bytes) :=
  valueAccessMode_Get accessMode key.

Definition deleteKey (key : string) : M (option error) :=
  call (Del (client r) key) (CallDel key).

Definition countKeys : M (result Z) :=
  call (DBSize (client r)) CallDBSize.

(** [keyExists] returns [existsInt > 0] together with the error. *)
Definition keyExists (key : string) : M (bool * option error) :=
  res <- call (Exists (client r) key) (CallExists key) ;;
  match res with
  | Ok existsInt => ret (existsInt >? 0, None)
  | Err e => ret (false, Some e)
  end.

(** *** matchingKeysDo

    [A] is the type of the variables the [action] closure captures and
    updates. *)
Section MatchingKeys.

Context {A : Type}.
Variable search : searchCondition.
Variable action : string -> bytes -> A -> M (option error * A).

(** The [for _, key := range keys] loop; an error is the [return err] out
    of [matchingKeysDo]. *)
Fixpoint visitKeys (keys : list string) (a : A) : M (option error * A) :=
  match keys with
  | [] => ret (None, a)
  | key :: rest =>
      value <- fetchValue key (AccessMode search) ;;
      match value with
      | Err e => emit (LogFetchSkip key e) ;;; visitKeys rest a
      | Ok value =>
          if Matcher search value then
            '(err, a') <- action key value a ;;
            match err with
            | Some e => ret (Some e, a')
            | None => visitKeys rest a'
            end
          else visitKeys rest a
      end
  end.

(** The scan loop, one round per page of keys. *)
Fixpoint scanLoop (fuel : nat) (totalKeys scanCursor visitingKeys : Z) (a : A)
  : M (option error * A) :=
  match fuel with
  | O => diverge
  | S fuel' =>
      page <- call (Scan (client r) scanCursor "" 50) (CallScan scanCursor) ;;
      match page with
      | Err e => ret (Some e, a)
      | Ok (keys, scanCursor') =>
          when (Debug r) (emit (LogScanCursor scanCursor' (len keys))) ;;;
          when (Progress r)
            (emit (LogVisiting visitingKeys (add64 visitingKeys (len keys)) totalKeys
                     (percentage (add64 visitingKeys (len keys)) totalKeys))) ;;;
          '(err, a') <- visitKeys keys a ;;
          match err with
          | Some e => ret (Some e, a')
          | None =>
              if scanCursor' =? 0 then ret (None, a')
              else scanLoop fuel' totalKeys scanCursor'
                     (add64 visitingKeys (len keys)) a'
          end
      end
  end.

Definition matchingKeysDo (fuel : nat) (a : A) : M (option error * A) :=
  totalKeys <- countKeys ;;
  match totalKeys with
  | Err e => ret (Some (CountKeysError e), a)
  | Ok totalKeys => scanLoop fuel totalKeys 0 0 a
  end.

End MatchingKeys.

(** *** deleteKeys and repeatDeleteKeys *)

Fixpoint deleteKeysFrom (keys : list string) (foundKeys : bool)
  : M (bool * option error) :=
  match keys with
  | [] => ret (foundKeys, None)
  | key :: rest =>
      '(keyExists, err) <- keyExists key ;;
      match err with
      | Some e => ret (foundKeys, Some (ExistCheckError key e))
      | None =>
          if negb keyExists then deleteKeysFrom rest foundKeys
          else
            emit (PrintRedelete key) ;;;
            err <- deleteKey key ;;
            match err with
            | Some e => ret (true, Some (DeleteFailError key e))
            | None => deleteKeysFrom rest true
            end
      end
  end.

Definition deleteKeys (keys : list string) : M (bool * option error) :=
  deleteKeysFrom keys false.

(** [time.Millisecond], in nanoseconds. *)
Definition Millisecond : Z := 1000000.

(** The [for cleanDeletePass < minCleanDeletePasses] loop; it returns the
    error together with the final [cleanDeletePass] and [deletePass]. *)
Fixpoint repeatLoop (fuel : nat) (minCleanDeletePasses cleanDeleteIterationWait : Z)
    (keys : list string) (cleanDeletePass deletePass : Z)
  : M (option error * Z * Z) :=
  if cleanDeletePass <? minCleanDeletePasses then
    match fuel with
    | O => diverge
    | S fuel' =>
        emit (Sleep (wrap64 (cleanDeleteIterationWait * Millisecond))) ;;;
        let deletePass := add64 deletePass 1 in
        emit (LogRepeatPass (len keys) deletePass cleanDeletePass minCleanDeletePasses) ;;;
        '(foundResurrectedKeys, err) <- deleteKeys keys ;;
        match err with
        | Some e => ret (Some e, cleanDeletePass, deletePass)
        | None =>
            if foundResurrectedKeys : bool
            then repeatLoop fuel' minCleanDeletePasses cleanDeleteIterationWait keys
                   0 deletePass
            else repeatLoop fuel' minCleanDeletePasses cleanDeleteIterationWait keys
                   (add64 cleanDeletePass 1) deletePass
        end
    end
  else ret (None, cleanDeletePass, deletePass).

Variable getenv : environ.

Definition repeatDeleteKeys (fuel : nat) (keys : list string) : M (option error) :=
  let minCleanDeletePasses := envInt getenv "CLEAN_DELETE_MIN" 500 in
  let cleanDeleteIterationWait := envInt getenv "CLEAN_DELETE_WAIT_MS" 150 in
  '(err, _, _) <- repeatLoop fuel minCleanDeletePasses cleanDeleteIterationWait keys 0 0 ;;
  ret err.

(** *** deleteMatchingKeys *)

(** The variables of [deleteMatchingKeys] its closure captures. *)
Record purgeVars := {
  deletedKeyCount : Z;
  deletedValuesTotalSize : Z;
  failedDeleteCount : Z;
  deletedKeys : list string
}.

Definition purgeVars0 : purgeVars :=
  {| deletedKeyCount := 0; deletedValuesTotalSize := 0;
     failedDeleteCount := 0; deletedKeys := [] |}.

(** The updates of the captured variables:
    [deletedKeys = append(deletedKeys, key)], [failedDeleteCount++], and
    [deletedKeyCount++; deletedValuesTotalSize += int64(len(value))]. *)
Definition appendDeleted (key : string) (v : purgeVars) : purgeVars :=
  {| deletedKeyCount := deletedKeyCount v;
     deletedValuesTotalSize := deletedValuesTotalSize v;
     failedDeleteCount := failedDeleteCount v;
     deletedKeys := deletedKeys v ++ [key] |}.

Definition countFailure (v : purgeVars) : purgeVars :=
  {| deletedKeyCount := deletedKeyCount v;
     deletedValuesTotalSize := deletedValuesTotalSize v;
     failedDeleteCount := add64 (failedDeleteCount v) 1;
     deletedKeys := deletedKeys v |}.

Definition countSuccess (value : bytes) (v : purgeVars) : purgeVars :=
  {| deletedKeyCount := add64 (deletedKeyCount v) 1;
     deletedValuesTotalSize := add64 (deletedValuesTotalSize v) (len value);
     failedDeleteCount := failedDeleteCount v;
     deletedKeys := deletedKeys v |}.

(** The closure passed to [matchingKeysDo]. *)
Definition deleteAction (key : string) (value : bytes) (v : purgeVars)
  : M (option error * purgeVars) :=
  emit (PrintDelete key (len value)) ;;;
  let v := appendDeleted key v in
  err <- deleteKey key ;;
  match err with
  | Some e => emit (LogDeleteFailed key e) ;;; ret (None, countFailure v)
  | None => ret (None, countSuccess value v)
  end.

(** The initial pass: [matchingKeysDo] with the delete closure. *)
Definition purgePass (fuel : nat) (search : searchCondition)
  : M (option error * purgeVars) :=
  matchingKeysDo search deleteAction fuel purgeVars0.

(** The summary line the deferred function prints. *)
Definition deletedSummary (search : searchCondition) (v : purgeVars) : event :=
  LogDeleted (deletedKeyCount v) (deletedValuesTotalSize v)
    (average (deletedValuesTotalSize v) (deletedKeyCount v))
    search (failedDeleteCount v).

Definition deleteMatchingKeys (fuel : nat) (search : searchCondition)
    (repeatDeletes : bool) : M (option error) :=
  emit (LogDeleting search) ;;;
  '(err, v) <- purgePass fuel search ;;
  err' <- (match err with
           | Some _ => ret err
           | None =>
               if negb repeatDeletes then ret err
               else repeatDeleteKeys fuel (deletedKeys v)
           end) ;;
  emit (deletedSummary search v) ;;;
  ret err'.

(** *** listMatchingKeys *)

Record listVars := {
  matchingKeyCount : Z;
  matchingValuesTotalSize : Z
}.

Definition listAction (key : string) (value : bytes) (v : listVars)
  : M (option error * listVars) :=
  emit (PrintMatch key (len value)) ;;;
  ret (None, {| matchingKeyCount := add64 (matchingKeyCount v) 1;
                matchingValuesTotalSize :=
                  add64 (matchingValuesTotalSize v) (len value) |}).

Definition listMatchingKeys (fuel : nat) (search : searchCondition)
  : M (option error) :=
  emit (LogListing search) ;;;
  '(err, v) <- matchingKeysDo search listAction fuel
                 {| matchingKeyCount := 0; matchingValuesTotalSize := 0 |} ;;
  emit (LogFound (matchingKeyCount v) (matchingValuesTotalSize v)
          (average (matchingValuesTotalSize v) (matchingKeyCount v)) search) ;;;
  ret err.

End Program.

(** ** Reading a run's events *)

Definition existsCall (e : event) : list (string * result Z) :=
  match e with CallExists key res => [(key, res)] | _ => [] end.

Definition delCall (e : event) : list (string * option error) :=
  match e with CallDel key res => [(key, res)] | _ => [] end.

(** The value read for a key, as [fetchValue] returns it. *)
Definition fetched (e : event) : list (string * bytes) :=
  match e with
  | CallGet key (Ok value) => [(key, value)]
  | CallHGetAll key (Ok h) => [(key, hashAsBytes h)]
  | _ => []
  end.

Definition isPass (e : event) : bool :=
  match e with LogRepeatPass _ _ _ _ => true | _ => false end.

(** The existence checks of a run, in order, with their results. *)
Definition existsCalls (t : list event) : list (string * result Z) :=
  flat_map existsCall t.

(** The delete calls of a run, in order, with their results. *)
Definition delCalls (t : list event) : list (string * option error) :=
  flat_map delCall t.

(** The keys whose delete call returned no error. *)
Definition deletedOk (t : list event) : list string :=
  map fst (filter (fun c => match snd c with None => true | Some _ => false end)
             (delCalls t)).

(** The keys whose value was read and satisfies the search condition. *)
Definition matchedKeys (search : searchCondition) (t : list event) : list string :=
  map fst (filter (fun kv => Matcher search (snd kv)) (flat_map fetched t)).

(** The keys the scan returned, page after page, and the keys whose value
    the program asked for. *)
Definition scannedPage (e : event) : list string :=
  match e with CallScan _ (Ok (keys, _)) => keys | _ => [] end.

Definition fetchCall (e : event) : list string :=
  match e with
  | CallGet key _ | CallHGetAll key _ => [key]
  | _ => []
  end.

Definition scannedKeys (t : list event) : list string := flat_map scannedPage t.

Definition visitedKeys (t : list event) : list string := flat_map fetchCall t.

(** An existence check that succeeded and reported the key absent. *)
Definition absent (c : string * result Z) : Prop :=
  exists n, snd c = Ok n /\ n <= 0.

(** The number of reconciliation passes begun. *)
Definition passes (t : list event) : Z := len (filter isPass t).

(** What a pass of [deleteKeys] does for a key reported [n] times present. *)
Definition checkTrace (key : string) (n : Z) : list event :=
  CallExists key (Ok n) ::
  (if n >? 0 then [PrintRedelete key; CallDel key None] else []).

(** The run [res] preceded by the events [t]. *)
Definition after {World A} (t : list event) (res : option (A * World * list event))
  : option (A * World * list event) :=
  match res with
  | None => None
  | Some (a, w, t') => Some (a, w, t ++ t')
  end.

(** Events that only report the key count or the scan's progress. *)
Definition isCountReport (e : event) : bool :=
  match e with
  | CallDBSize _ | LogVisiting _ _ _ _ => true
  | _ => false
  end.

Definition loud (e : event) : bool := negb (isCountReport e).

(** A run without its key-count and progress events. *)
Definition hush {World A} (res : option (A * World * list event))
  : option (A * World * list event) :=
  match res with
  | None => None
  | Some (a, w, t) => Some (a, w, filter loud t)
  end.

(** The same program on a client whose [DBSize] call is [f]. *)
Definition withDBSize {World} (r : redisSearch World)
    (f : World -> result Z * World) : redisSearch World :=
  {| client := {| DBSize := f;
                  Scan := Scan (client r);
                  Get := Get (client r);
                  HGetAll := HGetAll (client r);
                  Del := Del (client r);
                  Exists := Exists (client r) |};
     Debug := Debug r;
     Progress := Progress r |}.

(** [deletedKeys] grows by the keys a delete is called on, which are the
    keys whose fetched value matches. *)
Definition collects (search : searchCondition) (v v' : purgeVars) (t : list event) : Prop :=
  deletedKeys v' = deletedKeys v ++ map fst (delCalls t) /\
  map fst (delCalls t) = matchedKeys search t.

(** What the scan loop logs for a page: the debug line and the progress
    line, each if enabled. *)
Definition pageLog {World} (r : redisSearch World)
    (totalKeys visitingKeys : Z) (keys : list string) (scanCursor' : Z)
  : list event :=
  (if Debug r then [LogScanCursor scanCursor' (len keys)] else []) ++
  (if Progress r
   then [LogVisiting visitingKeys (add64 visitingKeys (len keys)) totalKeys
           (percentage (add64 visitingKeys (len keys)) totalKeys)]
   else []).

(** The events that open a reconciliation pass: the sleep and the progress
    line. *)
Definition passHeader (minClean wait : Z) (keys : list string) (c p : Z) : list event :=
  [Sleep (wrap64 (wait * Millisecond)); LogRepeatPass (len keys) (add64 p 1) c minClean].

(** The value and the events of a run that returned. *)
Definition valueOf {World A} (res : option (A * World * list event)) : option A :=
  match res with
  | Some (a, _, _) => Some a
  | None => None
  end.

Definition eventsOf {World A} (res : option (A * World * list event)) : list event :=
  match res with
  | Some (_, _, t) => t
  | None => []
  end.

(** ** A scripted store

    A small store to run the program on: the pages successive [SCAN] calls
    return are fixed in advance, keys hold strings, calls fail for the keys
    listed, and [writers] lists keys another client writes back, each once,
    just before the next [EXISTS] on it. *)
Record mem := {
  pages : list (list string);
  strings : list (string * string);
  dbsizeFails : bool;
  getFails : list string;
  delFails : list string;
  existsFails : list string;
  writers : list string
}.

Definition listed (key : string) (l : list string) : bool :=
  existsb (String.eqb key) l.

Fixpoint lookup (key : string) (kv : list (string * string)) : option string :=
  match kv with
  | [] => None
  | (k, v) :: kv' => if String.eqb key k then Some v else lookup key kv'
  end.

Fixpoint dropOnce (key : string) (l : list string) : list string :=
  match l with
  | [] => []
  | k :: l' => if String.eqb key k then l' else k :: dropOnce key l'
  end.

Definition withStrings (w : mem) (kv : list (string * string)) : mem :=
  {| pages := pages w; strings := kv; dbsizeFails := dbsizeFails w;
     getFails := getFails w; delFails := delFails w;
     existsFails := existsFails w; writers := writers w |}.

Definition withWriters (w : mem) (l : list string) : mem :=
  {| pages := pages w; strings := strings w; dbsizeFails := dbsizeFails w;
     getFails := getFails w; delFails := delFails w;
     existsFails := existsFails w; writers := l |}.

(** The store [w] with the given calls failing. *)
Definition broken (w : mem) (gets dels existss : list string) (dbsize : bool) : mem :=
  {| pages := pages w; strings := strings w; dbsizeFails := dbsize;
     getFails := gets; delFails := dels; existsFails := existss;
     writers := writers w |}.

Definition ioError : error := ClientError "i/o timeout".

Definition memClient : Client mem := {|
  DBSize := fun w =>
    (if dbsizeFails w then Err ioError else Ok (len (strings w)), w);
  Scan := fun cursor _ _ w =>
    (Ok (nth (Z.to_nat cursor) (pages w) [],
         if cursor + 1 <? len (pages w) then cursor + 1 else 0), w);
  Get := fun key w =>
    (if listed key (getFails w) then Err ioError
     else match lookup key (strings w) with
          | Some v => Ok (bs v)
          | None => Err (ClientError "redis: nil")
          end, w);
  HGetAll := fun key w => (Err (ClientError "WRONGTYPE"), w);
  Del := fun key w =>
    if listed key (delFails w) then (Some ioError, w)
    else (None, withStrings w
                  (filter (fun kv => negb (String.eqb key (fst kv))) (strings w)));
  Exists := fun key w =>
    if listed key (existsFails w) then (Err ioError, w)
    else if listed key (writers w)
         then (Ok 1, withWriters (withStrings w ((key, "null"%string) :: strings w))
                       (dropOnce key (writers w)))
         else (Ok (match lookup key (strings w) with Some _ => 1 | None => 0 end), w)
|}.

Definition memSearch : redisSearch mem :=
  {| client := memClient; Debug := false; Progress := false |}.

(** The store of the specification's scenario: [a] and [c] hold ["null"],
    [b] holds ["nullish"]; [SCAN] returns them in two pages. *)
Definition store : mem :=
  {| pages := [["a"; "b"]; ["c"]]%string;
     strings := [("a", "null"); ("b", "nullish"); ("c", "null")]%string;
     dbsizeFails := false; getFails := []; delFails := [];
     existsFails := []; writers := [] |}.

(** Search conditions to run the matcher on. *)
Definition exactNull (threshold : Z) : searchCondition :=
  {| AccessMode := valueAccessString; SizeThreshold := threshold;
     Search := "null"; Occurrences := 0 |}.

Definition atLeast (threshold : Z) (pattern : string) (n : Z) : searchCondition :=
  {| AccessMode := valueAccessString; SizeThreshold := threshold;
     Search := pattern; Occurrences := n |}.

(** [store] after the keys holding ["null"] were deleted. *)
Definition purged : mem :=
  withStrings store [("b", "nullish")]%string.

Definition noenv : environ := fun _ => EmptyString.

Definition cleanMin (n : string) : environ :=
  fun name => if String.eqb name "CLEAN_DELETE_MIN" then n else EmptyString.

(** ** The specification's notion of occurrence counting *)

(** [disjointOccurrences p n v]: [v] contains [n] pairwise non-overlapping
    occurrences of [p], read off left to right. *)
Inductive disjointOccurrences (p : bytes) : nat -> bytes -> Prop :=
| occ_none v : disjointOccurrences p 0 v
| occ_more n a v :
    disjointOccurrences p n v -> disjointOccurrences p (S n) (a ++ p ++ v).

(** ** Settings and the entry point *)

Section Settings.

(** [strings.ToLower], of Go's standard library, is a parameter of the
    functions that call it. *)
Variable ToLower : string -> string.

Definition envDefault (getenv : environ) (envname defaultValue : string) : string :=
  let envvalue := getenv envname in
  if String.eqb envvalue "" then defaultValue else envvalue.

Definition envBool (getenv : environ) (name defval : string) : bool :=
  let value := ToLower (envDefault getenv name defval) in
  String.eqb value "y" || String.eqb value "yes" || String.eqb value "true"
  || String.eqb value "t" || String.eqb value "1".

Definition parseValueAccessMode (accessMode : string) : valueAccessMode :=
  if String.eqb (ToLower accessMode) "string" then valueAccessString
  else valueAccessHash.

(** How the process ends: [usage] (exit status 1), a return from [main]
    (status 0), or [reportError] with a non-nil error (status 1); the
    message [reportError] prints is its prefix and [needle.String()]. *)
Inductive exit :=
| ExitUsage
| ExitOk
| ExitError (message : string) (needle : searchCondition) (e : error).

Definition exitStatus (x : exit) : Z :=
  match x with
  | ExitOk => 0
  | _ => 1
  end.

Definition reportError (message : string) (needle : searchCondition)
    (err : option error) : exit :=
  match err with
  | None => ExitOk
  | Some e => ExitError message needle e
  end.

(** [main]; [args] is [os.Args], [c] the client [redis.NewClient] returned. *)
Definition main {World} (c : Client World) (args : list string)
    (getenv : environ) (fuel : nat) : M World exit :=
  match args with
  | _ :: arg1 :: _ =>
      let search :=
        {| client := c;
           Debug := negb (String.eqb (getenv "DEBUG"%string) "");
           Progress := envBool getenv "PROGRESS" "true" |} in
      let needle :=
        {| AccessMode := parseValueAccessMode (getenv "ACCESS_MODE"%string);
           SizeThreshold := envInt getenv "SIZE_THRESHOLD" 0;
           Search := arg1;
           Occurrences := envInt getenv "REQUIRED_MATCH_COUNT" 0 |} in
      if envBool getenv "DELETE_MATCHING_KEYS" "false" then
        err <- deleteMatchingKeys search getenv fuel needle
                 (envBool getenv "WAIT_AND_REDELETE" "false") ;;
        ret (reportError "error deleting keys matching: " needle err)
      else
        err <- listMatchingKeys search fuel needle ;;
        ret (reportError "error listing keys matching: " needle err)
  | _ => ret ExitUsage
  end.

End Settings.

(** [valueAccessMode.String]. *)
Definition valueAccessMode_String (v : valueAccessMode) : string :=
  match v with
  | valueAccessString => "string"
  | valueAccessHash => "hash"
  end.

(** [strings.ToLower] on ASCII text: the letters [A] to [Z] become [a] to
    [z], every other byte is kept. *)
Definition lowerAscii (a : ascii) : ascii :=
  let n := N_of_ascii a in
  if ((65 <=? n) && (n <=? 90))%N then ascii_of_N (n + 32) else a.

Fixpoint asciiToLower (s : string) : string :=
  match s with
  | EmptyString => EmptyString
  | String a s' => String (lowerAscii a) (asciiToLower s')
  end.

(** ** The decimal form of an integer *)

Definition digitChar (d : Z) : ascii := ascii_of_N (Z.to_N (48 + d)).

(** The digits of [n], most significant first, in front of [acc]. *)
Fixpoint digitsBefore (fuel : nat) (n : Z) (acc : string) : string :=
  match fuel with
  | O => acc
  | S fuel' =>
      let acc' := String (digitChar (n mod 10)) acc in
      if n <? 10 then acc' else digitsBefore fuel' (n / 10) acc'
  end.

(** What [strconv.Itoa] prints for a 64-bit integer: at most 20 digits,
    after a minus sign if negative. *)
Definition decimal (z : Z) : string :=
  if z <? 0 then String "-" (digitsBefore 20 (- z) EmptyString)
  else digitsBefore 20 z EmptyString.

(** ** More to read from a run's events *)

(** The keys an existence check reported present. *)
Definition presentKey (e : event) : list string :=
  match e with
  | CallExists key (Ok n) => if n >? 0 then [key] else []
  | _ => []
  end.

Definition presentKeys (t : list event) : list string := flat_map presentKey t.

Definition scanCall (e : event) : list (Z * result (list string * Z)) :=
  match e with CallScan cursor res => [(cursor, res)] | _ => [] end.

(** The scan calls of a run, in order: the cursor passed and the result. *)
Definition scanCalls (t : list event) : list (Z * result (list string * Z)) :=
  flat_map scanCall t.

(** The scan calls follow the cursor from [cursor] on: each call passes the
    cursor the call before returned, and no call follows an error or a
    returned cursor of 0. *)
Fixpoint chained (cursor : Z) (calls : list (Z * result (list string * Z))) : Prop :=
  match calls with
  | [] => True
  | (c, Err _) :: rest => c = cursor /\ rest = []
  | (c, Ok (_, next)) :: rest =>
      c = cursor /\ if next =? 0 then rest = [] else chained next rest
  end.

Definition printedMatch (e : event) : list (string * Z) :=
  match e with PrintMatch key size => [(key, size)] | _ => [] end.

(** The keys [listMatchingKeys] printed, with the sizes printed. *)
Definition printedMatches (t : list event) : list (string * Z) :=
  flat_map printedMatch t.

(** The matched keys with the sizes of their values. *)
Definition matchedSizes (search : searchCondition) (t : list event)
  : list (string * Z) :=
  map (fun kv => (fst kv, len (snd kv)))
    (filter (fun kv => Matcher search (snd kv)) (flat_map fetched t)).

Definition sleepOf (e : event) : list Z :=
  match e with Sleep d => [d] | _ => [] end.

Definition sleeps (t : list event) : list Z := flat_map sleepOf t.

(** The delete calls that returned an error. *)
Definition failedDels (t : list event) : list (string * option error) :=
  filter (fun c => match snd c with None => false | Some _ => true end) (delCalls t).

Definition sumZ (l : list Z) : Z := fold_right Z.add 0 l.

(** The events a run ends with that are [n] passes over [keys] in which
    every key was checked and reported absent and nothing was deleted. *)
Definition cleanPasses (keys : list string) (n : Z) (t : list event) : Prop :=
  passes t = n /\
  map fst (existsCalls t) = concat (repeat keys (Z.to_nat n)) /\
  Forall absent (existsCalls t) /\
  delCalls t = [].

(** ** A store whose key keeps coming back

    The state counts the existence checks made; every second check finds the
    key present again, and deleting it succeeds. *)
Definition flickerClient : Client nat := {|
  DBSize := fun w => (Ok 1, w);
  Scan := fun _ _ _ w => (Ok (["k"%string], 0), w);
  Get := fun _ w => (Ok (bs "null"), w);
  HGetAll := fun _ w => (Ok [], w);
  Del := fun _ w => (None, w);
  Exists := fun _ w => (Ok (if Nat.even w then 1 else 0), S w)
|}.

Definition flicker : redisSearch nat :=
  {| client := flickerClient; Debug := false; Progress := false |}.

(** ** What the closures keep

    [purgeCounts] and [listCounts] relate the captured counters before and
    after a stretch of a run to its events; counters that are 64-bit values
    at the start count the calls of the stretch, modulo 2^64. *)
Definition purgeCounts (v v' : purgeVars) (t : list event) : Prop :=
  existsCalls t = [] /\ sleeps t = [] /\ passes t = 0 /\
  (in_int (deletedKeyCount v) -> in_int (failedDeleteCount v) ->
   deletedKeyCount v' = wrap64 (deletedKeyCount v + len (deletedOk t)) /\
   failedDeleteCount v' = wrap64 (failedDeleteCount v + len (failedDels t)) /\
   in_int (deletedKeyCount v') /\ in_int (failedDeleteCount v')).

Definition listCounts (search : searchCondition) (v v' : listVars)
    (t : list event) : Prop :=
  delCalls t = [] /\ existsCalls t = [] /\ sleeps t = [] /\
  printedMatches t = matchedSizes search t /\
  (in_int (matchingKeyCount v) -> in_int (matchingValuesTotalSize v) ->
   matchingKeyCount v' = wrap64 (matchingKeyCount v + len (printedMatches t)) /\
   matchingValuesTotalSize v' =
     wrap64 (matchingValuesTotalSize v + sumZ (map snd (printedMatches t))) /\
   in_int (matchingKeyCount v') /\ in_int (matchingValuesTotalSize v')).

(** A closure that returns no error and makes no scan call, as the two
    closures of the program are. *)
Definition plainAction {World A}
    (action : string -> bytes -> A -> M World (option error * A)) : Prop :=
  forall key value a w err a' w' t,
    action key value a w = Some ((err, a'), w', t) ->
    err = None /\ scanCalls t = [].

(** [memClient] with a scan that fails at cursor 1. *)
Definition scanFailsClient : Client mem := {|
  DBSize := DBSize memClient;
  Scan := fun cursor m count w =>
    if cursor =? 1 then (Err ioError, w) else Scan memClient cursor m count w;
  Get := Get memClient;
  HGetAll := HGetAll memClient;
  Del := Del memClient;
  Exists := Exists memClient
|}.

Definition scanFails : redisSearch mem :=
  {| client := scanFailsClient; Debug := false; Progress := false |}.

(** ** What failed calls leave in the events *)

(** The error [deleteKeys] returns for a failed call of a pass. *)
Definition passFailure (e : event) : list error :=
  match e with
  | CallExists key (Err e0) => [ExistCheckError key e0]
  | CallDel key (Some e0) => [DeleteFailError key e0]
  | _ => []
  end.

(** The failed existence checks and deletes of a run, as the errors
    [deleteKeys] makes of them. *)
Definition passFailures (t : list event) : list error := flat_map passFailure t.

(** The fetches that failed, each with the error [fetchValue] returned. *)
Definition fetchFailure (e : event) : list (string * error) :=
  match e with
  | CallGet key (Err e0) => [(key, e0)]
  | CallHGetAll key (Err e0) => [(key, HashAccessError key e0)]
  | _ => []
  end.

Definition fetchFailures (t : list event) : list (string * error) :=
  flat_map fetchFailure t.

Definition skipLine (e : event) : list (string * error) :=
  match e with LogFetchSkip key e0 => [(key, e0)] | _ => [] end.

(** The "fetchValue error reading ..., skipping" lines of a run. *)
Definition skipLines (t : list event) : list (string * error) := flat_map skipLine t.

Definition printedDelete (e : event) : list (string * Z) :=
  match e with PrintDelete key size => [(key, size)] | _ => [] end.

(** The "DELETE key (size = n)" lines of the initial pass. *)
Definition printedDeletes (t : list event) : list (string * Z) :=
  flat_map printedDelete t.

(** The sizes printed for the keys whose delete call returned no error:
    the lines and the delete calls of the initial pass go in pairs. *)
Definition deletedSizes (t : list event) : list Z :=
  map (fun x => snd (fst x))
    (filter (fun x => match snd (snd x) with None => true | Some _ => false end)
       (combine (printedDeletes t) (delCalls t))).

(** The events a closure passed to [matchingKeysDo] may produce: no key
    count, no scan, no fetch, no skip line. *)
Definition ofAction (e : event) : bool :=
  match e with
  | CallDBSize _ | CallScan _ _ | CallGet _ _ | CallHGetAll _ _
  | LogFetchSkip _ _ => false
  | _ => true
  end.

(** A closure that returns no error and leaves scanning and fetching to
    [matchingKeysDo], as the two closures of the program do. *)
Definition quietAction {World A}
    (action : string -> bytes -> A -> M World (option error * A)) : Prop :=
  forall key value a w err a' w' t,
    action key value a w = Some ((err, a'), w', t) ->
    err = None /\ forallb ofAction t = true.

(** What the delete closure keeps of the sizes: a line is printed for each
    matched key, with the length of its value, before its delete call, and
    [deletedValuesTotalSize] grows by the sizes of the keys deleted. *)
Definition purgeSizes (search : searchCondition) (v v' : purgeVars)
    (t : list event) : Prop :=
  printedDeletes t = matchedSizes search t /\
  map fst (printedDeletes t) = map fst (delCalls t) /\
  (in_int (deletedValuesTotalSize v) ->
   deletedValuesTotalSize v' =
     wrap64 (deletedValuesTotalSize v + sumZ (deletedSizes t)) /\
   in_int (deletedValuesTotalSize v')).

(** How [matchingKeysDo] may end: with [nil] after a scan call that
    returned cursor 0, with the wrapped error of the key count and nothing
    else done, or with the error of a scan call, the last thing it did. *)
Definition scanOutcome (err : option error) (t : list event) : Prop :=
  match err with
  | None =>
      exists calls cursor keys, scanCalls t = calls ++ [(cursor, Ok (keys, 0))]
  | Some e =>
      (exists e0, e = CountKeysError e0 /\ t = [CallDBSize (Err e0)]) \/
      (exists t0 cursor, t = t0 ++ [CallScan cursor (Err e)])
  end.

(** How a pass of [deleteKeys] over [keys] with events [t] may end: with
    [nil] and no failed call, or with the error of a failed call on some
    key, the last thing the pass did, the calls before it having succeeded
    and the keys after it left unchecked. *)
Definition passOutcome (keys : list string) (err : option error)
    (t : list event) : Prop :=
  match err with
  | None => passFailures t = []
  | Some e =>
      exists pre key rest t0 e0,
        keys = pre ++ key :: rest /\
        map fst (existsCalls t) = pre ++ [key] /\
        passFailures t0 = [] /\
        ((t = t0 ++ [CallExists key (Err e0)] /\ e = ExistCheckError key e0) \/
         (exists n, n > 0 /\
            t = t0 ++ [CallExists key (Ok n); PrintRedelete key; CallDel key (Some e0)] /\
            e = DeleteFailError key e0))
  end.

(** How a run of the reconciliation loop may end: with [nil] and no failed
    call in any pass, or with the error of a failed call, the last thing
    the run did. *)
Definition loopOutcome (err : option error) (t : list event) : Prop :=
  match err with
  | None => passFailures t = []
  | Some e =>
      exists t0 x, t = t0 ++ [x] /\ passFailure x = [e] /\ passFailures t0 = []
  end.

(** ** A store whose key is back at the second check

    The state counts the existence checks made: the first finds the key
    absent; the second finds it present, or fails if [checksFail]; every
    delete fails. *)
Definition lateClient (checksFail : bool) : Client nat := {|
  DBSize := fun w => (Ok 1, w);
  Scan := fun _ _ _ w => (Ok (["k"%string], 0), w);
  Get := fun _ w => (Ok (bs "null"), w);
  HGetAll := fun _ w => (Ok [], w);
  Del := fun _ w => (Some ioError, w);
  Exists := fun _ w =>
    (if Nat.even w then Ok 0 else if checksFail then Err ioError else Ok 1, S w)
|}.

Definition late (checksFail : bool) : redisSearch nat :=
  {| client := lateClient checksFail; Debug := false; Progress := false |}.

(** ** A store holding one hash *)
Definition hashClient : Client unit := {|
  DBSize := fun w => (Ok 1, w);
  Scan := fun _ _ _ w => (Ok (["h"%string], 0), w);
  Get := fun _ w => (Err (ClientError "WRONGTYPE"), w);
  HGetAll := fun _ w => (Ok [("id", "7"); ("body", "xababx"); ("n", "1")]%string, w);
  Del := fun _ w => (None, w);
  Exists := fun _ w => (Ok 0, w)
|}.

Definition hashes : redisSearch unit :=
  {| client := hashClient; Debug := false; Progress := false |}.

Definition hashAtLeast (pattern : string) (n : Z) : searchCondition :=
  {| AccessMode := valueAccessHash; SizeThreshold := 0;
     Search := pattern; Occurrences := n |}.

(** * Properties *)

Example Count_ababab : Count (bs "ababab") (bs "ab") = 3.
Proof. reflexivity. Qed.

Example Count_aaa : Count (bs "aaaaa") (bs "aa") = 2.
Proof. reflexivity. Qed.

Example Count_empty_sep : Count [x68; xc3; xa9; x6c; x6c; x6f]%byte [] = 6.
Proof. reflexivity. Qed.

Example Index_miss : Index (bs "abc") (bs "cd") = -1.
Proof. reflexivity. Qed.

Example Index_hit : Index (bs "xxabc") (bs "ab") = 2.
Proof. reflexivity. Qed.

Example average_8_2 : average 8 2 = 4%float.
Proof. reflexivity. Qed.

Example percentage_50_200 : percentage 50 200 = 25%float.
Proof. reflexivity. Qed.

(** ** Byte strings *)

Lemma Equal_spec (a c : bytes) : Equal a c = true <-> a = c.
Proof.
  revert c; induction a as [|x a IH]; intros [|y c]; simpl; split;
    try congruence; try reflexivity.
  - intros H. apply andb_prop in H as [Hxy Hac].
    apply byte_dec_bl in Hxy. apply IH in Hac. congruence.
  - intros H. injection H as -> ->.
    apply andb_true_intro. split; [apply byte_dec_lb; reflexivity | now apply IH].
Qed.

Lemma bs_nil (s : string) : bs s = [] <-> s = EmptyString.
Proof.
  split; [| intros ->; reflexivity].
  intros H. rewrite <- (string_of_list_byte_of_string s).
  unfold bs in H. now rewrite H.
Qed.

Lemma len_zero {A} (l : list A) : len l = 0 <-> l = [].
Proof.
  unfold len. destruct l; simpl; split; intros H; try reflexivity; try discriminate; lia.
Qed.

Lemma HasPrefix_spec (s p : bytes) :
  HasPrefix s p = true <-> exists rest, s = p ++ rest.
Proof.
  revert s; induction p as [|y p IH]; intros s; simpl.
  - split; [intros _; now exists s | reflexivity].
  - destruct s as [|x s].
    + split; [discriminate | intros [rest H]; discriminate].
    + split.
      * intros H. apply andb_prop in H as [Hxy Hp].
        apply byte_dec_bl in Hxy. apply IH in Hp as [rest ->].
        exists rest. now subst.
      * intros [rest H]. injection H as -> ->.
        apply andb_true_intro. split; [now apply byte_dec_lb | apply IH; now exists rest].
Qed.

Lemma Index_range (s p : bytes) : Index s p = -1 \/ 0 <= Index s p.
Proof.
  induction s as [|x s IH]; simpl.
  - destruct (HasPrefix [] p); lia.
  - destruct (HasPrefix (x :: s) p); [lia |].
    destruct (Z.ltb_spec (Index s p) 0); lia.
Qed.

(** A non-negative result of [Index] is the offset of the leftmost
    occurrence. *)
Lemma Index_found (s p : bytes) :
  0 <= Index s p ->
  exists a rest, s = a ++ p ++ rest /\ len a = Index s p /\
    forall a' rest', s = a' ++ p ++ rest' -> Index s p <= len a'.
Proof.
  induction s as [|x s IH]; simpl.
  - destruct (HasPrefix [] p) eqn:Hp; [| lia].
    intros _. apply HasPrefix_spec in Hp as [rest Hrest].
    exists [], rest. repeat split; trivial. intros; unfold len; lia.
  - destruct (HasPrefix (x :: s) p) eqn:Hp.
    + intros _. apply HasPrefix_spec in Hp as [rest Hrest].
      exists [], rest. repeat split; trivial. intros; unfold len; lia.
    + destruct (Z.ltb_spec (Index s p) 0) as [|Hi]; [lia |].
      intros _. destruct (IH Hi) as (a & rest & Hs & Hlen & Hmin).
      exists (x :: a), rest. repeat split.
      * simpl. now rewrite <- Hs.
      * unfold len in *. simpl length. lia.
      * intros [|x' a'] rest' Heq.
        -- exfalso. assert (HasPrefix (x :: s) p = true) as Hq
             by (apply HasPrefix_spec; now exists rest').
           congruence.
        -- simpl in Heq. injection Heq as _ Heq.
           specialize (Hmin _ _ Heq). unfold len in *. simpl length. lia.
Qed.

Lemma Index_missing (s p a rest : bytes) :
  Index s p = -1 -> s <> a ++ p ++ rest.
Proof.
  revert a; induction s as [|x s IH]; intros a; simpl.
  - destruct (HasPrefix [] p) eqn:Hp; [lia |]. intros _ Heq.
    destruct a; simpl in Heq.
    + assert (HasPrefix [] p = true) by (apply HasPrefix_spec; now exists rest).
      congruence.
    + discriminate.
  - destruct (HasPrefix (x :: s) p) eqn:Hp; [lia |].
    destruct (Z.ltb_spec (Index s p) 0) as [Hi|Hi]; [| lia].
    intros _ Heq. destruct a as [|x' a]; simpl in Heq.
    + assert (HasPrefix (x :: s) p = true) by (apply HasPrefix_spec; now exists rest).
      congruence.
    + injection Heq as _ Heq. revert Heq. apply IH.
      destruct (Index_range s p); lia.
Qed.

Lemma occ_weaken (p x v : bytes) (n : nat) :
  disjointOccurrences p n v -> disjointOccurrences p n (x ++ v).
Proof.
  intros H; destruct H as [v | n a v H].
  - constructor.
  - rewrite app_assoc. now constructor.
Qed.

(** The loop of [Count] finds as many disjoint occurrences as there are:
    taking the leftmost one first loses nothing. *)
Lemma countLoop_spec (p : bytes) (Hp : p <> []) :
  forall (fuel : nat) (s : bytes) (acc : Z),
    (length s < fuel)%nat ->
    acc <= countLoop fuel s p acc /\
    forall n : nat,
      disjointOccurrences p n s <-> acc + Z.of_nat n <= countLoop fuel s p acc.
Proof.
  induction fuel as [|fuel IH]; intros s acc Hfuel; [lia |].
  simpl. destruct (Z.eqb_spec (Index s p) (-1)) as [Hi|Hi].
  - split; [lia |]. intros n; split.
    + intros H; destruct H as [v | n a v H]; [lia |].
      exfalso. now apply (Index_missing _ _ a v Hi).
    + intros H. replace n with 0%nat by lia. constructor.
  - assert (0 <= Index s p) as Hi' by (destruct (Index_range s p); lia).
    destruct (Index_found s p Hi') as (a & rest & Hs & Hlen & Hmin).
    assert (Hskip : skipn (Z.to_nat (Index s p) + length p) s = rest).
    { rewrite Hs at 2. rewrite app_assoc, skipn_app.
      replace (Z.to_nat (Index s p) + length p)%nat with (length (a ++ p))
        by (rewrite length_app; unfold len in Hlen; lia).
      now rewrite skipn_all, Nat.sub_diag. }
    rewrite Hskip.
    assert (length p <> 0)%nat as Hpl by (destruct p; simpl; congruence).
    assert (length rest < fuel)%nat as Hrest.
    { rewrite Hs in Hfuel. rewrite !length_app in Hfuel. lia. }
    destruct (IH rest (acc + 1) Hrest) as [Hle Hocc].
    split; [lia |]. intros n; split.
    + intros H. destruct n as [|m]; [lia |].
      inversion H as [| m' a' v' Hv' Hm Heq]; subst m'.
      assert (Index s p <= len a') as Hmin' by (apply (Hmin a' v'); congruence).
      assert (disjointOccurrences p m rest) as Hm.
      { rewrite <- Hskip.
        remember (Z.to_nat (Index s p) + length p)%nat as k eqn:Hk.
        assert (k <= length (a' ++ p))%nat as Hk'
          by (rewrite length_app; unfold len in Hmin'; lia).
        rewrite <- Heq, app_assoc, skipn_app.
        replace (k - length (a' ++ p))%nat with 0%nat by lia.
        simpl. now apply occ_weaken. }
      apply Hocc in Hm. lia.
    + intros H. destruct n as [|m]; [constructor |].
      rewrite Hs. constructor. apply Hocc. lia.
Qed.

(** The fuel [Count] gives its loop is enough: more changes nothing. *)
Lemma countLoop_fuel (p : bytes) (Hp : p <> []) (s : bytes) (k : nat) :
  countLoop (S (length s) + k) s p 0 = countLoop (S (length s)) s p 0.
Proof.
  destruct (countLoop_spec p Hp (S (length s) + k) s 0) as [H1 H1']; [lia |].
  destruct (countLoop_spec p Hp (S (length s)) s 0) as [H2 H2']; [lia |].
  apply Z.le_antisymm.
  - specialize (H1' (Z.to_nat (countLoop (S (length s) + k) s p 0))).
    specialize (H2' (Z.to_nat (countLoop (S (length s) + k) s p 0))).
    rewrite Z2Nat.id in * by assumption. simpl in H2'.
    apply H2', H1'. lia.
  - specialize (H1' (Z.to_nat (countLoop (S (length s)) s p 0))).
    specialize (H2' (Z.to_nat (countLoop (S (length s)) s p 0))).
    rewrite Z2Nat.id in * by assumption. simpl in H1'.
    apply H1', H2'. lia.
Qed.

(** [Count] is the largest number of disjoint occurrences. *)
Lemma Count_spec (v p : bytes) (n : nat) :
  p <> [] -> (Z.of_nat n <= Count v p <-> disjointOccurrences p n v).
Proof.
  intros Hp. unfold Count. destruct p as [|y p]; [congruence |].
  destruct (countLoop_spec (y :: p) Hp (S (length v)) v 0) as [_ H]; [lia |].
  symmetry. apply H.
Qed.

Lemma occ_empty_pattern (n : nat) (v : bytes) : disjointOccurrences [] n v.
Proof.
  induction n as [|n IH]; [constructor |].
  change v with ([] ++ [] ++ v). now constructor.
Qed.

(** ** The matcher *)

(** The matcher, branch by branch. *)
Lemma Matcher_unfold (s : searchCondition) (v : bytes) :
  Matcher s v =
    if len v <? SizeThreshold s then false
    else if len (bs (Search s)) =? 0 then true
    else if Occurrences s <=? 0 then Equal v (bs (Search s))
    else Count v (bs (Search s)) >=? Occurrences s.
Proof. reflexivity. Qed.

(** C3 as stated fails: with [SIZE_THRESHOLD=5] the value ["null"] equals
    the pattern ["null"] byte for byte, [REQUIRED_MATCH_COUNT] is 0, and the
    matcher rejects it. *)
Lemma Matcher_exact_below_threshold :
  Search (exactNull 5) <> EmptyString /\ Occurrences (exactNull 5) = 0 /\
  ~ (Matcher (exactNull 5) (bs "null") = true <->
     bs "null" = bs (Search (exactNull 5))).
Proof.
  split; [discriminate | split; [reflexivity |]].
  intros [_ H]. specialize (H eq_refl). discriminate H.
Qed.

(** C3, amended: for a non-empty pattern and [Occurrences = 0] the matcher
    accepts [v] exactly when [v] is at least [SizeThreshold] bytes long and
    equals the pattern byte for byte; so no value distinct from the pattern
    (in particular none properly containing it) matches. *)
Theorem Matcher_exact (s : searchCondition) (v : bytes) :
  Search s <> EmptyString -> Occurrences s = 0 ->
  (Matcher s v = true <-> SizeThreshold s <= len v /\ v = bs (Search s)) /\
  (v <> bs (Search s) -> Matcher s v = false).
Proof.
  intros Hp Ho.
  assert (Hiff : Matcher s v = true <-> SizeThreshold s <= len v /\ v = bs (Search s)).
  { rewrite Matcher_unfold, Ho.
    destruct (Z.ltb_spec (len v) (SizeThreshold s)) as [Hlt|Hge].
    - split; [discriminate | lia].
    - destruct (Z.eqb_spec (len (bs (Search s))) 0) as [Hz|_].
      + apply len_zero, bs_nil in Hz. contradiction.
      + simpl. rewrite Equal_spec. tauto. }
  split; [exact Hiff |].
  intros Hne. destruct (Matcher s v) eqn:Hm; [| reflexivity].
  exfalso. apply Hne. now apply Hiff.
Qed.

Lemma Matcher_exact_witness :
  (Matcher (exactNull 0) (bs "null") = true <->
     SizeThreshold (exactNull 0) <= len (bs "null") /\
     bs "null" = bs (Search (exactNull 0))) /\
  (bs "nullish" <> bs (Search (exactNull 0)) ->
     Matcher (exactNull 0) (bs "nullish") = false).
Proof.
  split.
  - apply (Matcher_exact (exactNull 0) (bs "null")); [discriminate | reflexivity].
  - apply (Matcher_exact (exactNull 0) (bs "nullish")); [discriminate | reflexivity].
Defined.

(** C4 as stated fails: ["ababab"] holds 3 non-overlapping occurrences of
    ["ab"], 2 are required, and with [SIZE_THRESHOLD=7] the matcher rejects
    the value. *)
Lemma Matcher_count_below_threshold :
  0 < Occurrences (atLeast 7 "ab" 2) /\
  Count (bs "ababab") (bs "ab") = 3 /\
  ~ (Matcher (atLeast 7 "ab" 2) (bs "ababab") = true <->
     Count (bs "ababab") (bs (Search (atLeast 7 "ab" 2)))
       >= Occurrences (atLeast 7 "ab" 2)).
Proof.
  split; [reflexivity | split; [reflexivity |]].
  intros [_ H]. assert (3 >= 2) as H32 by lia. specialize (H H32). discriminate H.
Qed.

(** C4, amended: for every pattern and [Occurrences = n > 0] the matcher
    accepts [v] exactly when [v] is at least [SizeThreshold] bytes long and
    contains [n] non-overlapping occurrences of the pattern; for a non-empty
    pattern that is [bytes.Count v pattern >= n]. *)
Theorem Matcher_occurrences (s : searchCondition) (v : bytes) :
  0 < Occurrences s ->
  (Matcher s v = true <->
     SizeThreshold s <= len v /\
     disjointOccurrences (bs (Search s)) (Z.to_nat (Occurrences s)) v) /\
  (Search s <> EmptyString ->
     (disjointOccurrences (bs (Search s)) (Z.to_nat (Occurrences s)) v <->
      Count v (bs (Search s)) >= Occurrences s)).
Proof.
  intros Hn.
  assert (HC : bs (Search s) <> [] ->
               (disjointOccurrences (bs (Search s)) (Z.to_nat (Occurrences s)) v <->
                Count v (bs (Search s)) >= Occurrences s)).
  { intros Hp. rewrite <- (Count_spec v _ _ Hp), Z2Nat.id by lia. lia. }
  split.
  - rewrite Matcher_unfold.
    destruct (Z.ltb_spec (len v) (SizeThreshold s)) as [Hlt|Hge].
    + split; [discriminate | lia].
    + destruct (Z.eqb_spec (len (bs (Search s))) 0) as [Hz|Hnz].
      * apply len_zero in Hz. rewrite Hz. split; [| reflexivity].
        intros _. split; [assumption | apply occ_empty_pattern].
      * assert (bs (Search s) <> []) as Hp by (intros E; apply Hnz; now apply len_zero).
        destruct (Z.leb_spec (Occurrences s) 0) as [|_]; [lia |].
        rewrite (HC Hp). unfold Z.geb.
        destruct (Count v (bs (Search s)) ?= Occurrences s) eqn:Hc;
          [apply Z.compare_eq in Hc | rewrite Z.compare_lt_iff in Hc
           | rewrite Z.compare_gt_iff in Hc];
          split; intros H; try reflexivity; try discriminate; try lia;
          split; try assumption; lia.
  - intros Hp. apply HC. intros E. apply Hp. now apply bs_nil.
Qed.

Lemma Matcher_occurrences_witness :
  Count (bs "ababab") (bs "ab") = 3 /\
  Matcher (atLeast 0 "ab" 2) (bs "ababab") = true /\
  (Matcher (atLeast 0 "ab" 2) (bs "ababab") = true <->
     SizeThreshold (atLeast 0 "ab" 2) <= len (bs "ababab") /\
     disjointOccurrences (bs "ab") 2 (bs "ababab")).
Proof.
  split; [reflexivity | split; [reflexivity |]].
  apply (Matcher_occurrences (atLeast 0 "ab" 2) (bs "ababab")). reflexivity.
Defined.

(** C8: a value shorter than the size threshold is rejected whatever the
    search pattern and the required occurrence count are. *)
Theorem Matcher_rejects_small (s : searchCondition) (v : bytes) :
  len v < SizeThreshold s -> Matcher s v = false.
Proof.
  intros H. unfold Matcher.
  destruct (Z.ltb_spec (len v) (SizeThreshold s)); [reflexivity | lia].
Qed.

Lemma Matcher_rejects_small_witness :
  len (bs "null") < 5 /\
  Matcher {| AccessMode := valueAccessString; SizeThreshold := 5;
             Search := "null"; Occurrences := 0 |} (bs "null") = false.
Proof.
  split; [reflexivity | apply Matcher_rejects_small; reflexivity].
Defined.


(** ** Machine integers and the environment *)

Lemma wrap64_small (z : Z) : in_int z -> wrap64 z = z.
Proof.
  unfold in_int, wrap64, min_int, max_int. intros H.
  rewrite Z.mod_small; lia.
Qed.

Lemma add64_small (a c : Z) : in_int (a + c) -> add64 a c = a + c.
Proof. apply wrap64_small. Qed.

Lemma Atoi_in_int (s : string) (z : Z) : Atoi s = Some z -> in_int z.
Proof.
  unfold Atoi. destruct (splitSign s) as [neg body].
  destruct body as [|a body]; [discriminate |].
  destruct (parseDigits (String a body) 0) as [n|]; [| discriminate].
  destruct ((min_int <=? (if neg then - n else n)) &&
            ((if neg then - n else n) <=? max_int)) eqn:E; [| discriminate].
  intros H; injection H as <-.
  apply andb_prop in E as [E1 E2]. apply Z.leb_le in E1, E2. now split.
Qed.

(** [envInt] yields an [int] whenever its default is one. *)
Lemma envInt_in_int (getenv : environ) (name : string) (defval : Z) :
  in_int defval -> in_int (envInt getenv name defval).
Proof.
  intros Hd. unfold envInt. destruct (Atoi (getenv name)) eqn:E; [| exact Hd].
  now apply Atoi_in_int with (1 := E).
Qed.

(** ** Events of a run *)

Lemma existsCalls_app (t1 t2 : list event) :
  existsCalls (t1 ++ t2) = existsCalls t1 ++ existsCalls t2.
Proof. apply flat_map_app. Qed.

Lemma delCalls_app (t1 t2 : list event) :
  delCalls (t1 ++ t2) = delCalls t1 ++ delCalls t2.
Proof. apply flat_map_app. Qed.

Lemma passes_app (t1 t2 : list event) : passes (t1 ++ t2) = passes t1 + passes t2.
Proof. unfold passes, len. rewrite filter_app, length_app. lia. Qed.

Lemma matchedKeys_app (search : searchCondition) (t1 t2 : list event) :
  matchedKeys search (t1 ++ t2) = matchedKeys search t1 ++ matchedKeys search t2.
Proof. unfold matchedKeys. now rewrite flat_map_app, filter_app, map_app. Qed.

(** ** Runs *)

Section Runs.

Context {World : Type}.
Variable r : redisSearch World.

Lemma after_nil {A} (res : option (A * World * list event)) : after [] res = res.
Proof. destruct res as [[[a w] t]|]; reflexivity. Qed.

Lemma after_after {A} (t1 t2 : list event) (res : option (A * World * list event)) :
  after t1 (after t2 res) = after (t1 ++ t2) res.
Proof. destruct res as [[[a w] t]|]; simpl; [now rewrite app_assoc | reflexivity]. Qed.

Lemma bind_run {A B} (m : M World A) (k : A -> M World B) (w : World) :
  bind m k w =
    match m w with
    | None => None
    | Some (a, w1, t1) => after t1 (k a w1)
    end.
Proof. unfold bind, after. destruct (m w) as [[[a w1] t1]|]; reflexivity. Qed.

Lemma bind_emit {B} (e : event) (k : M World B) (w : World) :
  bind (emit e) (fun _ => k) w = after [e] (k w).
Proof. reflexivity. Qed.

(** *** Fetch failures *)


Lemma visitKeys_skipped {A : Type} (search : searchCondition)
    (action : string -> bytes -> A -> M World (option error * A))
    (key : string) (rest : list string) (a : A) (w w1 : World)
    (e : error) (t1 : list event) :
  fetchValue r key (AccessMode search) w = Some (Err e, w1, t1) ->
  visitKeys r search action (key :: rest) a w =
    after (t1 ++ [LogFetchSkip key e]) (visitKeys r search action rest a w1).
Proof.
  intros Hf. cbn [visitKeys].
  rewrite bind_run, Hf, bind_emit, after_after. reflexivity.
Qed.

(** *** One pass of the reconciliation loop *)

Lemma deleteKeysFrom_cons (key : string) (rest : list string) (found : bool) (w : World) :
  deleteKeysFrom r (key :: rest) found w =
    match Exists (client r) key w with
    | (Err e, w1) =>
        Some ((found, Some (ExistCheckError key e)), w1, [CallExists key (Err e)])
    | (Ok n, w1) =>
        if n >? 0 then
          match Del (client r) key w1 with
          | (Some e, w2) =>
              Some ((true, Some (DeleteFailError key e)), w2,
                    [CallExists key (Ok n); PrintRedelete key; CallDel key (Some e)])
          | (None, w2) => after (checkTrace key n) (deleteKeysFrom r rest true w2)
          end
        else after (checkTrace key n) (deleteKeysFrom r rest found w1)
    end.
Proof.
  cbn [deleteKeysFrom].
  unfold keyExists, deleteKey, checkTrace, bind, call, emit, ret, after.
  destruct (Exists (client r) key w) as [[n|e] w1]; cbn; [| reflexivity].
  destruct (n >? 0); cbn.
  - destruct (Del (client r) key w1) as [[e|] w2]; cbn; [reflexivity |].
    destruct (deleteKeysFrom r rest true w2) as [[[res w3] t]|]; reflexivity.
  - destruct (deleteKeysFrom r rest found w1) as [[[res w3] t]|]; reflexivity.
Qed.

(** A pass always returns: it is a loop over the keys. *)
Lemma deleteKeysFrom_total (keys : list string) (found : bool) (w : World) :
  exists res, deleteKeysFrom r keys found w = Some res.
Proof.
  revert found w; induction keys as [|key rest IH]; intros found w.
  - now eexists.
  - rewrite deleteKeysFrom_cons.
    destruct (Exists (client r) key w) as [[n|e] w1]; [| now eexists].
    destruct (n >? 0).
    + destruct (Del (client r) key w1) as [[e|] w2]; [now eexists |].
      destruct (IH true w2) as [[[res w3] t] ->]. now eexists.
    + destruct (IH found w1) as [[[res w3] t] ->]. now eexists.
Qed.

(** A pass that returns no error has checked every key, in order, and has
    deleted exactly those reported present. *)
Lemma deleteKeysFrom_completes (keys : list string) :
  forall (found found' : bool) (w w' : World) (t : list event),
    deleteKeysFrom r keys found w = Some ((found', None), w', t) ->
    exists ns : list Z,
      length ns = length keys /\
      t = concat (map (fun kn => checkTrace (fst kn) (snd kn)) (combine keys ns)) /\
      found' = found || existsb (fun n => n >? 0) ns.
Proof.
  induction keys as [|key rest IH]; intros found found' w w' t.
  - intros H; injection H as <- _ <-. exists []. now rewrite orb_false_r.
  - rewrite deleteKeysFrom_cons.
    destruct (Exists (client r) key w) as [[n|e] w1]; [| discriminate].
    destruct (n >? 0) eqn:Hn.
    + destruct (Del (client r) key w1) as [[e|] w2]; [discriminate |].
      destruct (deleteKeysFrom r rest true w2) as [[[[f err] w3] t3]|] eqn:Hrest;
        [| discriminate].
      cbn. intros H; inversion H; subst; clear H.
      destruct (IH _ _ _ _ _ Hrest) as (ns & Hlen & -> & Hf). cbn in Hf.
      exists (n :: ns). cbn. rewrite Hn, orb_true_r. repeat split; congruence.
    + destruct (deleteKeysFrom r rest found w1) as [[[[f err] w3] t3]|] eqn:Hrest;
        [| discriminate].
      cbn. intros H; inversion H; subst; clear H.
      destruct (IH _ _ _ _ _ Hrest) as (ns & Hlen & -> & ->).
      exists (n :: ns). cbn. rewrite Hn. repeat split; congruence.
Qed.

Lemma deleteKeysFrom_app (pre post : list string) :
  forall (found : bool) (w : World),
    deleteKeysFrom r (pre ++ post) found w =
      match deleteKeysFrom r pre found w with
      | Some ((found', None), w0, t0) => after t0 (deleteKeysFrom r post found' w0)
      | res => res
      end.
Proof.
  induction pre as [|key pre IH]; intros found w.
  - cbn. now rewrite after_nil.
  - rewrite <- app_comm_cons, !deleteKeysFrom_cons.
    destruct (Exists (client r) key w) as [[n|e] w1]; [| reflexivity].
    destruct (n >? 0).
    + destruct (Del (client r) key w1) as [[e|] w2]; [reflexivity |].
      rewrite IH.
      destruct (deleteKeysFrom r pre true w2) as [[[[f [e|]] w3] t3]|]; cbn;
        try reflexivity.
      now rewrite after_after.
    + rewrite IH.
      destruct (deleteKeysFrom r pre found w1) as [[[[f [e|]] w3] t3]|]; cbn;
        try reflexivity.
      now rewrite after_after.
Qed.

Lemma repeatLoop_step (fuel : nat) (minClean wait : Z) (keys : list string)
    (c p : Z) (w : World) :
  c < minClean ->
  repeatLoop r (S fuel) minClean wait keys c p w =
    after (passHeader minClean wait keys c p)
      match deleteKeys r keys w with
      | None => None
      | Some ((found, Some e), w1, t) => Some ((Some e, c, add64 p 1), w1, t)
      | Some ((found, None), w1, t) =>
          after t (repeatLoop r fuel minClean wait keys
                     (if found then 0 else add64 c 1) (add64 p 1) w1)
      end.
Proof.
  intros Hc. cbn [repeatLoop].
  destruct (Z.ltb_spec c minClean) as [_|]; [| lia].
  rewrite !bind_emit, after_after, bind_run. unfold passHeader. cbn [app].
  destruct (deleteKeys r keys w) as [[[[found [e|]] w1] t]|]; cbn.
  - now rewrite app_nil_r.
  - now destruct found.
  - reflexivity.
Qed.

Lemma repeatLoop_done (fuel : nat) (minClean wait : Z) (keys : list string)
    (c p : Z) (w : World) :
  minClean <= c ->
  repeatLoop r fuel minClean wait keys c p w = Some ((None, c, p), w, []).
Proof.
  intros Hc. destruct fuel; cbn [repeatLoop];
    destruct (Z.ltb_spec c minClean); (lia || reflexivity).
Qed.

(** A pass that returns an error ends the loop with that error; the
    counter of clean passes is left as it was. *)
Lemma reconciliation_pass_aborts (fuel : nat) (minClean wait : Z)
    (keys : list string) (c p : Z) (w w1 : World) (found : bool) (e : error)
    (t : list event) :
  deleteKeys r keys w = Some ((found, Some e), w1, t) ->
  c < minClean ->
  repeatLoop r (S fuel) minClean wait keys c p w =
    Some ((Some e, c, add64 p 1), w1, passHeader minClean wait keys c p ++ t).
Proof.
  intros Hpass Hc. rewrite repeatLoop_step, Hpass by lia. reflexivity.
Qed.

(** *** The loop over a page of keys *)

Lemma visitKeys_fetched {A : Type} (search : searchCondition)
    (action : string -> bytes -> A -> M World (option error * A))
    (key : string) (rest : list string) (a : A) (w w0 : World)
    (value : bytes) (t0 : list event) :
  fetchValue r key (AccessMode search) w = Some (Ok value, w0, t0) ->
  visitKeys r search action (key :: rest) a w =
    after t0
      (if Matcher search value then
         match action key value a w0 with
         | None => None
         | Some ((Some e, a'), w1, t1) => Some ((Some e, a'), w1, t1)
         | Some ((None, a'), w1, t1) => after t1 (visitKeys r search action rest a' w1)
         end
       else visitKeys r search action rest a w0).
Proof.
  intros Hf. cbn [visitKeys]. rewrite bind_run, Hf.
  destruct (Matcher search value); [| reflexivity].
  rewrite bind_run.
  destruct (action key value a w0) as [[[[[e|] a'] w1] t1]|]; cbn; trivial.
  now rewrite app_nil_r.
Qed.

Lemma deleteAction_run (key : string) (value : bytes) (v : purgeVars) (w : World) :
  deleteAction r key value v w =
    match Del (client r) key w with
    | (Some e, w1) =>
        Some ((None, countFailure (appendDeleted key v)), w1,
              [PrintDelete key (len value); CallDel key (Some e); LogDeleteFailed key e])
    | (None, w1) =>
        Some ((None, countSuccess value (appendDeleted key v)), w1,
              [PrintDelete key (len value); CallDel key None])
    end.
Proof.
  unfold deleteAction, deleteKey, bind, call, emit, ret.
  destruct (Del (client r) key w) as [[e|] w1]; reflexivity.
Qed.

(** *** deleteMatchingKeys, step by step *)

Lemma deleteMatchingKeys_run (getenv : environ) (fuel : nat)
    (search : searchCondition) (repeatDeletes : bool) (w : World) :
  deleteMatchingKeys r getenv fuel search repeatDeletes w =
    match purgePass r fuel search w with
    | None => None
    | Some ((Some e, v), w1, t1) =>
        Some (Some e, w1, LogDeleting search :: t1 ++ [deletedSummary search v])
    | Some ((None, v), w1, t1) =>
        if repeatDeletes then
          match repeatDeleteKeys r getenv fuel (deletedKeys v) w1 with
          | None => None
          | Some (err, w2, t2) =>
              Some (err, w2,
                    LogDeleting search :: t1 ++ t2 ++ [deletedSummary search v])
          end
        else Some (None, w1, LogDeleting search :: t1 ++ [deletedSummary search v])
    end.
Proof.
  unfold deleteMatchingKeys. rewrite bind_emit, bind_run.
  destruct (purgePass r fuel search w) as [[[[[e|] v] w1] t1]|]; [| | reflexivity].
  - reflexivity.
  - destruct repeatDeletes; [| reflexivity]. cbn [negb].
    rewrite bind_run.
    destruct (repeatDeleteKeys r getenv fuel (deletedKeys v) w1) as [[[err w2] t2]|];
      reflexivity.
Qed.

(** *** The scan loop *)

Lemma scanLoop_step {A : Type} (search : searchCondition)
    (action : string -> bytes -> A -> M World (option error * A))
    (fuel : nat) (totalKeys scanCursor visitingKeys : Z) (a : A) (w : World) :
  scanLoop r search action (S fuel) totalKeys scanCursor visitingKeys a w =
    match Scan (client r) scanCursor "" 50 w with
    | (Err e, w1) => Some ((Some e, a), w1, [CallScan scanCursor (Err e)])
    | (Ok (keys, scanCursor'), w1) =>
        after (CallScan scanCursor (Ok (keys, scanCursor'))
                 :: pageLog r totalKeys visitingKeys keys scanCursor')
          match visitKeys r search action keys a w1 with
          | None => None
          | Some ((Some e, a'), w2, t) => Some ((Some e, a'), w2, t)
          | Some ((None, a'), w2, t) =>
              if scanCursor' =? 0 then Some ((None, a'), w2, t)
              else after t (scanLoop r search action fuel totalKeys scanCursor'
                              (add64 visitingKeys (len keys)) a' w2)
          end
    end.
Proof.
  cbn [scanLoop]. unfold bind, call, emit, ret, when, after, pageLog.
  destruct (Scan (client r) scanCursor "" 50 w) as [[[keys scanCursor']|e] w1];
    [| reflexivity].
  destruct (Debug r), (Progress r); cbn;
    (destruct (visitKeys r search action keys a w1) as [[[[[e|] a'] w2] t]|]; cbn;
     [ rewrite ?app_nil_r; reflexivity
     | destruct (scanCursor' =? 0); cbn;
       [ rewrite ?app_nil_r; reflexivity
       | destruct (scanLoop r search action fuel totalKeys scanCursor'
                     (add64 visitingKeys (len keys)) a' w2) as [[[res w3] t3]|];
         reflexivity ]
     | reflexivity ]).
Qed.

Lemma matchingKeysDo_run {A : Type} (search : searchCondition)
    (action : string -> bytes -> A -> M World (option error * A))
    (fuel : nat) (a : A) (w : World) :
  matchingKeysDo r search action fuel a w =
    match DBSize (client r) w with
    | (Err e, w1) => Some ((Some (CountKeysError e), a), w1, [CallDBSize (Err e)])
    | (Ok totalKeys, w1) =>
        after [CallDBSize (Ok totalKeys)]
          (scanLoop r search action fuel totalKeys 0 0 a w1)
    end.
Proof.
  unfold matchingKeysDo, countKeys, bind, call.
  destruct (DBSize (client r) w) as [[totalKeys|e] w1]; [| reflexivity].
  destruct (scanLoop r search action fuel totalKeys 0 0 a w1) as [[[res w2] t]|];
    reflexivity.
Qed.

Lemma hush_after {A} (t : list event) (res : option (A * World * list event)) :
  hush (after t res) = after (filter loud t) (hush res).
Proof.
  destruct res as [[[a w] t']|]; cbn; [now rewrite filter_app | reflexivity].
Qed.

(** The key count reaches the scan loop's progress line and nothing else. *)
Lemma scanLoop_total_irrelevant {A : Type} (search : searchCondition)
    (action : string -> bytes -> A -> M World (option error * A)) (fuel : nat) :
  forall (total1 total2 scanCursor visitingKeys : Z) (a : A) (w : World),
    hush (scanLoop r search action fuel total1 scanCursor visitingKeys a w) =
    hush (scanLoop r search action fuel total2 scanCursor visitingKeys a w).
Proof.
  induction fuel as [|fuel IH]; intros total1 total2 scanCursor visitingKeys a w;
    [reflexivity |].
  rewrite !scanLoop_step.
  destruct (Scan (client r) scanCursor "" 50 w) as [[[keys scanCursor']|e] w1];
    [| reflexivity].
  rewrite !hush_after.
  assert (Hlog : filter loud (CallScan scanCursor (Ok (keys, scanCursor'))
                                :: pageLog r total1 visitingKeys keys scanCursor') =
                 filter loud (CallScan scanCursor (Ok (keys, scanCursor'))
                                :: pageLog r total2 visitingKeys keys scanCursor'))
    by (unfold pageLog; destruct (Debug r), (Progress r); reflexivity).
  rewrite Hlog. f_equal.
  destruct (visitKeys r search action keys a w1) as [[[[[e|] a'] w2] t]|];
    try reflexivity.
  destruct (scanCursor' =? 0); [reflexivity |].
  rewrite !hush_after. f_equal. apply IH.
Qed.

(** *** The keys the initial pass collects *)

Lemma fetchValue_total (key : string) (mode : valueAccessMode) (w : World) :
  exists res w0 t0,
    fetchValue r key mode w = Some (res, w0, t0) /\
    delCalls t0 = [] /\
    flat_map fetched t0 = match res with Ok value => [(key, value)] | Err _ => [] end.
Proof.
  unfold fetchValue, valueAccessMode_Get, bind, call, ret. destruct mode.
  - destruct (Get (client r) key w) as [[value|e] w0]; do 3 eexists; repeat split.
  - destruct (HGetAll (client r) key w) as [[h|e] w0]; do 3 eexists; repeat split.
Qed.

Lemma collects_after (search : searchCondition) (v v1 v2 : purgeVars)
    (t1 t2 : list event) :
  collects search v v1 t1 -> collects search v1 v2 t2 ->
  collects search v v2 (t1 ++ t2).
Proof.
  intros [H1 H1'] [H2 H2']. unfold collects.
  rewrite delCalls_app, matchedKeys_app, map_app, H2, H1, <- H1', <- H2'.
  now rewrite app_assoc.
Qed.

Lemma collects_nothing (search : searchCondition) (v : purgeVars) (t : list event) :
  delCalls t = [] -> flat_map fetched t = [] -> collects search v v t.
Proof.
  intros Hd Hf. unfold collects, matchedKeys. rewrite Hd, Hf. cbn.
  now rewrite app_nil_r.
Qed.

Lemma collects_unmatched (search : searchCondition) (v : purgeVars) (t : list event)
    (key : string) (value : bytes) :
  delCalls t = [] -> flat_map fetched t = [(key, value)] ->
  Matcher search value = false -> collects search v v t.
Proof.
  intros Hd Hf Hm. unfold collects, matchedKeys. rewrite Hd, Hf. cbn.
  now rewrite Hm, app_nil_r.
Qed.

Lemma collects_key (search : searchCondition) (v v1 : purgeVars)
    (t0 ext : list event) (key : string) (value : bytes) (res : option error) :
  delCalls t0 = [] -> flat_map fetched t0 = [(key, value)] ->
  Matcher search value = true ->
  deletedKeys v1 = deletedKeys v ++ [key] ->
  delCalls ext = [(key, res)] -> flat_map fetched ext = [] ->
  collects search v v1 (t0 ++ ext).
Proof.
  intros Hd Hf Hm Hv Hde Hfe. unfold collects, matchedKeys.
  rewrite delCalls_app, flat_map_app, Hd, Hf, Hde, Hfe. cbn.
  now rewrite Hm, Hv.
Qed.

Lemma visitKeys_collects (search : searchCondition) (keys : list string) :
  forall (v v' : purgeVars) (w w' : World) (err : option error) (t : list event),
    visitKeys r search (deleteAction r) keys v w = Some ((err, v'), w', t) ->
    err = None /\ collects search v v' t.
Proof.
  induction keys as [|key rest IH]; intros v v' w w' err t.
  - intros H; injection H as <- <- _ <-. split; [reflexivity |].
    now apply collects_nothing.
  - destruct (fetchValue_total key (AccessMode search) w)
      as (res & w0 & t0 & Hf & Hdel0 & Hfetched0).
    destruct res as [value|e].
    + rewrite (visitKeys_fetched _ _ _ _ _ _ _ _ _ Hf).
      destruct (Matcher search value) eqn:Hm.
      * rewrite deleteAction_run.
        destruct (Del (client r) key w0) as [[e|] w1];
          destruct (visitKeys r search (deleteAction r) rest _ w1)
            as [[[[err1 v1] w2] t2]|] eqn:Hrest; cbn [after]; try discriminate;
          intros H; inversion H; subst; clear H;
          destruct (IH _ _ _ _ _ _ Hrest) as [-> Hc];
          (split; [reflexivity |]).
        -- change (collects search v v'
                     (t0 ++ [PrintDelete key (len value); CallDel key (Some e);
                             LogDeleteFailed key e] ++ t2)).
           rewrite app_assoc. eapply collects_after; [| exact Hc].
           eapply collects_key with (key := key) (value := value);
             try eassumption; reflexivity.
        -- change (collects search v v'
                     (t0 ++ [PrintDelete key (len value); CallDel key None] ++ t2)).
           rewrite app_assoc. eapply collects_after; [| exact Hc].
           eapply collects_key with (key := key) (value := value);
             try eassumption; reflexivity.
      * destruct (visitKeys r search (deleteAction r) rest v w0)
          as [[[[err1 v1] w2] t2]|] eqn:Hrest; cbn [after]; [| discriminate].
        intros H; inversion H; subst; clear H.
        destruct (IH _ _ _ _ _ _ Hrest) as [-> Hc]. split; [reflexivity |].
        eapply collects_after; [| exact Hc].
        now apply collects_unmatched with (key := key) (value := value).
    + rewrite (visitKeys_skipped _ _ _ _ _ _ _ _ _ Hf).
      destruct (visitKeys r search (deleteAction r) rest v w0)
        as [[[[err1 v1] w2] t2]|] eqn:Hrest; cbn [after]; [| discriminate].
      intros H; inversion H; subst; clear H.
      destruct (IH _ _ _ _ _ _ Hrest) as [-> Hc]. split; [reflexivity |].
      eapply collects_after; [| exact Hc].
      apply collects_nothing.
      * now rewrite delCalls_app, Hdel0.
      * now rewrite flat_map_app, Hfetched0.
Qed.

Lemma scanLoop_collects (search : searchCondition) (fuel : nat) :
  forall (totalKeys scanCursor visitingKeys : Z) (v v' : purgeVars) (w w' : World)
         (err : option error) (t : list event),
    scanLoop r search (deleteAction r) fuel totalKeys scanCursor visitingKeys v w
      = Some ((err, v'), w', t) ->
    collects search v v' t.
Proof.
  induction fuel as [|fuel IH]; intros totalKeys scanCursor visitingKeys v v' w w' err t;
    [discriminate |].
  rewrite scanLoop_step.
  destruct (Scan (client r) scanCursor "" 50 w) as [[[keys scanCursor']|e] w1].
  - assert (Hlog : forall u, collects search u u
               (CallScan scanCursor (Ok (keys, scanCursor'))
                  :: pageLog r totalKeys visitingKeys keys scanCursor')).
    { intros u. apply collects_nothing; unfold pageLog;
        destruct (Debug r), (Progress r); reflexivity. }
    destruct (visitKeys r search (deleteAction r) keys v w1)
      as [[[[err1 v1] w2] t1]|] eqn:Hpage; [| discriminate].
    destruct (visitKeys_collects _ _ _ _ _ _ _ _ Hpage) as [-> Hc1].
    destruct (scanCursor' =? 0).
    + cbn [after]. intros H; inversion H; subst; clear H.
      eapply collects_after; [apply Hlog | exact Hc1].
    + destruct (scanLoop r search (deleteAction r) fuel totalKeys scanCursor'
                  (add64 visitingKeys (len keys)) v1 w2)
        as [[[[err2 v2] w3] t2]|] eqn:Hloop; cbn [after]; [| discriminate].
      intros H; inversion H; subst; clear H.
      eapply collects_after; [apply Hlog |].
      eapply collects_after; [exact Hc1 |].
      now apply IH with (1 := Hloop).
  - intros H; inversion H; subst; clear H. now apply collects_nothing.
Qed.

(** The initial pass asks for the value of every key the scan returned,
    in the order the scan returned them. *)
Lemma fetchValue_visits (key : string) (mode : valueAccessMode) (w w0 : World)
    (res : result bytes) (t0 : list event) :
  fetchValue r key mode w = Some (res, w0, t0) ->
  visitedKeys t0 = [key] /\ scannedKeys t0 = [].
Proof.
  unfold fetchValue, valueAccessMode_Get, bind, call, ret. destruct mode.
  - destruct (Get (client r) key w) as [res' w']. intros H; inversion H. now split.
  - destruct (HGetAll (client r) key w) as [[h|e] w']; intros H; inversion H; now split.
Qed.

Lemma visitKeys_visits (search : searchCondition) (keys : list string) :
  forall (v v' : purgeVars) (w w' : World) (err : option error) (t : list event),
    visitKeys r search (deleteAction r) keys v w = Some ((err, v'), w', t) ->
    visitedKeys t = keys /\ scannedKeys t = [].
Proof.
  unfold visitedKeys, scannedKeys.
  induction keys as [|key rest IH]; intros v v' w w' err t.
  - intros H; inversion H. now split.
  - destruct (fetchValue_total key (AccessMode search) w) as (res & w0 & t0 & Hf & _).
    destruct (fetchValue_visits _ _ _ _ _ _ Hf) as [Hv0 Hs0].
    unfold visitedKeys, scannedKeys in Hv0, Hs0.
    destruct res as [value|e].
    + rewrite (visitKeys_fetched _ _ _ _ _ _ _ _ _ Hf).
      destruct (Matcher search value).
      * rewrite deleteAction_run.
        destruct (Del (client r) key w0) as [[e|] w1];
          destruct (visitKeys r search (deleteAction r) rest _ w1)
            as [[[[err1 v1] w2] t2]|] eqn:Hrest; cbn [after]; try discriminate;
          intros H; inversion H; subst; clear H;
          destruct (IH _ _ _ _ _ _ Hrest) as [Hv Hs];
          rewrite !flat_map_app; cbn [flat_map fetchCall scannedPage app];
          rewrite Hv0, Hs0, Hv, Hs; now split.
      * destruct (visitKeys r search (deleteAction r) rest v w0)
          as [[[[err1 v1] w2] t2]|] eqn:Hrest; cbn [after]; [| discriminate].
        intros H; inversion H; subst; clear H.
        destruct (IH _ _ _ _ _ _ Hrest) as [Hv Hs].
        rewrite !flat_map_app, Hv0, Hs0, Hv, Hs. now split.
    + rewrite (visitKeys_skipped _ _ _ _ _ _ _ _ _ Hf).
      destruct (visitKeys r search (deleteAction r) rest v w0)
        as [[[[err1 v1] w2] t2]|] eqn:Hrest; cbn [after]; [| discriminate].
      intros H; inversion H; subst; clear H.
      destruct (IH _ _ _ _ _ _ Hrest) as [Hv Hs].
      rewrite !flat_map_app, Hv0, Hs0, Hv, Hs. now split.
Qed.

Lemma scanLoop_visits (search : searchCondition) (fuel : nat) :
  forall (totalKeys scanCursor visitingKeys : Z) (v v' : purgeVars) (w w' : World)
         (err : option error) (t : list event),
    scanLoop r search (deleteAction r) fuel totalKeys scanCursor visitingKeys v w
      = Some ((err, v'), w', t) ->
    visitedKeys t = scannedKeys t.
Proof.
  induction fuel as [|fuel IH]; intros totalKeys scanCursor visitingKeys v v' w w' err t;
    [discriminate |].
  rewrite scanLoop_step.
  destruct (Scan (client r) scanCursor "" 50 w) as [[[keys scanCursor']|e] w1].
  - assert (Hlog : visitedKeys (pageLog r totalKeys visitingKeys keys scanCursor') = [] /\
                   scannedKeys (pageLog r totalKeys visitingKeys keys scanCursor') = [])
      by (unfold pageLog; destruct (Debug r), (Progress r); now split).
    destruct Hlog as [Hlv Hls].
    destruct (visitKeys r search (deleteAction r) keys v w1)
      as [[[[err1 v1] w2] t1]|] eqn:Hpage; [| discriminate].
    destruct (visitKeys_visits _ _ _ _ _ _ _ _ Hpage) as [Hv1 Hs1].
    destruct (visitKeys_collects _ _ _ _ _ _ _ _ Hpage) as [-> _].
    unfold visitedKeys, scannedKeys in *.
    destruct (scanCursor' =? 0).
    + cbn [after]. intros H; injection H as _ _ _ <-.
      cbn [app flat_map fetchCall scannedPage].
      rewrite !flat_map_app, Hlv, Hls, Hv1, Hs1. cbn. now rewrite app_nil_r.
    + destruct (scanLoop r search (deleteAction r) fuel totalKeys scanCursor'
                  (add64 visitingKeys (len keys)) v1 w2)
        as [[[[err2 v2] w3] t2]|] eqn:Hloop; cbn [after]; [| discriminate].
      intros H; injection H as _ _ _ <-.
      pose proof (IH _ _ _ _ _ _ _ _ _ Hloop) as Hrec.
      unfold visitedKeys, scannedKeys in Hrec.
      cbn [app flat_map fetchCall scannedPage].
      rewrite !flat_map_app, Hlv, Hls, Hv1, Hs1, Hrec. reflexivity.
  - intros H; injection H as _ _ _ <-. reflexivity.
Qed.

(** C2, amended: the keys [deleteMatchingKeys] hands to [repeatDeleteKeys]
    are the keys the initial pass called delete on, in the order of the
    calls and whatever the calls returned; they are the keys whose fetched
    value matched, and the values were fetched in the order the scan
    returned the keys. *)
Theorem reconciliation_input (getenv : environ) (fuel : nat)
    (search : searchCondition) (w w1 : World) (err : option error)
    (v : purgeVars) (t1 : list event) :
  purgePass r fuel search w = Some ((err, v), w1, t1) ->
  deletedKeys v = map fst (delCalls t1) /\
  deletedKeys v = matchedKeys search t1 /\
  visitedKeys t1 = scannedKeys t1 /\
  (err = None ->
   deleteMatchingKeys r getenv fuel search true w =
     match repeatDeleteKeys r getenv fuel (map fst (delCalls t1)) w1 with
     | None => None
     | Some (err', w2, t2) =>
         Some (err', w2, LogDeleting search :: t1 ++ t2 ++ [deletedSummary search v])
     end).
Proof.
  intros Hpass.
  assert (Hc : collects search purgeVars0 v t1 /\ visitedKeys t1 = scannedKeys t1).
  { revert Hpass. unfold purgePass. rewrite matchingKeysDo_run.
    destruct (DBSize (client r) w) as [[totalKeys|e] w0].
    - destruct (scanLoop r search (deleteAction r) fuel totalKeys 0 0 purgeVars0 w0)
        as [[[[err2 v2] w3] t2]|] eqn:Hloop; cbn [after]; [| discriminate].
      intros H; inversion H; subst; clear H. split.
      + change (collects search purgeVars0 v ([CallDBSize (Ok totalKeys)] ++ t2)).
        apply collects_after with (v1 := purgeVars0);
          [now apply collects_nothing | now apply scanLoop_collects with (1 := Hloop)].
      + apply scanLoop_visits with (1 := Hloop).
    - intros H; inversion H; subst; clear H.
      split; [now apply collects_nothing | reflexivity]. }
  destruct Hc as [[Hk Hm] Hv]. cbn in Hk.
  split; [exact Hk | split; [congruence | split; [exact Hv |]]].
  intros ->. now rewrite deleteMatchingKeys_run, Hpass, Hk.
Qed.

(** *** Convergence of the reconciliation loop *)

Section Quiet.

(** [quiet] holds of the states of the world in which no key of [keys]
    is, or comes back, in the store: every existence check on one of them
    succeeds and reports it absent. *)
Variable quiet : World -> Prop.
Variable keys : list string.

Hypothesis quiet_exists :
  forall (k : string) (w : World),
    In k keys -> quiet w ->
    exists n w', Exists (client r) k w = (Ok n, w') /\ n <= 0 /\ quiet w'.

Lemma deleteKeysFrom_quiet (ks : list string) :
  incl ks keys ->
  forall (found : bool) (w : World),
    quiet w ->
    exists w' t,
      deleteKeysFrom r ks found w = Some ((found, None), w', t) /\ quiet w' /\
      map fst (existsCalls t) = ks /\ Forall absent (existsCalls t) /\
      delCalls t = [] /\ passes t = 0.
Proof.
  induction ks as [|k ks IH]; intros Hin found w Hw.
  - exists w, []. repeat split; trivial; constructor.
  - rewrite deleteKeysFrom_cons.
    destruct (quiet_exists k w (Hin k (or_introl eq_refl)) Hw) as (n & w1 & -> & Hn & Hw1).
    destruct (Z.gtb_spec n 0) as [|_]; [lia |].
    destruct (IH (fun x Hx => Hin x (or_intror Hx)) found w1 Hw1)
      as (w' & t & -> & Hw' & Hks & Habs & Hdel & Hp).
    exists w', (checkTrace k n ++ t). unfold checkTrace.
    destruct (Z.gtb_spec n 0) as [|_]; [lia |]. cbn.
    repeat split; trivial.
    + f_equal. exact Hks.
    + constructor; [now exists n | exact Habs].
Qed.

Lemma repeatLoop_quiet (minClean wait : Z) :
  minClean <= max_int ->
  forall (k fuel : nat) (c p : Z) (w : World),
    quiet w -> 0 <= c -> 0 <= p ->
    c + Z.of_nat k = minClean -> p + Z.of_nat k <= max_int -> (k <= fuel)%nat ->
    exists w' t,
      repeatLoop r fuel minClean wait keys c p w
        = Some ((None, minClean, p + Z.of_nat k), w', t) /\
      quiet w' /\ passes t = Z.of_nat k /\
      map fst (existsCalls t) = concat (repeat keys k) /\
      Forall absent (existsCalls t) /\ delCalls t = [].
Proof.
  intros Hmax. induction k as [|k IH]; intros fuel c p w Hw Hc Hp Hck Hpk Hfuel.
  - exists w, []. rewrite repeatLoop_done by lia.
    replace (p + Z.of_nat 0) with p by lia. replace minClean with c by lia.
    repeat split; trivial; constructor.
  - destruct fuel as [|fuel]; [lia |].
    rewrite repeatLoop_step by lia. unfold deleteKeys.
    destruct (deleteKeysFrom_quiet keys (incl_refl keys) false w Hw)
      as (w1 & t1 & -> & Hw1 & Hks & Habs & Hdel & Hp1).
    assert (Hc1 : add64 c 1 = c + 1)
      by (apply add64_small; unfold in_int, min_int, max_int in *; lia).
    assert (Hp1' : add64 p 1 = p + 1)
      by (apply add64_small; unfold in_int, min_int, max_int in *; lia).
    rewrite Hc1, Hp1'.
    destruct (IH fuel (c + 1) (p + 1) w1 Hw1) as (w' & t & -> & Hw' & Hps & Hks' & Habs' & Hdel');
      try lia.
    exists w', (passHeader minClean wait keys c p ++ t1 ++ t).
    cbn [after].
    replace (p + 1 + Z.of_nat k) with (p + Z.of_nat (S k)) by lia.
    repeat split; trivial.
    + rewrite !passes_app, Hp1, Hps.
      change (passes (passHeader minClean wait keys c p)) with 1. lia.
    + rewrite !existsCalls_app.
      change (existsCalls (passHeader minClean wait keys c p))
        with (@nil (string * result Z)).
      cbn [app]. rewrite map_app, Hks, Hks'. reflexivity.
    + rewrite !existsCalls_app.
      change (existsCalls (passHeader minClean wait keys c p))
        with (@nil (string * result Z)).
      cbn [app]. apply Forall_app. now split.
    + rewrite !delCalls_app, Hdel, Hdel'. reflexivity.
Qed.

(** C1: with [CLEAN_DELETE_MIN] not negative and no key of [keys] coming
    back (every existence check reports it absent), [repeatDeleteKeys]
    returns [nil] after exactly [minCleanDeletePasses] passes, given that
    much fuel; the loop leaves [cleanDeletePass] (and [deletePass]) equal to
    [minCleanDeletePasses]; each pass has checked every key, none was
    reported present and nothing was deleted. *)
Theorem repeatDeleteKeys_converges (getenv : environ) (w : World) (fuel : nat) :
  let minClean := envInt getenv "CLEAN_DELETE_MIN" 500 in
  let wait := envInt getenv "CLEAN_DELETE_WAIT_MS" 150 in
  0 <= minClean -> quiet w -> (Z.to_nat minClean <= fuel)%nat ->
  exists w' t,
    repeatDeleteKeys r getenv fuel keys w = Some (None, w', t) /\
    repeatLoop r fuel minClean wait keys 0 0 w = Some ((None, minClean, minClean), w', t) /\
    quiet w' /\ passes t = minClean /\
    map fst (existsCalls t) = concat (repeat keys (Z.to_nat minClean)) /\
    Forall absent (existsCalls t) /\ delCalls t = [].
Proof.
  intros minClean wait Hmin Hw Hfuel.
  assert (in_int minClean) as [_ Hmax]
    by (apply envInt_in_int; unfold in_int, min_int, max_int; lia).
  destruct (repeatLoop_quiet minClean wait Hmax (Z.to_nat minClean) fuel 0 0 w)
    as (w' & t & Hrun & Hw' & Hp & Hks & Habs & Hdel); trivial; try lia.
  rewrite Z2Nat.id in Hrun, Hp by lia. cbn [Z.add] in Hrun.
  exists w', t. repeat split; trivial.
  unfold repeatDeleteKeys. fold minClean wait.
  rewrite bind_run, Hrun. cbn. now rewrite app_nil_r.
Qed.

End Quiet.

End Runs.

(** ** The key count *)

Section KeyCount.

Context {World : Type}.
Variable r : redisSearch World.

(** The scan loop never calls [DBSize]. *)
Lemma matchingKeysDo_withDBSize {A : Type} (f : World -> result Z * World)
    (search : searchCondition)
    (action : string -> bytes -> A -> M World (option error * A))
    (fuel : nat) (a : A) (w w1 : World) (n : Z) :
  f w = (Ok n, w1) ->
  matchingKeysDo (withDBSize r f) search action fuel a w =
    after [CallDBSize (Ok n)] (scanLoop r search action fuel n 0 0 a w1).
Proof.
  intros Hf. rewrite matchingKeysDo_run. cbn [withDBSize client DBSize].
  rewrite Hf. reflexivity.
Qed.

Lemma matchingKeysDo_count_irrelevant {A : Type} (f1 f2 : World -> result Z * World)
    (search : searchCondition)
    (action : string -> bytes -> A -> M World (option error * A))
    (fuel : nat) (a : A) (w w1 : World) (n1 n2 : Z) :
  f1 w = (Ok n1, w1) -> f2 w = (Ok n2, w1) ->
  hush (matchingKeysDo (withDBSize r f1) search action fuel a w) =
  hush (matchingKeysDo (withDBSize r f2) search action fuel a w).
Proof.
  intros H1 H2.
  rewrite (matchingKeysDo_withDBSize f1 _ _ _ _ _ _ _ H1).
  rewrite (matchingKeysDo_withDBSize f2 _ _ _ _ _ _ _ H2).
  rewrite !hush_after. cbn [filter loud isCountReport negb]. f_equal.
  apply scanLoop_total_irrelevant.
Qed.

(** C7, amended: a failing key-count call is fatal, the run returns
    "couldn't count keys" with nothing scanned, fetched or deleted; when the
    call succeeds the count it returns reaches the progress line only: two
    runs that differ in the count alone agree on the result, the final state
    of the store and every event but the count and the progress lines. *)
Theorem key_count_only_reported :
  (forall (getenv : environ) (fuel : nat) (search : searchCondition)
          (repeatDeletes : bool) (w w1 : World) (e : error),
      DBSize (client r) w = (Err e, w1) ->
      deleteMatchingKeys r getenv fuel search repeatDeletes w =
        Some (Some (CountKeysError e), w1,
              [LogDeleting search; CallDBSize (Err e);
               deletedSummary search purgeVars0]) /\
      listMatchingKeys r fuel search w =
        Some (Some (CountKeysError e), w1,
              [LogListing search; CallDBSize (Err e);
               LogFound 0 0 0%float search])) /\
  (forall (f1 f2 : World -> result Z * World) (getenv : environ) (fuel : nat)
          (search : searchCondition) (repeatDeletes : bool) (w w1 : World)
          (n1 n2 : Z),
      f1 w = (Ok n1, w1) -> f2 w = (Ok n2, w1) ->
      hush (deleteMatchingKeys (withDBSize r f1) getenv fuel search repeatDeletes w) =
      hush (deleteMatchingKeys (withDBSize r f2) getenv fuel search repeatDeletes w) /\
      hush (listMatchingKeys (withDBSize r f1) fuel search w) =
      hush (listMatchingKeys (withDBSize r f2) fuel search w)).
Proof.
  split.
  - intros getenv fuel search repeatDeletes w w1 e He. split.
    + rewrite deleteMatchingKeys_run. unfold purgePass.
      rewrite matchingKeysDo_run, He. reflexivity.
    + unfold listMatchingKeys. rewrite bind_emit, bind_run, matchingKeysDo_run, He.
      reflexivity.
  - intros f1 f2 getenv fuel search repeatDeletes w w1 n1 n2 H1 H2. split.
    + rewrite !deleteMatchingKeys_run. unfold purgePass.
      change (deleteAction (withDBSize r f1)) with (deleteAction r).
      change (deleteAction (withDBSize r f2)) with (deleteAction r).
      pose proof (matchingKeysDo_count_irrelevant f1 f2 search (deleteAction r)
                    fuel purgeVars0 w w1 n1 n2 H1 H2) as Hh.
      destruct (matchingKeysDo (withDBSize r f1) search (deleteAction r) fuel
                  purgeVars0 w) as [[[[err1 v1] w2] t1]|];
        destruct (matchingKeysDo (withDBSize r f2) search (deleteAction r) fuel
                    purgeVars0 w) as [[[[err2 v2] w2'] t2]|];
        cbn in Hh; try discriminate; [| reflexivity].
      injection Hh as <- <- <- Ht.
      change (repeatDeleteKeys (withDBSize r f2)) with (repeatDeleteKeys (withDBSize r f1)).
      destruct err1 as [e|]; [| destruct repeatDeletes;
        [destruct (repeatDeleteKeys (withDBSize r f1) getenv fuel (deletedKeys v1) w2)
           as [[[err w3] t3]|]; [| reflexivity] |]];
        cbn [hush filter loud isCountReport negb]; rewrite !filter_app, Ht; reflexivity.
    + unfold listMatchingKeys. rewrite !bind_emit, !bind_run.
      pose proof (matchingKeysDo_count_irrelevant f1 f2 search listAction
                    fuel {| matchingKeyCount := 0; matchingValuesTotalSize := 0 |}
                    w w1 n1 n2 H1 H2) as Hh.
      destruct (matchingKeysDo (withDBSize r f1) search listAction fuel _ w)
        as [[[[err1 v1] w2] t1]|];
        destruct (matchingKeysDo (withDBSize r f2) search listAction fuel _ w)
          as [[[[err2 v2] w2'] t2]|];
        cbn in Hh; try discriminate; [| reflexivity].
      injection Hh as <- <- <- Ht.
      cbn. rewrite !filter_app, Ht. reflexivity.
Qed.

End KeyCount.

(** ** Summary statistics *)

(** C10: [average] returns 0.0 for a zero count and [percentage] returns 0.0
    for a zero total; a division is evaluated only with a non-zero integer
    divisor; so the summary of a run that deleted nothing reports the
    average 0.0. *)
Theorem stats_total :
  (forall sum : Z, average sum 0 = 0%float) /\
  (forall num : Z, percentage num 0 = 0%float) /\
  (forall sum n : Z,
      average sum n = 0%float \/
      (n <> 0 /\ average sum n = (float64 sum / float64 n)%float)) /\
  (forall num den : Z,
      percentage num den = 0%float \/
      (den <> 0 /\ percentage num den = (float64 num * 100 / float64 den)%float)) /\
  (forall (search : searchCondition) (total failed : Z) (keys : list string),
      deletedSummary search
        {| deletedKeyCount := 0; deletedValuesTotalSize := total;
           failedDeleteCount := failed; deletedKeys := keys |}
      = LogDeleted 0 total 0%float search failed).
Proof.
  repeat split; try reflexivity.
  - intros sum n. unfold average. destruct (Z.eqb_spec n 0); [now left | now right].
  - intros num den. unfold percentage.
    destruct (Z.eqb_spec den 0); [now left | now right].
Qed.

(** ** Runs on the scripted store *)

(** C5 as stated fails on a pass that an error ends: with the existence
    check of ["a"] failing, the pass over ["a"; "b"] never checks ["b"], and
    although no key was found present the counter of clean passes is not
    incremented: the loop returns the error. *)
Lemma aborted_pass_skips_keys :
  let run := repeatLoop memSearch 1 2 150 ["a"; "b"]%string 0 0
               (broken store [] [] ["a"]%string false) in
  valueOf run = Some (Some (ExistCheckError "a" ioError), 0, 1) /\
  passes (eventsOf run) = 1 /\
  existsCalls (eventsOf run) = [("a"%string, Err ioError)] /\
  ~ In "b"%string (map fst (existsCalls (eventsOf run))).
Proof.
  repeat split. cbn. intros [H | []]. discriminate H.
Qed.

Lemma repeatDeleteKeys_converges_witness :
  let getenv := cleanMin "3" in
  let keys := ["a"; "c"]%string in
  0 <= envInt getenv "CLEAN_DELETE_MIN" 500 /\
  (Z.to_nat (envInt getenv "CLEAN_DELETE_MIN" 500) <= 5)%nat /\
  exists w' t,
    repeatDeleteKeys memSearch getenv 5 keys purged = Some (None, w', t) /\
    repeatLoop memSearch 5 (envInt getenv "CLEAN_DELETE_MIN" 500)
      (envInt getenv "CLEAN_DELETE_WAIT_MS" 150) keys 0 0 purged
      = Some ((None, envInt getenv "CLEAN_DELETE_MIN" 500,
               envInt getenv "CLEAN_DELETE_MIN" 500), w', t) /\
    w' = purged /\ passes t = envInt getenv "CLEAN_DELETE_MIN" 500 /\
    map fst (existsCalls t) =
      concat (repeat keys (Z.to_nat (envInt getenv "CLEAN_DELETE_MIN" 500))) /\
    Forall absent (existsCalls t) /\ delCalls t = [].
Proof.
  intros getenv keys.
  assert (Hmin : 0 <= envInt getenv "CLEAN_DELETE_MIN" 500) by (vm_compute; discriminate).
  assert (Hfuel : (Z.to_nat (envInt getenv "CLEAN_DELETE_MIN" 500) <= 5)%nat)
    by (vm_compute; lia).
  split; [exact Hmin | split; [exact Hfuel |]].
  refine (repeatDeleteKeys_converges memSearch (fun w => w = purged) keys _
            getenv purged 5 Hmin eq_refl Hfuel).
  intros k w [<- | [<- | []]] ->; exists 0, purged; repeat split; lia.
Defined.

(** C2 as stated fails: the delete of ["a"] fails in the initial pass, only
    ["c"] is deleted, and the keys handed to the reconciliation loop are
    ["a"] and ["c"]: the loop checks ["a"], finds it, and deletes it again. *)
Lemma failed_delete_is_reconciled :
  let w := broken store [] ["a"]%string [] false in
  let pass := purgePass memSearch 5 (exactNull 0) w in
  let run := deleteMatchingKeys memSearch (cleanMin "1") 5 (exactNull 0) true w in
  matchedKeys (exactNull 0) (eventsOf pass) = ["a"; "c"]%string /\
  delCalls (eventsOf pass) = [("a", Some ioError); ("c", None)]%string /\
  deletedOk (eventsOf pass) = ["c"]%string /\
  option_map (fun res => deletedKeys (snd res)) (valueOf pass)
    = Some ["a"; "c"]%string /\
  existsCalls (eventsOf run) = [("a"%string, Ok 1)] /\
  option_map (fun res => deletedKeys (snd res)) (valueOf pass)
    <> Some (deletedOk (eventsOf pass)).
Proof.
  repeat split. discriminate.
Qed.

Lemma reconciliation_input_witness :
  let w := broken store [] ["a"]%string [] false in
  exists v w1 t1,
    purgePass memSearch 5 (exactNull 0) w = Some ((None, v), w1, t1) /\
    deletedKeys v = map fst (delCalls t1) /\
    deletedKeys v = matchedKeys (exactNull 0) t1 /\
    visitedKeys t1 = scannedKeys t1 /\
    deletedKeys v = ["a"; "c"]%string /\
    deleteMatchingKeys memSearch (cleanMin "1") 5 (exactNull 0) true w =
      match repeatDeleteKeys memSearch (cleanMin "1") 5 (map fst (delCalls t1)) w1 with
      | None => None
      | Some (err', w2, t2) =>
          Some (err', w2,
                LogDeleting (exactNull 0) :: t1 ++ t2 ++ [deletedSummary (exactNull 0) v])
      end.
Proof.
  intros w. do 3 eexists.
  split; [reflexivity |].
  destruct (reconciliation_input memSearch (cleanMin "1") 5 (exactNull 0) w _ _ _ _ eq_refl)
    as (Hdel & Hmatched & Hvisited & Hrun).
  split; [exact Hdel | split; [exact Hmatched | split; [exact Hvisited |]]].
  split; [reflexivity |].
  exact (Hrun eq_refl).
Defined.

(** C7 as stated fails: on the same store, the run in which the key-count
    call succeeds deletes ["a"] and ["c"] and returns [nil]; the run in which
    it fails returns the error and deletes nothing. *)
Lemma failed_key_count_aborts_run :
  let ok := deleteMatchingKeys memSearch noenv 5 (exactNull 0) false store in
  let failed := deleteMatchingKeys memSearch noenv 5 (exactNull 0) false
                  (broken store [] [] [] true) in
  valueOf ok = Some None /\
  deletedOk (eventsOf ok) = ["a"; "c"]%string /\
  valueOf failed = Some (Some (CountKeysError ioError)) /\
  deletedOk (eventsOf failed) = [] /\
  matchedKeys (exactNull 0) (eventsOf failed) = [] /\
  valueOf ok <> valueOf failed.
Proof.
  repeat split. discriminate.
Qed.

Lemma key_count_only_reported_witness :
  let progress := {| client := memClient; Debug := false; Progress := true |} in
  let failing := broken store [] [] [] true in
  let count3 := fun w : mem => (Ok 3, w) in
  let count9 := fun w : mem => (Ok 9, w) in
  (DBSize memClient failing = (Err ioError, failing) /\
   deleteMatchingKeys progress (cleanMin "2") 5 (exactNull 0) true failing =
     Some (Some (CountKeysError ioError), failing,
           [LogDeleting (exactNull 0); CallDBSize (Err ioError);
            deletedSummary (exactNull 0) purgeVars0])) /\
  (count3 store = (Ok 3, store) /\ count9 store = (Ok 9, store) /\
   hush (deleteMatchingKeys (withDBSize progress count3) (cleanMin "2") 5 (exactNull 0) true store) =
   hush (deleteMatchingKeys (withDBSize progress count9) (cleanMin "2") 5 (exactNull 0) true store) /\
   eventsOf (deleteMatchingKeys (withDBSize progress count3) (cleanMin "2") 5 (exactNull 0) false store) <>
   eventsOf (deleteMatchingKeys (withDBSize progress count9) (cleanMin "2") 5 (exactNull 0) false store)).
Proof.
  intros progress failing count3 count9.
  destruct (key_count_only_reported progress) as (Hfail & Hcount).
  split.
  - split; [reflexivity |].
    apply (Hfail (cleanMin "2") 5%nat (exactNull 0) true failing failing ioError eq_refl).
  - split; [reflexivity | split; [reflexivity | split]].
    + apply (Hcount count3 count9 (cleanMin "2") 5%nat (exactNull 0) true store store 3 9
               eq_refl eq_refl).
    + vm_compute. discriminate.
Defined.

(** * Further properties *)

(** ** What the matcher selects *)

Lemma occ_extend (p v x : bytes) (n : nat) :
  disjointOccurrences p n v -> disjointOccurrences p n (v ++ x).
Proof.
  intros H; induction H as [v | n a v H IH].
  - constructor.
  - rewrite <- !app_assoc. now constructor.
Qed.

Lemma occ_fewer (p v : bytes) (n m : nat) :
  (m <= n)%nat -> disjointOccurrences p n v -> disjointOccurrences p m v.
Proof.
  intros Hmn H; revert m Hmn; induction H as [v | n a v H IH]; intros m Hmn.
  - replace m with 0%nat by lia. constructor.
  - destruct m as [|m]; [constructor |]. constructor. apply IH. lia.
Qed.

Lemma occ_length (p v : bytes) (n : nat) :
  disjointOccurrences p n v -> (n * length p <= length v)%nat.
Proof.
  intros H; induction H as [v | n a v H IH]; [cbn; lia |].
  rewrite !length_app. cbn. lia.
Qed.

Lemma Count_self (p : bytes) : p <> [] -> 1 <= Count p p.
Proof.
  intros Hp. apply (Count_spec p p 1 Hp).
  replace p with ([] ++ p ++ []) at 2 by (cbn; apply app_nil_r).
  repeat constructor.
Qed.

(** In count mode an accepted value is long enough and holds the count. *)
Lemma Matcher_counted (s : searchCondition) (v : bytes) :
  Search s <> EmptyString -> 0 < Occurrences s ->
  Matcher s v = true ->
  SizeThreshold s <= len v /\ Occurrences s <= Count v (bs (Search s)).
Proof.
  intros Hp Hn. rewrite Matcher_unfold.
  destruct (Z.ltb_spec (len v) (SizeThreshold s)) as [|Ht]; [discriminate |].
  destruct (Z.eqb_spec (len (bs (Search s))) 0) as [Hz|_].
  - apply len_zero, bs_nil in Hz. contradiction.
  - destruct (Z.leb_spec (Occurrences s) 0) as [|_]; [lia |].
    rewrite Z.geb_leb. intros H. apply Z.leb_le in H. now split.
Qed.

(** X1: a stricter condition selects fewer values: with the same pattern,
    a value accepted under a size threshold and a required count is accepted
    under any lower threshold and any lower positive count (or the same
    count setting). *)
Theorem Matcher_narrows (s s' : searchCondition) (v : bytes) :
  Search s' = Search s ->
  SizeThreshold s <= SizeThreshold s' ->
  Occurrences s = Occurrences s' \/ 0 < Occurrences s <= Occurrences s' ->
  Matcher s' v = true -> Matcher s v = true.
Proof.
  intros Hp Ht Ho. rewrite !Matcher_unfold, Hp.
  destruct (Z.ltb_spec (len v) (SizeThreshold s')) as [|Ht']; [discriminate |].
  destruct (Z.ltb_spec (len v) (SizeThreshold s)) as [|_]; [lia |].
  destruct (len (bs (Search s)) =? 0); [reflexivity |].
  destruct Ho as [-> | Ho]; [trivial |].
  destruct (Z.leb_spec (Occurrences s') 0) as [|_]; [lia |].
  destruct (Z.leb_spec (Occurrences s) 0) as [|_]; [lia |].
  rewrite !Z.geb_leb. intros H. apply Z.leb_le in H. apply Z.leb_le. lia.
Qed.

Lemma Matcher_narrows_witness :
  Matcher (atLeast 4 "ab" 3) (bs "ababab") = true /\
  Matcher (atLeast 0 "ab" 2) (bs "ababab") = true.
Proof.
  split; [reflexivity |].
  apply (Matcher_narrows (atLeast 0 "ab" 2) (atLeast 4 "ab" 3) (bs "ababab"));
    [reflexivity | cbn; lia | right; cbn; lia | reflexivity].
Defined.

(** X2: every value accepted in exact-match mode ([Occurrences <= 0]) is
    accepted with [REQUIRED_MATCH_COUNT=1] and the other settings the same:
    the substring mode selects at least the exact matches. *)
Theorem exact_match_counts_once (s s' : searchCondition) (v : bytes) :
  Search s' = Search s -> SizeThreshold s' = SizeThreshold s ->
  Occurrences s <= 0 -> Occurrences s' = 1 ->
  Matcher s v = true -> Matcher s' v = true.
Proof.
  intros Hp Ht Ho Ho'. rewrite !Matcher_unfold, Hp, Ht, Ho'.
  destruct (len v <? SizeThreshold s); [discriminate |].
  destruct (Z.eqb_spec (len (bs (Search s))) 0) as [|Hnz]; [reflexivity |].
  destruct (Z.leb_spec (Occurrences s) 0) as [_|]; [| lia].
  cbn [Z.leb]. intros H. apply Equal_spec in H. subst v.
  rewrite Z.geb_leb. apply Z.leb_le, Count_self.
  intros E. apply Hnz. now rewrite E.
Qed.

Lemma exact_match_counts_once_witness :
  Matcher (exactNull 0) (bs "null") = true /\
  Matcher (atLeast 0 "null" 1) (bs "null") = true.
Proof.
  split; [reflexivity |].
  apply (exact_match_counts_once (exactNull 0) (atLeast 0 "null" 1) (bs "null"));
    (reflexivity || (cbn; lia)).
Defined.

(** X3: occurrences are counted without overlap, so a value accepted with a
    non-empty pattern and a required count [n > 0] is at least [n] times as
    long as the pattern. *)
Theorem Matcher_needs_room (s : searchCondition) (v : bytes) :
  Search s <> EmptyString -> 0 < Occurrences s ->
  Matcher s v = true ->
  Occurrences s * len (bs (Search s)) <= len v.
Proof.
  intros Hp Hn Hm.
  destruct (Matcher_counted s v Hp Hn Hm) as [_ Hc].
  assert (Hnil : bs (Search s) <> []) by (intros E; apply Hp; now apply bs_nil).
  rewrite <- (Z2Nat.id (Occurrences s)) in Hc by lia.
  apply (Count_spec v _ _ Hnil), occ_length in Hc.
  unfold len. rewrite <- (Z2Nat.id (Occurrences s)) at 1 by lia. lia.
Qed.

Lemma Matcher_needs_room_witness :
  Occurrences (atLeast 0 "ab" 3) * len (bs "ab") <= len (bs "ababab").
Proof.
  apply (Matcher_needs_room (atLeast 0 "ab" 3) (bs "ababab"));
    [discriminate | reflexivity | reflexivity].
Defined.

(** ** Hashes read as bytes *)

Lemma Matcher_count_accepts (s : searchCondition) (v : bytes) :
  Search s <> EmptyString -> 0 < Occurrences s ->
  SizeThreshold s <= len v -> Occurrences s <= Count v (bs (Search s)) ->
  Matcher s v = true.
Proof.
  intros Hp Hn Ht Hc. rewrite Matcher_unfold.
  destruct (Z.ltb_spec (len v) (SizeThreshold s)) as [|_]; [lia |].
  destruct (Z.eqb_spec (len (bs (Search s))) 0) as [|_]; [reflexivity |].
  destruct (Z.leb_spec (Occurrences s) 0) as [|_]; [lia |].
  rewrite Z.geb_leb. now apply Z.leb_le.
Qed.

Lemma hashAsBytes_field (h : list (string * string)) (f x : string) :
  In (f, x) h ->
  exists before rest, hashAsBytes h = before ++ (bs f ++ bs x) ++ rest.
Proof.
  intros Hin. apply in_split in Hin as (h1 & h2 & ->).
  exists (hashAsBytes h1), (hashAsBytes h2).
  unfold hashAsBytes. rewrite flat_map_app. reflexivity.
Qed.

(** X4: in hash mode the value of a key is the concatenation of the
    names and values of the fields [HGETALL] returned, and the key is
    selected (the closure is called on it, with that value) as soon as one
    field name or one field value alone holds the required number of
    occurrences (and the whole is long enough), wherever the field comes in
    the iteration over the map. *)
Theorem hash_field_suffices {World A : Type} (r : redisSearch World)
    (s : searchCondition) (action : string -> bytes -> A -> M World (option error * A))
    (key : string) (rest : list string) (a : A) (w w1 : World)
    (h : list (string * string)) (f x : string) :
  AccessMode s = valueAccessHash ->
  HGetAll (client r) key w = (Ok h, w1) ->
  In (f, x) h ->
  Search s <> EmptyString -> 0 < Occurrences s ->
  SizeThreshold s <= len (hashAsBytes h) ->
  Occurrences s <= Count (bs f) (bs (Search s)) \/
  Occurrences s <= Count (bs x) (bs (Search s)) ->
  fetchValue r key (AccessMode s) w
    = Some (Ok (hashAsBytes h), w1, [CallHGetAll key (Ok h)]) /\
  Matcher s (hashAsBytes h) = true /\
  visitKeys r s action (key :: rest) a w =
    after [CallHGetAll key (Ok h)]
      match action key (hashAsBytes h) a w1 with
      | None => None
      | Some ((Some e, a'), w2, t1) => Some ((Some e, a'), w2, t1)
      | Some ((None, a'), w2, t1) => after t1 (visitKeys r s action rest a' w2)
      end.
Proof.
  intros Hmode Hget Hin Hp Hn Ht Hc.
  assert (Hfetch : fetchValue r key (AccessMode s) w
                   = Some (Ok (hashAsBytes h), w1, [CallHGetAll key (Ok h)])).
  { rewrite Hmode. unfold fetchValue, valueAccessMode_Get, bind, call, ret.
    now rewrite Hget. }
  assert (Hmatch : Matcher s (hashAsBytes h) = true).
  { assert (Hnil : bs (Search s) <> []) by (intros E; apply Hp; now apply bs_nil).
    apply Matcher_count_accepts; trivial.
    destruct (hashAsBytes_field h f x Hin) as (before & rest' & ->).
    rewrite <- (Z2Nat.id (Occurrences s)) in Hc |- * by lia.
    apply (Count_spec _ _ _ Hnil).
    apply occ_weaken, occ_extend.
    destruct Hc as [Hc | Hc]; apply (Count_spec _ _ _ Hnil) in Hc.
    - now apply occ_extend.
    - now apply occ_weaken. }
  split; [exact Hfetch | split; [exact Hmatch |]].
  now rewrite (visitKeys_fetched r _ _ _ _ _ _ _ _ _ Hfetch), Hmatch.
Qed.

(** The field [body] alone holds the pattern twice: the key is deleted. *)
Lemma hash_field_suffices_witness :
  let s := hashAtLeast "ab" 2 in
  let h := [("id", "7"); ("body", "xababx"); ("n", "1")]%string in
  HGetAll hashClient "h" tt = (Ok h, tt) /\
  fetchValue hashes "h" (AccessMode s) tt
    = Some (Ok (hashAsBytes h), tt, [CallHGetAll "h" (Ok h)]) /\
  Matcher s (hashAsBytes h) = true /\
  visitKeys hashes s (deleteAction hashes) ["h"]%string purgeVars0 tt =
    after [CallHGetAll "h" (Ok h)]
      match deleteAction hashes "h" (hashAsBytes h) purgeVars0 tt with
      | None => None
      | Some ((Some e, a'), w2, t1) => Some ((Some e, a'), w2, t1)
      | Some ((None, a'), w2, t1) =>
          after t1 (visitKeys hashes s (deleteAction hashes) [] a' w2)
      end /\
  delCalls (eventsOf (purgePass hashes 5 s tt)) = [("h"%string, None)].
Proof.
  intros s h.
  assert (Hin : In ("body", "xababx")%string h) by (cbn; tauto).
  assert (Hp : Search s <> EmptyString) by discriminate.
  assert (Hn : 0 < Occurrences s) by reflexivity.
  assert (Ht : SizeThreshold s <= len (hashAsBytes h)) by (vm_compute; discriminate).
  assert (Hc : Occurrences s <= Count (bs "body") (bs (Search s)) \/
               Occurrences s <= Count (bs "xababx") (bs (Search s)))
    by (right; vm_compute; discriminate).
  destruct (hash_field_suffices hashes s (deleteAction hashes) "h" [] purgeVars0 tt tt
              h "body" "xababx" eq_refl eq_refl Hin Hp Hn Ht Hc)
    as (Hfetch & Hmatch & Hvisit).
  split; [reflexivity | split; [exact Hfetch | split; [exact Hmatch | split]]].
  - exact Hvisit.
  - reflexivity.
Defined.

Lemma occ_single (c : byte) (v : bytes) (n : nat) :
  disjointOccurrences [c] n v <-> (n <= count_occ byte_eq_dec v c)%nat.
Proof.
  split.
  - intros H. remember [c] as p eqn:Ep.
    induction H as [v | n a v H IH]; [lia |]. subst p.
    rewrite !count_occ_app. cbn.
    destruct (byte_eq_dec c c); [| congruence]. lia.
  - revert n; induction v as [|y v IH]; intros n Hn; cbn in Hn.
    + replace n with 0%nat by lia. constructor.
    + destruct (byte_eq_dec y c) as [-> | Hne].
      * destruct n as [|n]; [constructor |].
        change (c :: v) with ([] ++ [c] ++ v). constructor. apply IH. lia.
      * change (y :: v) with ([y] ++ v). apply occ_weaken, IH, Hn.
Qed.

Lemma Count_single_permutation (c : byte) (v1 v2 : bytes) :
  Permutation v1 v2 -> Count v1 [c] = Count v2 [c].
Proof.
  intros Hperm.
  assert (Hocc : forall n, disjointOccurrences [c] n v1 <-> disjointOccurrences [c] n v2).
  { intros n. rewrite !occ_single.
    now rewrite (proj1 (Permutation_count_occ byte_eq_dec v1 v2) Hperm c). }
  assert (Hnil : [c] <> []) by discriminate.
  assert (Hle : forall a b, (forall n, disjointOccurrences [c] n a -> disjointOccurrences [c] n b) ->
                            Count a [c] <= Count b [c]).
  { intros a b Hab.
    destruct (Z.le_gt_cases (Count a [c]) 0) as [Hneg | Hpos].
    - pose proof (proj2 (Count_spec b [c] 0 Hnil) (occ_none _ _)). lia.
    - rewrite <- (Z2Nat.id (Count a [c])) by lia.
      apply (Count_spec b [c] _ Hnil), Hab, (Count_spec a [c] _ Hnil).
      rewrite Z2Nat.id; lia. }
  apply Z.le_antisymm; apply Hle; intros n; apply Hocc.
Qed.

(** X5: with an empty pattern (size filter only) or a pattern of a single
    byte, whether a hash is selected does not depend on the order in which
    the iteration over the map visits its fields. *)
Theorem short_pattern_ignores_field_order (s : searchCondition)
    (h1 h2 : list (string * string)) :
  Permutation h1 h2 -> (length (bs (Search s)) <= 1)%nat ->
  Matcher s (hashAsBytes h1) = Matcher s (hashAsBytes h2).
Proof.
  intros Hperm Hshort.
  assert (Hbytes : Permutation (hashAsBytes h1) (hashAsBytes h2))
    by (unfold hashAsBytes; now apply Permutation_flat_map).
  assert (Hlen : len (hashAsBytes h1) = len (hashAsBytes h2))
    by (unfold len; now rewrite (Permutation_length Hbytes)).
  rewrite !Matcher_unfold, Hlen.
  destruct (len (hashAsBytes h2) <? SizeThreshold s); [reflexivity |].
  destruct (bs (Search s)) as [|c [|c' p]] eqn:Ep; [reflexivity | | cbn in Hshort; lia].
  cbn [len length Z.of_nat Z.eqb Pos.of_succ_nat].
  destruct (Occurrences s <=? 0).
  - destruct (Equal (hashAsBytes h1) [c]) eqn:E1.
    + apply Equal_spec in E1. rewrite E1 in Hbytes.
      apply Permutation_length_1_inv in Hbytes. rewrite Hbytes.
      symmetry. now apply Equal_spec.
    + destruct (Equal (hashAsBytes h2) [c]) eqn:E2; [| reflexivity].
      apply Equal_spec in E2. rewrite E2 in Hbytes.
      apply Permutation_sym, Permutation_length_1_inv in Hbytes.
      rewrite Hbytes in E1. assert (Equal [c] [c] = true) by now apply Equal_spec.
      congruence.
  - now rewrite (Count_single_permutation c _ _ Hbytes).
Qed.

Lemma short_pattern_ignores_field_order_witness :
  Matcher (atLeast 3 "a" 2) (hashAsBytes [("a", "b"); ("c", "a")]%string) =
  Matcher (atLeast 3 "a" 2) (hashAsBytes [("c", "a"); ("a", "b")]%string).
Proof.
  apply short_pattern_ignores_field_order; [apply perm_swap | cbn; lia].
Defined.

(** ** Integers in the environment *)

Lemma digitOf_digitChar (d : Z) : 0 <= d <= 9 -> digitOf (digitChar d) = Some d.
Proof.
  intros H.
  assert (d = 0 \/ d = 1 \/ d = 2 \/ d = 3 \/ d = 4 \/ d = 5 \/ d = 6 \/ d = 7
          \/ d = 8 \/ d = 9) as Hd by lia.
  repeat (destruct Hd as [-> | Hd]; [reflexivity |]). now subst.
Qed.

Lemma splitSign_digitChar (d : Z) (rest : string) :
  0 <= d <= 9 ->
  splitSign (String (digitChar d) rest) = (false, String (digitChar d) rest).
Proof.
  intros H.
  assert (d = 0 \/ d = 1 \/ d = 2 \/ d = 3 \/ d = 4 \/ d = 5 \/ d = 6 \/ d = 7
          \/ d = 8 \/ d = 9) as Hd by lia.
  repeat (destruct Hd as [-> | Hd]; [reflexivity |]). now subst.
Qed.

Lemma digitsBefore_head (fuel : nat) :
  forall (n : Z) (acc : string),
    exists d rest, 0 <= d <= 9 /\ digitsBefore (S fuel) n acc = String (digitChar d) rest.
Proof.
  induction fuel as [|fuel IH]; intros n acc.
  - exists (n mod 10), acc. split; [pose proof (Z.mod_pos_bound n 10); lia |].
    cbn. now destruct (n <? 10).
  - change (digitsBefore (S (S fuel)) n acc)
      with (if n <? 10 then String (digitChar (n mod 10)) acc
            else digitsBefore (S fuel) (n / 10) (String (digitChar (n mod 10)) acc)).
    destruct (n <? 10); [| apply IH].
    exists (n mod 10), acc. split; [pose proof (Z.mod_pos_bound n 10); lia | reflexivity].
Qed.

(** Reading the digits gives the number back. *)
Lemma parseDigits_digitsBefore (fuel : nat) :
  forall (n : Z) (acc : string),
    0 <= n < 10 ^ Z.of_nat fuel ->
    parseDigits (digitsBefore fuel n acc) 0 = parseDigits acc n.
Proof.
  induction fuel as [|fuel IH]; intros n acc Hn.
  - cbn in Hn. replace n with 0 by lia. reflexivity.
  - cbn [digitsBefore].
    assert (Hd : 0 <= n mod 10 <= 9) by (pose proof (Z.mod_pos_bound n 10); lia).
    destruct (Z.ltb_spec n 10) as [Hlt|Hge].
    + cbn [parseDigits]. rewrite digitOf_digitChar by exact Hd.
      rewrite Z.mod_small by lia. reflexivity.
    + rewrite IH.
      * cbn [parseDigits]. rewrite digitOf_digitChar by exact Hd.
        f_equal. pose proof (Z.div_mod n 10). lia.
      * rewrite Nat2Z.inj_succ, Z.pow_succ_r in Hn by lia.
        split; [apply Z.div_pos; lia | apply Z.div_lt_upper_bound; lia].
Qed.

Lemma Atoi_digits (n : Z) :
  0 <= n < 10 ^ 20 ->
  splitSign (digitsBefore 20 n EmptyString) = (false, digitsBefore 20 n EmptyString) /\
  digitsBefore 20 n EmptyString <> EmptyString /\
  parseDigits (digitsBefore 20 n EmptyString) 0 = Some n.
Proof.
  intros Hn.
  destruct (digitsBefore_head 19 n EmptyString) as (d & rest & Hd & Heq).
  split; [| split].
  - rewrite Heq. now apply splitSign_digitChar.
  - rewrite Heq. discriminate.
  - now rewrite (parseDigits_digitsBefore 20 n EmptyString Hn).
Qed.

(** X6: [strconv.Atoi] reads the decimal form of every 64-bit integer back,
    so [envInt] returns the integer a variable is set to, not the default. *)
Theorem envInt_reads_decimal (getenv : environ) (name : string) (defval z : Z) :
  in_int z -> getenv name = decimal z ->
  Atoi (decimal z) = Some z /\ envInt getenv name defval = z.
Proof.
  intros Hz Henv.
  assert (HA : Atoi (decimal z) = Some z).
  { unfold in_int, min_int, max_int in Hz. unfold decimal, Atoi.
    destruct (Z.ltb_spec z 0) as [Hneg|Hpos].
    - destruct (Atoi_digits (- z)) as (Hs & Hne & Hp); [lia |].
      cbn [splitSign]. rewrite Hp.
      destruct (digitsBefore 20 (- z) EmptyString); [congruence |].
      rewrite Z.opp_involutive.
      destruct (Z.leb_spec min_int z) as [_|H]; [| unfold min_int in H; lia].
      destruct (Z.leb_spec z max_int) as [_|H]; [| unfold max_int in H; lia].
      reflexivity.
    - destruct (Atoi_digits z) as (Hs & Hne & Hp); [lia |].
      rewrite Hs, Hp.
      destruct (digitsBefore 20 z EmptyString); [congruence |].
      destruct (Z.leb_spec min_int z) as [_|H]; [| unfold min_int in H; lia].
      destruct (Z.leb_spec z max_int) as [_|H]; [| unfold max_int in H; lia].
      reflexivity. }
  split; [exact HA |]. unfold envInt. now rewrite Henv, HA.
Qed.

Lemma envInt_reads_decimal_witness :
  decimal (-9223372036854775808) = "-9223372036854775808"%string /\
  envInt (cleanMin (decimal 500)) "CLEAN_DELETE_MIN" 7 = 500.
Proof.
  split; [reflexivity |].
  apply (envInt_reads_decimal (cleanMin (decimal 500)) "CLEAN_DELETE_MIN" 7 500);
    [unfold in_int, min_int, max_int; lia | reflexivity].
Defined.

(** ** The reconciliation loop *)

Lemma presentKeys_app (t1 t2 : list event) :
  presentKeys (t1 ++ t2) = presentKeys t1 ++ presentKeys t2.
Proof. apply flat_map_app. Qed.

Lemma sleeps_app (t1 t2 : list event) : sleeps (t1 ++ t2) = sleeps t1 ++ sleeps t2.
Proof. apply flat_map_app. Qed.

Lemma passFailures_app (t1 t2 : list event) :
  passFailures (t1 ++ t2) = passFailures t1 ++ passFailures t2.
Proof. apply flat_map_app. Qed.

Lemma existsCalls_checkTrace (key : string) (n : Z) :
  existsCalls (checkTrace key n) = [(key, Ok n)].
Proof. unfold checkTrace. now destruct (n >? 0). Qed.

Lemma passFailures_checkTrace (key : string) (n : Z) :
  passFailures (checkTrace key n) = [].
Proof. unfold checkTrace. now destruct (n >? 0). Qed.

(** A key checked without a failure in front of a pass over the others. *)
Lemma passOutcome_checked (key : string) (n : Z) (rest : list string)
    (err : option error) (t : list event) :
  passOutcome rest err t -> passOutcome (key :: rest) err (checkTrace key n ++ t).
Proof.
  destruct err as [e|]; cbn [passOutcome].
  - intros (pre & key' & rest' & t0 & e0 & Hk & Hex & Hpf & Hcase).
    exists (key :: pre), key', rest', (checkTrace key n ++ t0), e0.
    split; [now rewrite Hk |].
    split; [now rewrite existsCalls_app, existsCalls_checkTrace, map_app, Hex |].
    split; [now rewrite passFailures_app, passFailures_checkTrace, Hpf |].
    destruct Hcase as [[-> ->] | (m & Hm & -> & ->)].
    + left. now rewrite app_assoc.
    + right. exists m. now rewrite app_assoc.
  - intros Hpf. now rewrite passFailures_app, passFailures_checkTrace, Hpf.
Qed.

(** Checks that all succeeded and found no key present reported absent. *)
Lemma absent_of_none_present (t : list event) :
  presentKeys t = [] ->
  Forall (fun c => exists n, snd c = Ok n) (existsCalls t) ->
  Forall absent (existsCalls t).
Proof.
  induction t as [|e t IH]; [constructor |].
  change (e :: t) with ([e] ++ t).
  rewrite presentKeys_app, existsCalls_app. intros Hp Hok.
  apply app_eq_nil in Hp as [Hp1 Hp2].
  apply Forall_app in Hok as [Hok1 Hok2].
  apply Forall_app. split; [| now apply IH].
  destruct e; try constructor; [| constructor].
  cbn in Hok1. inversion Hok1 as [| c l [n Hn] _]; subst. cbn in Hn. subst r.
  exists n. split; [reflexivity |].
  cbn in Hp1. destruct (Z.gtb_spec n 0); [discriminate | lia].
Qed.

Section Reconciliation.

Context {World : Type}.
Variable r : redisSearch World.

(** What a pass of [deleteKeys] leaves in the events, whether it completes
    or stops at an error. *)
Lemma deleteKeysFrom_trace (keys : list string) :
  forall (found0 found : bool) (err : option error) (w w' : World) (t : list event),
    deleteKeysFrom r keys found0 w = Some ((found, err), w', t) ->
    map fst (delCalls t) = presentKeys t /\
    found = found0 || existsb (fun _ => true) (presentKeys t) /\
    (exists rest, keys = map fst (existsCalls t) ++ rest /\ (err = None -> rest = [])) /\
    passes t = 0 /\ sleeps t = [] /\
    (err = None ->
     Forall (fun c => exists n, snd c = Ok n) (existsCalls t) /\
     Forall (fun c => snd c = None) (delCalls t)).
Proof.
  induction keys as [|key rest IH]; intros found0 found err w w' t.
  - intros H; injection H as <- <- _ <-. cbn. rewrite orb_false_r.
    repeat split; trivial; try constructor. now exists [].
  - rewrite deleteKeysFrom_cons.
    destruct (Exists (client r) key w) as [[n|e] w1].
    + destruct (n >? 0) eqn:Hn.
      * destruct (Del (client r) key w1) as [[e|] w2].
        -- intros H; injection H as <- <- _ <-. cbn. rewrite Hn. cbn.
           rewrite orb_true_r. repeat split; trivial; try discriminate.
           exists rest. split; [reflexivity | discriminate].
        -- destruct (deleteKeysFrom r rest true w2) as [[[[f e'] w3] t3]|] eqn:Hrest;
             [| discriminate].
           cbn [after]. intros H; injection H as <- <- _ <-.
           destruct (IH _ _ _ _ _ _ Hrest) as (Hd & Hf & (rest' & Hk & Hrest') & Hp & Hs & Hok).
           unfold checkTrace. rewrite Hn.
           change (CallExists key (Ok n) :: [PrintRedelete key; CallDel key None] ++ t3)
             with ([CallExists key (Ok n); PrintRedelete key; CallDel key None] ++ t3).
           rewrite delCalls_app, presentKeys_app, existsCalls_app, passes_app, sleeps_app.
           cbn. rewrite Hn. cbn. rewrite Hd, Hp, Hs, orb_true_r.
           repeat split; trivial.
           ++ exists rest'. split; [now rewrite Hk | exact Hrest'].
           ++ constructor; [now exists n | now apply Hok].
           ++ constructor; [reflexivity | now apply Hok].
      * destruct (deleteKeysFrom r rest found0 w1) as [[[[f e'] w3] t3]|] eqn:Hrest;
          [| discriminate].
        cbn [after]. intros H; injection H as <- <- _ <-.
        destruct (IH _ _ _ _ _ _ Hrest) as (Hd & Hf & (rest' & Hk & Hrest') & Hp & Hs & Hok).
        unfold checkTrace. rewrite Hn.
        change (CallExists key (Ok n) :: [] ++ t3) with ([CallExists key (Ok n)] ++ t3).
        rewrite delCalls_app, presentKeys_app, existsCalls_app, passes_app, sleeps_app.
        cbn. rewrite Hn. cbn. rewrite Hd, Hp, Hs.
        repeat split; trivial.
        -- exists rest'. split; [now rewrite Hk | exact Hrest'].
        -- constructor; [now exists n | now apply Hok].
        -- now apply Hok.
    + intros H; injection H as <- <- _ <-. cbn. rewrite orb_false_r.
      repeat split; trivial; try discriminate.
      exists rest. split; [reflexivity | discriminate].
Qed.

(** A pass ends with [nil] and no failed call, or at the call that failed. *)
Lemma deleteKeysFrom_stops (keys : list string) :
  forall (found0 found : bool) (err : option error) (w w' : World) (t : list event),
    deleteKeysFrom r keys found0 w = Some ((found, err), w', t) ->
    passOutcome keys err t.
Proof.
  induction keys as [|key rest IH]; intros found0 found err w w' t.
  - intros H; injection H as _ <- _ <-. reflexivity.
  - rewrite deleteKeysFrom_cons.
    destruct (Exists (client r) key w) as [[n|e] w1].
    + destruct (n >? 0) eqn:Hn.
      * destruct (Del (client r) key w1) as [[e|] w2].
        -- intros H; injection H as _ <- _ <-.
           exists [], key, rest, [], e.
           split; [reflexivity | split; [reflexivity | split; [reflexivity |]]].
           right. exists n. split; [now apply Z.gtb_gt | now split].
        -- destruct (deleteKeysFrom r rest true w2) as [[[[f e'] w3] t3]|] eqn:Hrest;
             [| discriminate].
           cbn [after]. intros H; injection H as _ <- _ <-.
           apply passOutcome_checked. now apply IH with (1 := Hrest).
      * destruct (deleteKeysFrom r rest found0 w1) as [[[[f e'] w3] t3]|] eqn:Hrest;
          [| discriminate].
        cbn [after]. intros H; injection H as _ <- _ <-.
        apply passOutcome_checked. now apply IH with (1 := Hrest).
    + intros H; injection H as _ <- _ <-.
      exists [], key, rest, [], e.
      split; [reflexivity | split; [reflexivity | split; [reflexivity |]]].
      left. now split.
Qed.

(** X7: a pass of [deleteKeys], completed or not, checks the keys in order
    from the first, stops at the first call that fails, calls delete on
    exactly the keys just reported present (never on a key reported absent),
    and returns [found] exactly when some key was reported present. A pass
    that returns [nil] had no failed call; one that returns an error ends
    with the failed call, an existence check or the delete of the key just
    found, returns that call's error wrapped, and has checked no key after
    it. *)
Theorem deleteKeys_pass (keys : list string) (w w' : World) (found : bool)
    (err : option error) (t : list event) :
  deleteKeys r keys w = Some ((found, err), w', t) ->
  map fst (delCalls t) = presentKeys t /\
  (found = true <-> presentKeys t <> []) /\
  (exists rest, keys = map fst (existsCalls t) ++ rest /\ (err = None -> rest = [])) /\
  passOutcome keys err t.
Proof.
  intros H. destruct (deleteKeysFrom_trace keys _ _ _ _ _ _ H)
    as (Hd & Hf & Hk & _).
  split; [exact Hd | split; [| split; [exact Hk |]]].
  - rewrite Hf. cbn. destruct (presentKeys t); cbn; split; congruence.
  - now apply deleteKeysFrom_stops with (1 := H).
Qed.

(** A pass that found nothing and returned no error is a clean pass. *)
Lemma deleteKeys_clean (keys : list string) (w w' : World) (t : list event) :
  deleteKeys r keys w = Some ((false, None), w', t) ->
  map fst (existsCalls t) = keys /\ Forall absent (existsCalls t) /\
  delCalls t = [] /\ passes t = 0.
Proof.
  intros H. destruct (deleteKeysFrom_trace keys _ _ _ _ _ _ H)
    as (Hd & Hf & (rest & Hk & Hrest) & Hp & _ & Hok).
  destruct (Hok eq_refl) as [Hex _]. rewrite (Hrest eq_refl), app_nil_r in Hk.
  assert (Hnone : presentKeys t = [])
    by (cbn in Hf; destruct (presentKeys t); [reflexivity | discriminate]).
  split; [now symmetry | split; [now apply absent_of_none_present | split]].
  - rewrite Hnone in Hd. now destruct (delCalls t).
  - exact Hp.
Qed.

(** X8: a failing existence check is fatal: [deleteKeys] stops at that key
    with "key EXIST check failed", the key is not deleted, the keys after it
    are not checked, and [repeatDeleteKeys] returns the error. *)
Theorem exists_failure_is_fatal (getenv : environ) (fuel : nat)
    (pre : list string) (key : string) (rest : list string) (w w0 w1 : World)
    (found : bool) (t0 : list event) (e : error) :
  deleteKeysFrom r pre false w = Some ((found, None), w0, t0) ->
  Exists (client r) key w0 = (Err e, w1) ->
  0 < envInt getenv "CLEAN_DELETE_MIN" 500 ->
  let keys := pre ++ key :: rest in
  let t := t0 ++ [CallExists key (Err e)] in
  deleteKeys r keys w = Some ((found, Some (ExistCheckError key e)), w1, t) /\
  repeatDeleteKeys r getenv (S fuel) keys w =
    Some (Some (ExistCheckError key e), w1,
          passHeader (envInt getenv "CLEAN_DELETE_MIN" 500)
            (envInt getenv "CLEAN_DELETE_WAIT_MS" 150) keys 0 0 ++ t).
Proof.
  intros Hpre He Hmin keys t.
  assert (Hkeys : deleteKeys r keys w =
                    Some ((found, Some (ExistCheckError key e)), w1, t)).
  { unfold deleteKeys, keys. now rewrite deleteKeysFrom_app, Hpre, deleteKeysFrom_cons, He. }
  split; [exact Hkeys |].
  unfold repeatDeleteKeys. rewrite bind_run.
  rewrite (reconciliation_pass_aborts r _ _ _ _ _ _ _ _ _ _ _ Hkeys) by lia.
  cbn. now rewrite app_nil_r.
Qed.

(** *** Leaving the loop *)

Lemma cleanPasses_more (keys : list string) (minClean wait c p n : Z)
    (t1 tc : list event) :
  0 <= n ->
  map fst (existsCalls t1) = keys -> Forall absent (existsCalls t1) ->
  delCalls t1 = [] -> passes t1 = 0 ->
  cleanPasses keys n tc ->
  cleanPasses keys (n + 1) (passHeader minClean wait keys c p ++ t1 ++ tc).
Proof.
  intros Hn Hk Ha Hd Hp (Hpc & Hkc & Hac & Hdc). unfold cleanPasses.
  rewrite !passes_app, !existsCalls_app, !delCalls_app, Hp, Hpc, Hd, Hdc.
  change (passes (passHeader minClean wait keys c p)) with 1.
  change (existsCalls (passHeader minClean wait keys c p))
    with (@nil (string * result Z)).
  change (delCalls (passHeader minClean wait keys c p))
    with (@nil (string * option error)).
  cbn [app]. rewrite map_app, Hk, Hkc.
  replace (Z.to_nat (n + 1)) with (S (Z.to_nat n)) by lia.
  repeat split; trivial; [lia |]. apply Forall_app. now split.
Qed.

Lemma repeatLoop_exit_clean (minClean wait : Z) (keys : list string) :
  minClean <= max_int ->
  forall (fuel : nat) (c p c' p' : Z) (w w' : World) (t : list event),
    0 <= c <= minClean ->
    repeatLoop r fuel minClean wait keys c p w = Some ((None, c', p'), w', t) ->
    c' = minClean /\
    exists t0 tc n,
      t = t0 ++ tc /\ cleanPasses keys n tc /\ 0 <= n /\
      (n = minClean \/ (t0 = [] /\ n = minClean - c)).
Proof.
  intros Hmax. induction fuel as [|fuel IH]; intros c p c' p' w w' t Hc.
  - cbn [repeatLoop]. destruct (Z.ltb_spec c minClean) as [|Hge]; [discriminate |].
    intros H; injection H as <- _ _ <-. split; [lia |].
    exists [], [], 0. split; [reflexivity | split; [| split; [lia |]]].
    { unfold cleanPasses. cbn. repeat split; constructor. }
    right. split; [reflexivity | lia].
  - destruct (Z.lt_ge_cases c minClean) as [Hlt|Hge].
    + rewrite repeatLoop_step by exact Hlt.
      destruct (deleteKeys r keys w) as [[[[found [e|]] w1] t1]|] eqn:Hpass;
        cbn [after]; try discriminate.
      destruct (repeatLoop r fuel minClean wait keys (if found then 0 else add64 c 1)
                  (add64 p 1) w1) as [[[[[e c1] p1] w2] t2]|] eqn:Hloop;
        cbn [after]; [| discriminate].
      intros H; injection H as -> <- _ _ <-.
      change (Sleep (wrap64 (wait * Millisecond))
                :: LogRepeatPass (len keys) (add64 p 1) c minClean :: t1 ++ t2)
        with (passHeader minClean wait keys c p ++ t1 ++ t2).
      destruct found.
      * assert (H0 : 0 <= 0 <= minClean) by lia.
        destruct (IH _ _ _ _ _ _ _ H0 Hloop) as (-> & t0 & tc & n & -> & Hcl & Hn & Hcase).
        split; [reflexivity |].
        exists (passHeader minClean wait keys c p ++ t1 ++ t0), tc, n.
        split; [now rewrite <- !app_assoc | split; [exact Hcl | split; [exact Hn |]]].
        left. destruct Hcase as [-> | [_ ->]]; lia.
      * rewrite add64_small in Hloop by (unfold in_int, min_int, max_int in *; lia).
        assert (H1 : 0 <= c + 1 <= minClean) by lia.
        destruct (IH _ _ _ _ _ _ _ H1 Hloop) as (-> & t0 & tc & n & -> & Hcl & Hn & Hcase).
        split; [reflexivity |].
        destruct (deleteKeys_clean keys _ _ _ Hpass) as (Hk & Ha & Hd & Hp).
        destruct Hcase as [-> | [-> ->]].
        -- exists (passHeader minClean wait keys c p ++ t1 ++ t0), tc, minClean.
           split; [now rewrite <- !app_assoc | split; [exact Hcl | split; [exact Hn |]]].
           now left.
        -- exists [], (passHeader minClean wait keys c p ++ t1 ++ tc), (minClean - c).
           split; [reflexivity | split; [| split; [lia |]]].
           ++ replace (minClean - c) with (minClean - (c + 1) + 1) by lia.
              now apply cleanPasses_more.
           ++ right. now split.
    + rewrite repeatLoop_done by exact Hge.
      intros H; injection H as <- _ _ <-. split; [lia |].
      exists [], [], 0. split; [reflexivity | split; [| split; [lia |]]].
      { unfold cleanPasses. cbn. repeat split; constructor. }
      right. split; [reflexivity | lia].
Qed.

(** X9: [repeatDeleteKeys] returns [nil] only at the end of
    [CLEAN_DELETE_MIN] consecutive clean passes: the events of the run end
    with that many passes in which every key was checked, none was reported
    present and nothing was deleted. *)
Theorem repeatDeleteKeys_exits_clean (getenv : environ) (fuel : nat)
    (keys : list string) (w w' : World) (t : list event) :
  0 <= envInt getenv "CLEAN_DELETE_MIN" 500 ->
  repeatDeleteKeys r getenv fuel keys w = Some (None, w', t) ->
  exists t0 tc,
    t = t0 ++ tc /\ cleanPasses keys (envInt getenv "CLEAN_DELETE_MIN" 500) tc.
Proof.
  intros Hmin. unfold repeatDeleteKeys. rewrite bind_run.
  destruct (repeatLoop r fuel (envInt getenv "CLEAN_DELETE_MIN" 500)
              (envInt getenv "CLEAN_DELETE_WAIT_MS" 150) keys 0 0 w)
    as [[[[[e c'] p'] w1] t1]|] eqn:Hloop; [| discriminate].
  cbn. rewrite app_nil_r. intros H; injection H as -> _ <-.
  assert (in_int (envInt getenv "CLEAN_DELETE_MIN" 500)) as [_ Hmax]
    by (apply envInt_in_int; unfold in_int, min_int, max_int; lia).
  assert (H0 : 0 <= 0 <= envInt getenv "CLEAN_DELETE_MIN" 500) by lia.
  destruct (repeatLoop_exit_clean _ _ _ Hmax _ _ _ _ _ _ _ _ H0 Hloop)
    as (_ & t0 & tc & n & -> & Hcl & _ & Hcase).
  exists t0, tc. split; [reflexivity |].
  destruct Hcase as [-> | [_ ->]]; [exact Hcl |].
  now rewrite Z.sub_0_r in Hcl.
Qed.

(** *** Not leaving the loop *)

Section Restless.

(** [restless w c] holds of the states of the world and of the counter of
    clean passes from which the next pass returns no error and leaves the
    counter below the threshold again, whether it found a key or not. *)
Variable restless : World -> Z -> Prop.
Variable keys : list string.
Variable getenv : environ.

Hypothesis restless_pass :
  forall (w : World) (c : Z),
    restless w c ->
    c < envInt getenv "CLEAN_DELETE_MIN" 500 /\
    exists found w' t,
      deleteKeys r keys w = Some ((found, None), w', t) /\
      restless w' (if found : bool then 0 else add64 c 1).

Lemma repeatLoop_restless (wait : Z) (fuel : nat) :
  forall (c p : Z) (w : World),
    restless w c ->
    repeatLoop r fuel (envInt getenv "CLEAN_DELETE_MIN" 500) wait keys c p w = None.
Proof.
  induction fuel as [|fuel IH]; intros c p w Hw;
    destruct (restless_pass w c Hw) as (Hc & found & w' & t & Hpass & Hw').
  - cbn [repeatLoop].
    now destruct (Z.ltb_spec c (envInt getenv "CLEAN_DELETE_MIN" 500)); [| lia].
  - rewrite repeatLoop_step, Hpass by exact Hc.
    now rewrite (IH _ (add64 p 1) w' Hw').
Qed.

(** X10: the loop has no bound on the number of passes: as long as a key
    comes back often enough for the counter of clean passes never to reach
    [CLEAN_DELETE_MIN], [repeatDeleteKeys] does not return, whatever the
    fuel. *)
Theorem repeatDeleteKeys_never_gives_up (w : World) (fuel : nat) :
  restless w 0 -> repeatDeleteKeys r getenv fuel keys w = None.
Proof.
  intros Hw. unfold repeatDeleteKeys.
  now rewrite bind_run, (repeatLoop_restless _ fuel 0 0 w Hw).
Qed.

End Restless.

End Reconciliation.

Lemma deleteKeys_pass_witness :
  let keys := ["a"; "b"; "c"]%string in
  exists w' t,
    deleteKeys memSearch keys (withWriters (broken purged [] [] ["c"]%string false)
                                 ["b"]%string)
      = Some ((true, Some (ExistCheckError "c" ioError)), w', t) /\
    map fst (delCalls t) = presentKeys t /\
    presentKeys t = ["b"]%string /\
    (true = true <-> presentKeys t <> []) /\
    (exists rest, keys = map fst (existsCalls t) ++ rest /\
                  (Some (ExistCheckError "c" ioError) = None -> rest = [])) /\
    passOutcome keys (Some (ExistCheckError "c" ioError)) t.
Proof.
  intros keys. do 2 eexists. split; [reflexivity |].
  destruct (deleteKeys_pass memSearch keys
              (withWriters (broken purged [] [] ["c"]%string false) ["b"]%string)
              _ true (Some (ExistCheckError "c" ioError)) _ eq_refl)
    as (Hd & Hf & Hk & Hout).
  split; [exact Hd | split; [reflexivity | split; [exact Hf | split; [exact Hk | exact Hout]]]].
Defined.

Lemma exists_failure_is_fatal_witness :
  let w := broken store [] [] ["b"]%string false in
  deleteKeysFrom memSearch ["a"]%string false w
    = Some ((true, None), withStrings w [("b", "nullish"); ("c", "null")]%string,
            checkTrace "a" 1) /\
  deleteKeys memSearch ["a"; "b"; "c"]%string w =
    Some ((true, Some (ExistCheckError "b" ioError)),
          withStrings w [("b", "nullish"); ("c", "null")]%string,
          checkTrace "a" 1 ++ [CallExists "b" (Err ioError)]) /\
  valueOf (repeatDeleteKeys memSearch (cleanMin "2") 1 ["a"; "b"; "c"]%string w) =
    Some (Some (ExistCheckError "b" ioError)).
Proof.
  intros w. split; [reflexivity |].
  assert (Hmin : 0 < envInt (cleanMin "2") "CLEAN_DELETE_MIN" 500) by reflexivity.
  destruct (exists_failure_is_fatal memSearch (cleanMin "2") 0 ["a"]%string "b"
              ["c"]%string w _ _ true _ ioError eq_refl eq_refl Hmin) as [Hkeys Hrun].
  split; [exact Hkeys |]. cbn [app] in Hrun. now rewrite Hrun.
Defined.

Lemma repeatDeleteKeys_exits_clean_witness :
  let keys := ["a"; "b"; "c"]%string in
  let getenv := cleanMin "2" in
  exists w' t,
    0 <= envInt getenv "CLEAN_DELETE_MIN" 500 /\
    repeatDeleteKeys memSearch getenv 5 keys (withWriters purged ["b"]%string)
      = Some (None, w', t) /\
    passes t = 3 /\
    exists t0 tc,
      t = t0 ++ tc /\ cleanPasses keys (envInt getenv "CLEAN_DELETE_MIN" 500) tc.
Proof.
  intros keys getenv. do 2 eexists.
  assert (Hmin : 0 <= envInt getenv "CLEAN_DELETE_MIN" 500) by (vm_compute; discriminate).
  split; [exact Hmin | split; [reflexivity | split; [reflexivity |]]].
  exact (repeatDeleteKeys_exits_clean memSearch getenv 5 keys
           (withWriters purged ["b"]%string) _ _ Hmin eq_refl).
Defined.

(** On [flicker] the key is back at every second pass: with
    [CLEAN_DELETE_MIN=2] the counter of clean passes is reset before it
    reaches 2, forever. *)
Lemma repeatDeleteKeys_never_gives_up_witness :
  repeatDeleteKeys flicker (cleanMin "2") 50 ["k"]%string 0%nat = None.
Proof.
  apply (repeatDeleteKeys_never_gives_up flicker
           (fun w c => (Nat.even w = true /\ 0 <= c <= 1) \/ (Nat.even w = false /\ c = 0))
           ["k"]%string (cleanMin "2")).
  - intros w c Hw.
    split; [change (envInt (cleanMin "2") "CLEAN_DELETE_MIN" 500) with 2;
            destruct Hw as [[_ Hc] | [_ ->]]; lia |].
    assert (Hnext : Nat.even (S w) = negb (Nat.even w))
      by (rewrite Nat.even_succ; symmetry; apply Nat.negb_even).
    unfold deleteKeys. rewrite deleteKeysFrom_cons. cbn [Exists Del client flicker flickerClient].
    destruct Hw as [[He Hc] | [He ->]]; rewrite He in *; cbn.
    + exists true. do 2 eexists. split; [reflexivity |]. right. now split.
    + exists false. do 2 eexists. split; [reflexivity |]. left. split; [exact Hnext |].
      change (add64 0 1) with 1. lia.
  - left. split; [reflexivity | lia].
Defined.

(** ** A rule for the scan loop *)

Section Rule.

Context {World : Type} {A : Type}.
Variable r : redisSearch World.
Variable search : searchCondition.
Variable action : string -> bytes -> A -> M World (option error * A).

(** The one call [fetchValue] makes. *)
Lemma fetchValue_events (key : string) (mode : valueAccessMode) (w w0 : World)
    (res : result bytes) (t0 : list event) :
  fetchValue r key mode w = Some (res, w0, t0) ->
  t0 = [CallGet key res] \/
  exists hres,
    t0 = [CallHGetAll key hres] /\
    res = match hres with
          | Ok h => Ok (hashAsBytes h)
          | Err e => Err (HashAccessError key e)
          end.
Proof.
  unfold fetchValue, valueAccessMode_Get, bind, call, ret. destruct mode.
  - destruct (Get (client r) key w) as [res' w']. intros H; inversion H. now left.
  - destruct (HGetAll (client r) key w) as [[h|e] w']; intros H; inversion H; subst;
      right; eexists; split; reflexivity.
Qed.

(** [Inv a a' t] relates the captured variables before and after a stretch
    of the run to the events of the stretch. *)
Variable Inv : A -> A -> list event -> Prop.

Hypothesis Inv_nil : forall a, Inv a a [].
Hypothesis Inv_app :
  forall a a1 a2 t1 t2, Inv a a1 t1 -> Inv a1 a2 t2 -> Inv a a2 (t1 ++ t2).
Hypothesis Inv_skip :
  forall a key w w0 e t0,
    fetchValue r key (AccessMode search) w = Some (Err e, w0, t0) ->
    Inv a a (t0 ++ [LogFetchSkip key e]).
Hypothesis Inv_unmatched :
  forall a key w w0 value t0,
    fetchValue r key (AccessMode search) w = Some (Ok value, w0, t0) ->
    Matcher search value = false -> Inv a a t0.
Hypothesis Inv_action :
  forall a key w w0 value t0 err a' w1 t1,
    fetchValue r key (AccessMode search) w = Some (Ok value, w0, t0) ->
    Matcher search value = true ->
    action key value a w0 = Some ((err, a'), w1, t1) ->
    Inv a a' (t0 ++ t1).

Lemma visitKeys_rule (keys : list string) :
  forall (a a' : A) (w w' : World) (err : option error) (t : list event),
    visitKeys r search action keys a w = Some ((err, a'), w', t) -> Inv a a' t.
Proof.
  induction keys as [|key rest IH]; intros a a' w w' err t.
  - intros H; injection H as _ <- _ <-. apply Inv_nil.
  - destruct (fetchValue_total r key (AccessMode search) w) as (res & w0 & t0 & Hf & _).
    destruct res as [value|e].
    + rewrite (visitKeys_fetched r _ _ _ _ _ _ _ _ _ Hf).
      destruct (Matcher search value) eqn:Hm.
      * destruct (action key value a w0) as [[[[[e|] a1] w1] t1]|] eqn:Hact;
          cbn [after]; try discriminate.
        -- intros H; injection H as _ <- _ <-.
           now apply Inv_action with (1 := Hf) (3 := Hact).
        -- destruct (visitKeys r search action rest a1 w1)
             as [[[[err2 a2] w2] t2]|] eqn:Hrest; cbn [after]; [| discriminate].
           intros H; injection H as _ <- _ <-. rewrite app_assoc.
           apply Inv_app with (a1 := a1); [| now apply IH with (1 := Hrest)].
           now apply Inv_action with (1 := Hf) (3 := Hact).
      * destruct (visitKeys r search action rest a w0)
          as [[[[err2 a2] w2] t2]|] eqn:Hrest; cbn [after]; [| discriminate].
        intros H; injection H as _ <- _ <-.
        apply Inv_app with (a1 := a); [| now apply IH with (1 := Hrest)].
        now apply Inv_unmatched with (1 := Hf).
    + rewrite (visitKeys_skipped r _ _ _ _ _ _ _ _ _ Hf).
      destruct (visitKeys r search action rest a w0)
        as [[[[err2 a2] w2] t2]|] eqn:Hrest; cbn [after]; [| discriminate].
      intros H; injection H as _ <- _ <-.
      apply Inv_app with (a1 := a); [| now apply IH with (1 := Hrest)].
      now apply Inv_skip with (1 := Hf).
Qed.

Hypothesis Inv_count : forall a res, Inv a a [CallDBSize res].
Hypothesis Inv_scan :
  forall a scanCursor res, Inv a a [CallScan scanCursor res].
Hypothesis Inv_log :
  forall a totalKeys visitingKeys keys scanCursor',
    Inv a a (pageLog r totalKeys visitingKeys keys scanCursor').

Lemma scanLoop_rule (fuel : nat) :
  forall (totalKeys scanCursor visitingKeys : Z) (a a' : A) (w w' : World)
         (err : option error) (t : list event),
    scanLoop r search action fuel totalKeys scanCursor visitingKeys a w
      = Some ((err, a'), w', t) ->
    Inv a a' t.
Proof.
  induction fuel as [|fuel IH]; intros totalKeys scanCursor visitingKeys a a' w w' err t;
    [discriminate |].
  rewrite scanLoop_step.
  destruct (Scan (client r) scanCursor "" 50 w) as [[[keys scanCursor']|e] w1].
  - set (head := CallScan scanCursor (Ok (keys, scanCursor'))
                   :: pageLog r totalKeys visitingKeys keys scanCursor').
    assert (Hhead : Inv a a head).
    { change (Inv a a ([CallScan scanCursor (Ok (keys, scanCursor'))]
                         ++ pageLog r totalKeys visitingKeys keys scanCursor')).
      apply Inv_app with (a1 := a); [apply Inv_scan | apply Inv_log]. }
    destruct (visitKeys r search action keys a w1)
      as [[[[[e|] a1] w2] t1]|] eqn:Hpage; try discriminate.
    + cbn [after]. intros H; injection H as _ <- _ <-.
      change (Inv a a1 (head ++ t1)).
      apply Inv_app with (a1 := a); [exact Hhead | now apply visitKeys_rule with (1 := Hpage)].
    + assert (Hpage' : Inv a a1 t1) by now apply visitKeys_rule with (1 := Hpage).
      destruct (scanCursor' =? 0).
      * cbn [after]. intros H; injection H as _ <- _ <-.
        change (Inv a a1 (head ++ t1)).
        now apply Inv_app with (a1 := a).
      * destruct (scanLoop r search action fuel totalKeys scanCursor'
                    (add64 visitingKeys (len keys)) a1 w2)
          as [[[[err2 a2] w3] t2]|] eqn:Hloop; cbn [after]; [| discriminate].
        intros H; injection H as _ <- _ <-.
        change (Inv a a2 (head ++ t1 ++ t2)).
        apply Inv_app with (a1 := a); [exact Hhead |].
        apply Inv_app with (a1 := a1); [exact Hpage' | now apply IH with (1 := Hloop)].
  - intros H; injection H as _ <- _ <-. apply Inv_scan.
Qed.

Lemma matchingKeysDo_rule (fuel : nat) (a a' : A) (w w' : World)
    (err : option error) (t : list event) :
  matchingKeysDo r search action fuel a w = Some ((err, a'), w', t) -> Inv a a' t.
Proof.
  rewrite matchingKeysDo_run.
  destruct (DBSize (client r) w) as [[totalKeys|e] w1].
  - destruct (scanLoop r search action fuel totalKeys 0 0 a w1)
      as [[[[err2 a2] w3] t2]|] eqn:Hloop; cbn [after]; [| discriminate].
    intros H; injection H as _ <- _ <-.
    change (Inv a a2 ([CallDBSize (Ok totalKeys)] ++ t2)).
    apply Inv_app with (a1 := a); [apply Inv_count | now apply scanLoop_rule with (1 := Hloop)].
  - intros H; injection H as _ <- _ <-. apply Inv_count.
Qed.

End Rule.

(** ** Counting *)

Lemma wrap64_in_int (z : Z) : in_int (wrap64 z).
Proof.
  unfold in_int, wrap64, min_int, max_int.
  pose proof (Z.mod_pos_bound (z + 2 ^ 63) (2 ^ 64)). lia.
Qed.

Lemma wrap64_add (a c : Z) : wrap64 (wrap64 a + c) = wrap64 (a + c).
Proof.
  unfold wrap64.
  replace ((a + 2 ^ 63) mod 2 ^ 64 - 2 ^ 63 + c + 2 ^ 63)
    with ((a + 2 ^ 63) mod 2 ^ 64 + c) by lia.
  rewrite Z.add_mod_idemp_l by lia. do 2 f_equal. lia.
Qed.

Lemma len_app {A} (l1 l2 : list A) : len (l1 ++ l2) = len l1 + len l2.
Proof. unfold len. rewrite length_app. lia. Qed.

Lemma sumZ_app (l1 l2 : list Z) : sumZ (l1 ++ l2) = sumZ l1 + sumZ l2.
Proof. unfold sumZ. induction l1 as [|x l1 IH]; cbn [app fold_right]; lia. Qed.

Lemma deletedOk_app (t1 t2 : list event) :
  deletedOk (t1 ++ t2) = deletedOk t1 ++ deletedOk t2.
Proof. unfold deletedOk. now rewrite delCalls_app, filter_app, map_app. Qed.

Lemma failedDels_app (t1 t2 : list event) :
  failedDels (t1 ++ t2) = failedDels t1 ++ failedDels t2.
Proof. unfold failedDels. now rewrite delCalls_app, filter_app. Qed.

Lemma printedMatches_app (t1 t2 : list event) :
  printedMatches (t1 ++ t2) = printedMatches t1 ++ printedMatches t2.
Proof. apply flat_map_app. Qed.

Lemma matchedSizes_app (search : searchCondition) (t1 t2 : list event) :
  matchedSizes search (t1 ++ t2) = matchedSizes search t1 ++ matchedSizes search t2.
Proof. unfold matchedSizes. now rewrite flat_map_app, filter_app, map_app. Qed.

Lemma scanCalls_app (t1 t2 : list event) :
  scanCalls (t1 ++ t2) = scanCalls t1 ++ scanCalls t2.
Proof. apply flat_map_app. Qed.

Lemma purgeCounts_silent (v : purgeVars) (t : list event) :
  existsCalls t = [] -> sleeps t = [] -> passes t = 0 -> delCalls t = [] ->
  purgeCounts v v t.
Proof.
  intros He Hs Hp Hd. unfold purgeCounts, deletedOk, failedDels.
  rewrite He, Hs, Hp, Hd.
  split; [reflexivity | split; [reflexivity | split; [reflexivity |]]].
  intros Hi Hj. cbn [filter map len length Z.of_nat]. rewrite !Z.add_0_r.
  rewrite (wrap64_small _ Hi), (wrap64_small _ Hj).
  split; [reflexivity | split; [reflexivity | split; assumption]].
Qed.

Lemma purgeCounts_app (v v1 v2 : purgeVars) (t1 t2 : list event) :
  purgeCounts v v1 t1 -> purgeCounts v1 v2 t2 -> purgeCounts v v2 (t1 ++ t2).
Proof.
  intros (He1 & Hs1 & Hp1 & Hc1) (He2 & Hs2 & Hp2 & Hc2). unfold purgeCounts.
  rewrite existsCalls_app, sleeps_app, passes_app, He1, He2, Hs1, Hs2, Hp1, Hp2.
  split; [reflexivity | split; [reflexivity | split; [reflexivity |]]].
  intros Hi Hj.
  destruct (Hc1 Hi Hj) as (Hd1 & Hf1 & Hi1 & Hj1).
  destruct (Hc2 Hi1 Hj1) as (Hd2 & Hf2 & Hi2 & Hj2).
  split; [| split; [| now split]].
  - rewrite Hd2, Hd1, wrap64_add, deletedOk_app, len_app. f_equal. lia.
  - rewrite Hf2, Hf1, wrap64_add, failedDels_app, len_app. f_equal. lia.
Qed.

Lemma listCounts_silent (search : searchCondition) (v : listVars) (t : list event) :
  delCalls t = [] -> existsCalls t = [] -> sleeps t = [] ->
  printedMatches t = [] -> matchedSizes search t = [] ->
  listCounts search v v t.
Proof.
  intros Hd He Hs Hp Hm. unfold listCounts. rewrite Hd, He, Hs, Hp, Hm.
  split; [reflexivity | split; [reflexivity | split; [reflexivity | split; [reflexivity |]]]].
  intros Hi Hj. cbn [map len length Z.of_nat sumZ fold_right]. rewrite !Z.add_0_r.
  rewrite (wrap64_small _ Hi), (wrap64_small _ Hj).
  split; [reflexivity | split; [reflexivity | split; assumption]].
Qed.

Lemma listCounts_app (search : searchCondition) (v v1 v2 : listVars)
    (t1 t2 : list event) :
  listCounts search v v1 t1 -> listCounts search v1 v2 t2 ->
  listCounts search v v2 (t1 ++ t2).
Proof.
  intros (Hd1 & He1 & Hs1 & Hm1 & Hc1) (Hd2 & He2 & Hs2 & Hm2 & Hc2).
  unfold listCounts.
  rewrite delCalls_app, existsCalls_app, sleeps_app, printedMatches_app,
    matchedSizes_app, Hd1, Hd2, He1, He2, Hs1, Hs2, Hm1, Hm2.
  split; [reflexivity | split; [reflexivity | split; [reflexivity | split; [reflexivity |]]]].
  intros Hi Hj.
  destruct (Hc1 Hi Hj) as (Hk1 & Ht1 & Hi1 & Hj1).
  destruct (Hc2 Hi1 Hj1) as (Hk2 & Ht2 & Hi2 & Hj2).
  split; [| split; [| now split]].
  - rewrite Hk2, Hk1, wrap64_add, <- Hm1, <- Hm2, len_app. f_equal. lia.
  - rewrite Ht2, Ht1, wrap64_add, <- Hm1, <- Hm2, map_app, sumZ_app. f_equal. lia.
Qed.

Section Counting.

Context {World : Type}.
Variable r : redisSearch World.

Lemma purgePass_counts (fuel : nat) (search : searchCondition) (w w' : World)
    (err : option error) (v : purgeVars) (t : list event) :
  purgePass r fuel search w = Some ((err, v), w', t) -> purgeCounts purgeVars0 v t.
Proof.
  unfold purgePass.
  apply (matchingKeysDo_rule r search (deleteAction r) purgeCounts).
  - intros a. now apply purgeCounts_silent.
  - apply purgeCounts_app.
  - intros a key w0 w1 e t0 Hf.
    destruct (fetchValue_events r _ _ _ _ _ _ Hf) as [-> | (hres & -> & _)];
      now apply purgeCounts_silent.
  - intros a key w0 w1 value t0 Hf _.
    destruct (fetchValue_events r _ _ _ _ _ _ Hf) as [-> | (hres & -> & _)];
      now apply purgeCounts_silent.
  - intros a key w0 w1 value t0 err0 a' w2 t1 Hf _.
    rewrite deleteAction_run.
    assert (Ht0 : purgeCounts a a t0)
      by (destruct (fetchValue_events r _ _ _ _ _ _ Hf) as [-> | (hres & -> & _)];
          now apply purgeCounts_silent).
    intros Hact. apply purgeCounts_app with (v1 := a); [exact Ht0 |].
    destruct (Del (client r) key w1) as [[e|] w3]; injection Hact as _ <- _ <-;
      (split; [reflexivity | split; [reflexivity | split; [reflexivity |]]]);
      intros Hi Hj.
    + change (deletedKeyCount a = wrap64 (deletedKeyCount a + 0) /\
              add64 (failedDeleteCount a) 1 = wrap64 (failedDeleteCount a + 1) /\
              in_int (deletedKeyCount a) /\ in_int (add64 (failedDeleteCount a) 1)).
      rewrite Z.add_0_r, (wrap64_small _ Hi).
      split; [reflexivity | split; [reflexivity | split; [exact Hi | apply wrap64_in_int]]].
    + change (add64 (deletedKeyCount a) 1 = wrap64 (deletedKeyCount a + 1) /\
              failedDeleteCount a = wrap64 (failedDeleteCount a + 0) /\
              in_int (add64 (deletedKeyCount a) 1) /\ in_int (failedDeleteCount a)).
      rewrite Z.add_0_r, (wrap64_small _ Hj).
      split; [reflexivity | split; [reflexivity | split; [apply wrap64_in_int | exact Hj]]].
  - intros a res. now apply purgeCounts_silent.
  - intros a c res. now apply purgeCounts_silent.
  - intros a total vis keys c. unfold pageLog.
    destruct (Debug r), (Progress r); now apply purgeCounts_silent.
Qed.

Lemma listAction_run (key : string) (value : bytes) (v : listVars) (w : World) :
  listAction key value v w =
    Some ((None, {| matchingKeyCount := add64 (matchingKeyCount v) 1;
                    matchingValuesTotalSize :=
                      add64 (matchingValuesTotalSize v) (len value) |}),
          w, [PrintMatch key (len value)]).
Proof. reflexivity. Qed.

Lemma listPass_counts (fuel : nat) (search : searchCondition) (w w' : World)
    (err : option error) (v0 v : listVars) (t : list event) :
  matchingKeysDo r search listAction fuel v0 w = Some ((err, v), w', t) ->
  listCounts search v0 v t.
Proof.
  apply (matchingKeysDo_rule r search listAction (listCounts search)).
  - intros a. now apply listCounts_silent.
  - apply listCounts_app.
  - intros a key w0 w1 e t0 Hf.
    destruct (fetchValue_events r _ _ _ _ _ _ Hf) as [-> | (hres & -> & Hres)];
      [| destruct hres; [discriminate |]]; now apply listCounts_silent.
  - intros a key w0 w1 value t0 Hf Hm.
    destruct (fetchValue_events r _ _ _ _ _ _ Hf) as [-> | (hres & -> & Hres)];
      [| destruct hres as [h|]; [| discriminate]; injection Hres as ->];
      apply listCounts_silent; trivial; unfold matchedSizes; cbn; now rewrite Hm.
  - intros a key w0 w1 value t0 err0 a' w2 t1 Hf Hm.
    rewrite listAction_run. intros Hact; injection Hact as _ <- _ <-.
    assert (Hev : delCalls (t0 ++ [PrintMatch key (len value)]) = [] /\
                  existsCalls (t0 ++ [PrintMatch key (len value)]) = [] /\
                  sleeps (t0 ++ [PrintMatch key (len value)]) = [] /\
                  printedMatches (t0 ++ [PrintMatch key (len value)]) = [(key, len value)] /\
                  matchedSizes search (t0 ++ [PrintMatch key (len value)])
                    = [(key, len value)]).
    { destruct (fetchValue_events r _ _ _ _ _ _ Hf) as [-> | (hres & -> & Hres)];
        [| destruct hres as [h|]; [| discriminate]; injection Hres as ->];
        repeat split; unfold matchedSizes; cbn; now rewrite Hm. }
    destruct Hev as (Hd & He & Hs & Hp & Hms). unfold listCounts.
    rewrite Hd, He, Hs, Hp, Hms.
    split; [reflexivity | split; [reflexivity | split; [reflexivity | split; [reflexivity |]]]].
    intros Hi Hj. cbn [matchingKeyCount matchingValuesTotalSize map snd sumZ fold_right].
    rewrite Z.add_0_r.
    split; [reflexivity | split; [reflexivity | split; apply wrap64_in_int]].
  - intros a res. now apply listCounts_silent.
  - intros a c res. now apply listCounts_silent.
  - intros a total vis keys c. unfold pageLog.
    destruct (Debug r), (Progress r); now apply listCounts_silent.
Qed.

Lemma purgePass_collects (fuel : nat) (search : searchCondition) (w w' : World)
    (err : option error) (v : purgeVars) (t : list event) :
  purgePass r fuel search w = Some ((err, v), w', t) -> collects search purgeVars0 v t.
Proof.
  unfold purgePass.
  apply (matchingKeysDo_rule r search (deleteAction r) (collects search)).
  - intros a. now apply collects_nothing.
  - apply collects_after.
  - intros a key w0 w1 e t0 Hf.
    destruct (fetchValue_events r _ _ _ _ _ _ Hf) as [-> | (hres & -> & Hres)];
      [| destruct hres; [discriminate |]]; now apply collects_nothing.
  - intros a key w0 w1 value t0 Hf Hm.
    destruct (fetchValue_total r key (AccessMode search) w0)
      as (res & w2 & t2 & Hf' & Hdel & Hfetched).
    rewrite Hf in Hf'. injection Hf' as <- <- <-.
    now apply collects_unmatched with (key := key) (value := value).
  - intros a key w0 w1 value t0 err0 a' w2 t1 Hf Hm.
    destruct (fetchValue_total r key (AccessMode search) w0)
      as (res & w3 & t3 & Hf' & Hdel & Hfetched).
    rewrite Hf in Hf'. injection Hf' as <- <- <-.
    rewrite deleteAction_run.
    destruct (Del (client r) key w1) as [[e|] w4]; intros Hact;
      injection Hact as _ <- _ <-;
      eapply collects_key with (key := key) (value := value);
      try eassumption; reflexivity.
  - intros a res. now apply collects_nothing.
  - intros a c res. now apply collects_nothing.
  - intros a total vis keys c. unfold pageLog.
    destruct (Debug r), (Progress r); now apply collects_nothing.
Qed.

Lemma delCalls_partition (t : list event) :
  len (deletedOk t) + len (failedDels t) = len (delCalls t).
Proof.
  unfold deletedOk, failedDels, len. rewrite length_map.
  induction (delCalls t) as [|[k [e|]] l IH]; cbn [filter snd length]; lia.
Qed.

(** X11: unless [WAIT_AND_REDELETE] is set and the initial pass returned
    [nil], [deleteMatchingKeys] returns what the initial pass returned, makes
    no existence check and never sleeps; the summary line is still the last
    thing it prints. *)
Theorem reconciliation_is_gated (getenv : environ) (fuel : nat)
    (search : searchCondition) (repeatDeletes : bool) (w w1 : World)
    (err0 : option error) (v : purgeVars) (t1 : list event) :
  purgePass r fuel search w = Some ((err0, v), w1, t1) ->
  repeatDeletes = false \/ err0 <> None ->
  let t := LogDeleting search :: t1 ++ [deletedSummary search v] in
  deleteMatchingKeys r getenv fuel search repeatDeletes w = Some (err0, w1, t) /\
  existsCalls t = [] /\ sleeps t = [] /\ passes t = 0.
Proof.
  intros Hpass Hgate t.
  destruct (purgePass_counts _ _ _ _ _ _ _ Hpass) as (He & Hs & Hp & _).
  split.
  - rewrite deleteMatchingKeys_run, Hpass.
    destruct err0 as [e|]; [reflexivity |].
    destruct Hgate as [-> | Hne]; [reflexivity | congruence].
  - unfold t. change (LogDeleting search :: t1 ++ [deletedSummary search v])
      with ([LogDeleting search] ++ t1 ++ [deletedSummary search v]).
    rewrite !existsCalls_app, !sleeps_app, !passes_app, He, Hs, Hp.
    now repeat split.
Qed.

(** X12: the counts in the summary of [deleteMatchingKeys] are those of the
    delete calls of the initial pass, modulo 2^64: [deletedKeyCount] the
    calls that returned no error, [failedDeleteCount] those that failed, one
    or the other for every key handed to the reconciliation; what the
    reconciliation deletes again is not counted. *)
Theorem summary_counts_initial_deletes (getenv : environ) (fuel : nat)
    (search : searchCondition) (repeatDeletes : bool) (w w' : World)
    (err : option error) (t : list event) :
  deleteMatchingKeys r getenv fuel search repeatDeletes w = Some (err, w', t) ->
  exists err0 v w1 t1 t2,
    purgePass r fuel search w = Some ((err0, v), w1, t1) /\
    t = LogDeleting search :: t1 ++ t2 ++ [deletedSummary search v] /\
    deletedKeyCount v = wrap64 (len (deletedOk t1)) /\
    failedDeleteCount v = wrap64 (len (failedDels t1)) /\
    len (deletedOk t1) + len (failedDels t1) = len (deletedKeys v).
Proof.
  rewrite deleteMatchingKeys_run.
  destruct (purgePass r fuel search w) as [[[[err0 v] w1] t1]|] eqn:Hpass;
    [| discriminate].
  destruct (purgePass_counts _ _ _ _ _ _ _ Hpass) as (_ & _ & _ & Hc).
  destruct Hc as (Hd & Hf & _); [cbn; unfold in_int, min_int, max_int; lia .. |].
  destruct (purgePass_collects _ _ _ _ _ _ _ Hpass) as [Hk _]. cbn in Hk, Hd, Hf.
  assert (Hlen : len (deletedOk t1) + len (failedDels t1) = len (deletedKeys v))
    by (rewrite delCalls_partition, Hk; unfold len; now rewrite length_map).
  intros H. exists err0, v, w1, t1.
  destruct err0 as [e|]; [| destruct repeatDeletes;
    [destruct (repeatDeleteKeys r getenv fuel (deletedKeys v) w1) as [[[err' w2] t2]|];
       [| discriminate] |]].
  - exists []. injection H as _ _ <-. now repeat split.
  - exists t2. injection H as _ _ <-. now repeat split.
  - exists []. injection H as _ _ <-. now repeat split.
Qed.

(** X13: [listMatchingKeys] only reads: it makes no delete call and no
    existence check and never sleeps; it prints the keys whose value matched
    (once per time the scan returned them, in that order) with the sizes of
    their values, and its summary carries their number and the sum of the
    sizes, modulo 2^64. *)
Theorem listMatchingKeys_only_reads (fuel : nat) (search : searchCondition)
    (w w' : World) (err : option error) (t : list event) :
  listMatchingKeys r fuel search w = Some (err, w', t) ->
  delCalls t = [] /\ existsCalls t = [] /\ sleeps t = [] /\
  exists t1 count total,
    t = LogListing search :: t1 ++ [LogFound count total (average total count) search] /\
    printedMatches t1 = matchedSizes search t1 /\
    count = wrap64 (len (printedMatches t1)) /\
    total = wrap64 (sumZ (map snd (printedMatches t1))).
Proof.
  unfold listMatchingKeys. rewrite bind_emit, bind_run.
  destruct (matchingKeysDo r search listAction fuel
              {| matchingKeyCount := 0; matchingValuesTotalSize := 0 |} w)
    as [[[[err0 v] w1] t1]|] eqn:Hpass; [| discriminate].
  destruct (listPass_counts _ _ _ _ _ _ _ _ Hpass) as (Hd & He & Hs & Hm & Hc).
  destruct Hc as (Hk & Ht & _); [cbn; unfold in_int, min_int, max_int; lia .. |].
  cbn in Hk, Ht. cbn. intros H; injection H as _ _ <-.
  change (LogListing search
            :: t1 ++ [LogFound (matchingKeyCount v) (matchingValuesTotalSize v)
                        (average (matchingValuesTotalSize v) (matchingKeyCount v)) search])
    with ([LogListing search] ++ t1 ++
          [LogFound (matchingKeyCount v) (matchingValuesTotalSize v)
             (average (matchingValuesTotalSize v) (matchingKeyCount v)) search]).
  rewrite !delCalls_app, !existsCalls_app, !sleeps_app, Hd, He, Hs.
  split; [reflexivity | split; [reflexivity | split; [reflexivity |]]].
  exists t1, (matchingKeyCount v), (matchingValuesTotalSize v).
  now repeat split.
Qed.

End Counting.

(** ** The scan cursor, and what ends a pass early *)

Lemma scanCalls_pageLog {World} (r : redisSearch World)
    (totalKeys visitingKeys : Z) (keys : list string) (scanCursor' : Z) :
  scanCalls (pageLog r totalKeys visitingKeys keys scanCursor') = [].
Proof. unfold pageLog. destruct (Debug r), (Progress r); reflexivity. Qed.

Section Cursor.

Context {World : Type} {A : Type}.
Variable r : redisSearch World.

Lemma deleteAction_plain : plainAction (deleteAction r).
Proof.
  intros key value v w err v' w' t. rewrite deleteAction_run.
  destruct (Del (client r) key w) as [[e|] w1]; intros H;
    injection H as <- _ _ <-; now split.
Qed.

Lemma listAction_plain : plainAction (@listAction World).
Proof.
  intros key value v w err v' w' t. rewrite listAction_run.
  intros H; injection H as <- _ _ <-. now split.
Qed.

Variable search : searchCondition.
Variable action : string -> bytes -> A -> M World (option error * A).
Hypothesis action_plain : plainAction action.

Lemma visitKeys_plain (keys : list string) :
  forall (a a' : A) (w w' : World) (err : option error) (t : list event),
    visitKeys r search action keys a w = Some ((err, a'), w', t) ->
    err = None /\ scanCalls t = [].
Proof.
  induction keys as [|key rest IH]; intros a a' w w' err t.
  - intros H; injection H as <- _ _ <-. now split.
  - destruct (fetchValue_total r key (AccessMode search) w) as (res & w0 & t0 & Hf & _).
    assert (Hs0 : scanCalls t0 = []).
    { destruct (fetchValue_events r _ _ _ _ _ _ Hf) as [-> | (hres & -> & _)];
        reflexivity. }
    destruct res as [value|e].
    + rewrite (visitKeys_fetched r _ _ _ _ _ _ _ _ _ Hf).
      destruct (Matcher search value).
      * destruct (action key value a w0) as [[[[[e|] a1] w1] t1]|] eqn:Hact;
          cbn [after]; try discriminate.
        -- destruct (action_plain _ _ _ _ _ _ _ _ Hact) as [? _]; discriminate.
        -- destruct (action_plain _ _ _ _ _ _ _ _ Hact) as [_ Hs1].
           destruct (visitKeys r search action rest a1 w1)
             as [[[[err2 a2] w2] t2]|] eqn:Hrest; cbn [after]; [| discriminate].
           intros H; injection H as <- _ _ <-.
           destruct (IH _ _ _ _ _ _ Hrest) as [-> Hs2].
           split; [reflexivity |]. now rewrite !scanCalls_app, Hs0, Hs1, Hs2.
      * destruct (visitKeys r search action rest a w0)
          as [[[[err2 a2] w2] t2]|] eqn:Hrest; cbn [after]; [| discriminate].
        intros H; injection H as <- _ _ <-.
        destruct (IH _ _ _ _ _ _ Hrest) as [-> Hs2].
        split; [reflexivity |]. now rewrite !scanCalls_app, Hs0, Hs2.
    + rewrite (visitKeys_skipped r _ _ _ _ _ _ _ _ _ Hf).
      destruct (visitKeys r search action rest a w0)
        as [[[[err2 a2] w2] t2]|] eqn:Hrest; cbn [after]; [| discriminate].
      intros H; injection H as <- _ _ <-.
      destruct (IH _ _ _ _ _ _ Hrest) as [-> Hs2].
      split; [reflexivity |]. now rewrite !scanCalls_app, Hs0, Hs2.
Qed.

Lemma scanLoop_plain (fuel : nat) :
  forall (totalKeys scanCursor visitingKeys : Z) (a a' : A) (w w' : World)
         (err : option error) (t : list event),
    scanLoop r search action fuel totalKeys scanCursor visitingKeys a w
      = Some ((err, a'), w', t) ->
    chained scanCursor (scanCalls t) /\
    match err with
    | None => exists calls cursor keys, scanCalls t = calls ++ [(cursor, Ok (keys, 0))]
    | Some e => exists t0 cursor, t = t0 ++ [CallScan cursor (Err e)]
    end.
Proof.
  induction fuel as [|fuel IH]; intros totalKeys scanCursor visitingKeys a a' w w' err t;
    [discriminate |].
  rewrite scanLoop_step.
  destruct (Scan (client r) scanCursor "" 50 w) as [[[keys scanCursor']|e] w1].
  - set (head := CallScan scanCursor (Ok (keys, scanCursor'))
                   :: pageLog r totalKeys visitingKeys keys scanCursor').
    assert (Hhead : scanCalls head = [(scanCursor, Ok (keys, scanCursor'))]).
    { change (scanCalls ([CallScan scanCursor (Ok (keys, scanCursor'))]
                           ++ pageLog r totalKeys visitingKeys keys scanCursor') = 
              [(scanCursor, Ok (keys, scanCursor'))]).
      now rewrite scanCalls_app, scanCalls_pageLog. }
    destruct (visitKeys r search action keys a w1)
      as [[[[[e|] a1] w2] t1]|] eqn:Hpage; try discriminate.
    + destruct (visitKeys_plain _ _ _ _ _ _ _ Hpage); discriminate.
    + destruct (visitKeys_plain _ _ _ _ _ _ _ Hpage) as [_ Hs1].
      destruct (scanCursor' =? 0) eqn:Hc.
      * cbn [after]. intros H; injection H as <- _ _ Ht.
        assert (Ht' : t = head ++ t1) by (rewrite <- Ht; reflexivity).
        rewrite Ht', scanCalls_app, Hhead, Hs1. cbn [app chained]. rewrite Hc.
        split; [now split |].
        apply Z.eqb_eq in Hc. subst scanCursor'. now exists [], scanCursor, keys.
      * destruct (scanLoop r search action fuel totalKeys scanCursor'
                    (add64 visitingKeys (len keys)) a1 w2)
          as [[[[err2 a2] w3] t2]|] eqn:Hloop; cbn [after]; [| discriminate].
        intros H; injection H as <- _ _ Ht.
        assert (Ht' : t = head ++ t1 ++ t2) by (rewrite <- Ht; reflexivity).
        destruct (IH _ _ _ _ _ _ _ _ _ Hloop) as [Hch Hend].
        rewrite Ht', !scanCalls_app, Hhead, Hs1. cbn [app chained]. rewrite Hc.
        split; [now split |].
        destruct err2 as [e|].
        -- destruct Hend as (t0 & c & ->). exists (head ++ t1 ++ t0), c.
           now rewrite <- !app_assoc.
        -- destruct Hend as (calls & c & ks & ->).
           now exists ((scanCursor, Ok (keys, scanCursor')) :: calls), c, ks.
  - intros H; injection H as <- _ _ <-. cbn. split; [now split |].
    now exists [], scanCursor.
Qed.

(** X14: with a closure that returns no error, as both closures of the
    program are, [matchingKeysDo] returns an error in two cases only: the
    key count failed, and then nothing else was called and the error is
    wrapped; or a scan call failed, and then that call is the last thing the
    run did and its error is returned as it is. A value that cannot be read
    or a delete that fails never ends the pass. *)
Theorem only_count_and_scan_abort (fuel : nat) (a a' : A) (w w' : World)
    (e : error) (t : list event) :
  matchingKeysDo r search action fuel a w = Some ((Some e, a'), w', t) ->
  (exists e0, e = CountKeysError e0 /\ t = [CallDBSize (Err e0)] /\ a' = a) \/
  (exists t0 cursor, t = t0 ++ [CallScan cursor (Err e)]).
Proof.
  rewrite matchingKeysDo_run.
  destruct (DBSize (client r) w) as [[totalKeys|e0] w1].
  - destruct (scanLoop r search action fuel totalKeys 0 0 a w1)
      as [[[[err2 a2] w3] t2]|] eqn:Hloop; cbn [after]; [| discriminate].
    intros H; injection H as -> _ _ <-.
    destruct (scanLoop_plain _ _ _ _ _ _ _ _ _ _ Hloop) as [_ (t0 & c & ->)].
    right. now exists ([CallDBSize (Ok totalKeys)] ++ t0), c.
  - intros H; injection H as <- <- _ <-. left. now exists e0.
Qed.

(** X15: the scan calls of [matchingKeysDo] follow the cursor: the first
    passes 0, each later one the cursor the call before returned, and no
    call follows a failed one or one that returned cursor 0; a run that
    returns [nil] has made at least one scan call, and its last one returned
    cursor 0. *)
Theorem scan_follows_cursor (fuel : nat) (a a' : A) (w w' : World)
    (err : option error) (t : list event) :
  matchingKeysDo r search action fuel a w = Some ((err, a'), w', t) ->
  chained 0 (scanCalls t) /\
  (err = None ->
   exists calls cursor keys, scanCalls t = calls ++ [(cursor, Ok (keys, 0))]).
Proof.
  rewrite matchingKeysDo_run.
  destruct (DBSize (client r) w) as [[totalKeys|e0] w1].
  - destruct (scanLoop r search action fuel totalKeys 0 0 a w1)
      as [[[[err2 a2] w3] t2]|] eqn:Hloop; cbn [after]; [| discriminate].
    intros H; injection H as -> _ _ <-.
    destruct (scanLoop_plain _ _ _ _ _ _ _ _ _ _ Hloop) as [Hch Hend].
    change (scanCalls ([CallDBSize (Ok totalKeys)] ++ t2)) with (scanCalls t2).
    split; [exact Hch |]. intros ->. exact Hend.
  - intros H; injection H as <- _ _ <-. split; [exact I | discriminate].
Qed.

End Cursor.

(** ** The entry point *)

Section Entry.

Context {World : Type}.
Variable ToLower : string -> string.

(** X16: what [main] does to the store is decided by two settings. Unless
    [DELETE_MATCHING_KEYS] is set to a true value it makes no delete call;
    unless [WAIT_AND_REDELETE] is set to a true value as well it makes no
    existence check and never sleeps; and called without a pattern it makes
    no call at all and exits through [usage]. *)
Theorem main_is_gated (c : Client World) (args : list string) (getenv : environ)
    (fuel : nat) (w w' : World) (x : exit) (t : list event) :
  main ToLower c args getenv fuel w = Some (x, w', t) ->
  (envBool ToLower getenv "DELETE_MATCHING_KEYS" "false" = false -> delCalls t = []) /\
  (envBool ToLower getenv "DELETE_MATCHING_KEYS" "false" = false \/
   envBool ToLower getenv "WAIT_AND_REDELETE" "false" = false ->
   existsCalls t = [] /\ sleeps t = []) /\
  ((length args < 2)%nat -> x = ExitUsage /\ w' = w /\ t = []).
Proof.
  destruct args as [|arg0 [|arg1 rest]];
    [intros H; injection H as <- <- <-; now repeat split .. |].
  unfold main.
  set (search := {| client := c;
                    Debug := negb (String.eqb (getenv "DEBUG"%string) "");
                    Progress := envBool ToLower getenv "PROGRESS" "true" |}).
  set (needle := {| AccessMode := parseValueAccessMode ToLower (getenv "ACCESS_MODE"%string);
                    SizeThreshold := envInt getenv "SIZE_THRESHOLD" 0;
                    Search := arg1;
                    Occurrences := envInt getenv "REQUIRED_MATCH_COUNT" 0 |}).
  cbv zeta.
  destruct (envBool ToLower getenv "DELETE_MATCHING_KEYS" "false").
  - rewrite bind_run, deleteMatchingKeys_run.
    destruct (purgePass search fuel needle w) as [[[[err0 v] w1] t1]|] eqn:Hpass;
      [| discriminate].
    destruct (purgePass_counts _ _ _ _ _ _ _ _ Hpass) as (He & Hs & _).
    assert (Hquiet : existsCalls (LogDeleting needle :: t1 ++ [deletedSummary needle v]) = []
                     /\ sleeps (LogDeleting needle :: t1 ++ [deletedSummary needle v]) = []).
    { change (LogDeleting needle :: t1 ++ [deletedSummary needle v])
        with ([LogDeleting needle] ++ t1 ++ [deletedSummary needle v]).
      rewrite !existsCalls_app, !sleeps_app, He, Hs. now split. }
    destruct err0 as [e|];
      [| destruct (envBool ToLower getenv "WAIT_AND_REDELETE" "false");
         [destruct (repeatDeleteKeys search getenv fuel (deletedKeys v) w1)
            as [[[err' w2] t2]|]; [| discriminate] |]];
      cbn [after ret]; intros H; injection H as _ _ <-; rewrite ?app_nil_r;
      (split; [discriminate |]); (split; [| cbn [length]; lia]).
    + intros _. exact Hquiet.
    + intros [Hd | Hr]; discriminate.
    + intros _. exact Hquiet.
  - rewrite bind_run. unfold listMatchingKeys. rewrite bind_emit, bind_run.
    destruct (matchingKeysDo search needle listAction fuel
                {| matchingKeyCount := 0; matchingValuesTotalSize := 0 |} w)
      as [[[[err0 v] w1] t1]|] eqn:Hpass; [| discriminate].
    destruct (listPass_counts _ _ _ _ _ _ _ _ _ Hpass) as (Hd & He & Hs & _).
    cbn. intros H; injection H as _ _ <-. rewrite app_nil_r.
    change (LogListing needle
              :: t1 ++ [LogFound (matchingKeyCount v) (matchingValuesTotalSize v)
                          (average (matchingValuesTotalSize v) (matchingKeyCount v)) needle])
      with ([LogListing needle] ++ t1 ++
            [LogFound (matchingKeyCount v) (matchingValuesTotalSize v)
               (average (matchingValuesTotalSize v) (matchingKeyCount v)) needle]).
    rewrite !delCalls_app, !existsCalls_app, !sleeps_app, Hd, He, Hs.
    split; [reflexivity | split; [now split | lia]].
Qed.

End Entry.

(** ** The properties above, on the scripted store *)

(** The key count fails: the reconciliation is not entered although it was
    asked for. *)
Lemma reconciliation_is_gated_witness :
  let w := broken store [] [] [] true in
  let t := [LogDeleting (exactNull 0); CallDBSize (Err ioError);
            deletedSummary (exactNull 0) purgeVars0] in
  purgePass memSearch 5 (exactNull 0) w
    = Some ((Some (CountKeysError ioError), purgeVars0), w, [CallDBSize (Err ioError)]) /\
  deleteMatchingKeys memSearch noenv 5 (exactNull 0) true w
    = Some (Some (CountKeysError ioError), w, t) /\
  existsCalls t = [] /\ sleeps t = [] /\ passes t = 0.
Proof.
  intros w t.
  assert (Hpass : purgePass memSearch 5 (exactNull 0) w
                  = Some ((Some (CountKeysError ioError), purgeVars0), w,
                          [CallDBSize (Err ioError)])) by reflexivity.
  assert (Hne : Some (CountKeysError ioError) <> None) by discriminate.
  split; [exact Hpass |].
  exact (reconciliation_is_gated memSearch noenv 5 (exactNull 0) true w w
           (Some (CountKeysError ioError)) purgeVars0 [CallDBSize (Err ioError)]
           Hpass (or_intror Hne)).
Defined.

(** Key [a] is written back once and deleted again by the reconciliation:
    three deletes succeed, the summary counts the two of the initial pass. *)
Lemma summary_counts_initial_deletes_witness :
  let w := withWriters store ["a"]%string in
  exists err w' t,
    deleteMatchingKeys memSearch (cleanMin "1") 5 (exactNull 0) true w
      = Some (err, w', t) /\
    deletedOk t = ["a"; "c"; "a"]%string /\
    exists err0 v w1 t1 t2,
      purgePass memSearch 5 (exactNull 0) w = Some ((err0, v), w1, t1) /\
      t = LogDeleting (exactNull 0) :: t1 ++ t2 ++ [deletedSummary (exactNull 0) v] /\
      deletedKeyCount v = wrap64 (len (deletedOk t1)) /\
      failedDeleteCount v = wrap64 (len (failedDels t1)) /\
      len (deletedOk t1) + len (failedDels t1) = len (deletedKeys v).
Proof.
  intros w. do 3 eexists. split; [reflexivity |]. split; [reflexivity |].
  eapply (summary_counts_initial_deletes memSearch (cleanMin "1") 5 (exactNull 0) true w
           _ None).
  reflexivity.
Defined.

Lemma listMatchingKeys_only_reads_witness :
  exists err w' t,
    listMatchingKeys memSearch 5 (exactNull 0) store = Some (err, w', t) /\
    printedMatches t = [("a", 4); ("c", 4)]%string /\
    delCalls t = [] /\ existsCalls t = [] /\ sleeps t = [] /\
    exists t1 count total,
      t = LogListing (exactNull 0)
            :: t1 ++ [LogFound count total (average total count) (exactNull 0)] /\
      printedMatches t1 = matchedSizes (exactNull 0) t1 /\
      count = wrap64 (len (printedMatches t1)) /\
      total = wrap64 (sumZ (map snd (printedMatches t1))).
Proof.
  do 3 eexists. split; [reflexivity |]. split; [reflexivity |].
  eapply (listMatchingKeys_only_reads memSearch 5 (exactNull 0) store store None).
  reflexivity.
Defined.

(** The second scan call fails: key [a] of the first page was deleted, and
    the failed call ends the run with its error. *)
Lemma only_count_and_scan_abort_witness :
  exists v w' t,
    plainAction (deleteAction scanFails) /\
    matchingKeysDo scanFails (exactNull 0) (deleteAction scanFails) 5 purgeVars0 store
      = Some ((Some ioError, v), w', t) /\
    deletedOk t = ["a"]%string /\
    ((exists e0, ioError = CountKeysError e0 /\ t = [CallDBSize (Err e0)] /\
                 v = purgeVars0) \/
     (exists t0 cursor, t = t0 ++ [CallScan cursor (Err ioError)])).
Proof.
  do 3 eexists. split; [apply deleteAction_plain |].
  split; [reflexivity |]. split; [reflexivity |].
  eapply (only_count_and_scan_abort scanFails (exactNull 0) (deleteAction scanFails)
           (deleteAction_plain scanFails) 5 purgeVars0 _ store).
  reflexivity.
Defined.

Lemma scan_follows_cursor_witness :
  let v0 := {| matchingKeyCount := 0; matchingValuesTotalSize := 0 |} in
  exists v w' t,
    plainAction (@listAction mem) /\
    matchingKeysDo memSearch (exactNull 0) listAction 5 v0 store
      = Some ((None, v), w', t) /\
    scanCalls t = [(0, Ok (["a"; "b"]%string, 1)); (1, Ok (["c"]%string, 0))] /\
    chained 0 (scanCalls t) /\
    (@None error = None ->
     exists calls cursor keys, scanCalls t = calls ++ [(cursor, Ok (keys, 0))]).
Proof.
  intros v0. do 3 eexists. split; [apply listAction_plain |].
  split; [reflexivity |]. split; [reflexivity |].
  eapply (scan_follows_cursor memSearch (exactNull 0) listAction listAction_plain
           5 v0 _ store).
  reflexivity.
Defined.

(** Nothing is set but the access mode: [main] lists the two keys that hold
    the pattern and deletes nothing. *)
Lemma main_is_gated_witness :
  let getenv : environ :=
    fun name => if String.eqb name "ACCESS_MODE" then "STRING"%string else EmptyString in
  let args := ["redis-purge"; "null"]%string in
  exists w' t,
    main asciiToLower memClient args getenv 5 store = Some (ExitOk, w', t) /\
    printedMatches t = [("a", 4); ("c", 4)]%string /\
    (envBool asciiToLower getenv "DELETE_MATCHING_KEYS" "false" = false ->
     delCalls t = []) /\
    (envBool asciiToLower getenv "DELETE_MATCHING_KEYS" "false" = false \/
     envBool asciiToLower getenv "WAIT_AND_REDELETE" "false" = false ->
     existsCalls t = [] /\ sleeps t = []) /\
    ((length args < 2)%nat -> ExitOk = ExitUsage /\ w' = store /\ t = []).
Proof.
  intros getenv args. do 2 eexists. split; [unfold args; reflexivity |].
  split; [reflexivity |].
  eapply (main_is_gated asciiToLower memClient args getenv 5 store).
  unfold args. reflexivity.
Defined.

(** * Failures of single calls *)

(** ** What the closures leave to the scan loop *)

Lemma ofAction_silent (t : list event) :
  forallb ofAction t = true ->
  scanCalls t = [] /\ scannedKeys t = [] /\ visitedKeys t = [] /\
  fetchFailures t = [] /\ skipLines t = [].
Proof.
  induction t as [|e t IH]; [now repeat split |].
  cbn [forallb]. intros H. apply andb_prop in H as [He Ht].
  destruct (IH Ht) as (H1 & H2 & H3 & H4 & H5).
  unfold scanCalls, scannedKeys, visitedKeys, fetchFailures, skipLines in *.
  cbn [flat_map]. rewrite H1, H2, H3, H4, H5.
  destruct e; try discriminate He; now repeat split.
Qed.

Lemma quietAction_plain {World A : Type}
    (action : string -> bytes -> A -> M World (option error * A)) :
  quietAction action -> plainAction action.
Proof.
  intros Hq key value a w err a' w' t Hact.
  destruct (Hq _ _ _ _ _ _ _ _ Hact) as [-> Ht].
  split; [reflexivity | now apply ofAction_silent].
Qed.

Lemma fetchFailures_app (t1 t2 : list event) :
  fetchFailures (t1 ++ t2) = fetchFailures t1 ++ fetchFailures t2.
Proof. apply flat_map_app. Qed.

Lemma skipLines_app (t1 t2 : list event) :
  skipLines (t1 ++ t2) = skipLines t1 ++ skipLines t2.
Proof. apply flat_map_app. Qed.

Lemma visitedKeys_app (t1 t2 : list event) :
  visitedKeys (t1 ++ t2) = visitedKeys t1 ++ visitedKeys t2.
Proof. apply flat_map_app. Qed.

Lemma scannedKeys_app (t1 t2 : list event) :
  scannedKeys (t1 ++ t2) = scannedKeys t1 ++ scannedKeys t2.
Proof. apply flat_map_app. Qed.

Lemma printedDeletes_app (t1 t2 : list event) :
  printedDeletes (t1 ++ t2) = printedDeletes t1 ++ printedDeletes t2.
Proof. apply flat_map_app. Qed.

Lemma pageLog_silent {World} (r : redisSearch World)
    (totalKeys visitingKeys : Z) (keys : list string) (scanCursor' : Z) :
  visitedKeys (pageLog r totalKeys visitingKeys keys scanCursor') = [] /\
  scannedKeys (pageLog r totalKeys visitingKeys keys scanCursor') = [] /\
  fetchFailures (pageLog r totalKeys visitingKeys keys scanCursor') = [] /\
  skipLines (pageLog r totalKeys visitingKeys keys scanCursor') = [].
Proof. unfold pageLog. destruct (Debug r), (Progress r); now repeat split. Qed.

Section Pages.

Context {World : Type} {A : Type}.
Variable r : redisSearch World.

Lemma deleteAction_quiet : quietAction (deleteAction r).
Proof.
  intros key value v w err v' w' t. rewrite deleteAction_run.
  destruct (Del (client r) key w) as [[e|] w1]; intros H;
    injection H as <- _ _ <-; now split.
Qed.


Variable search : searchCondition.
Variable action : string -> bytes -> A -> M World (option error * A).

(** The loop over a page is the loop over its first keys, then, unless an
    error ended it, the loop over the others. *)
Lemma visitKeys_app (pre post : list string) :
  forall (a : A) (w : World),
    visitKeys r search action (pre ++ post) a w =
      match visitKeys r search action pre a w with
      | Some ((None, a1), w1, t1) => after t1 (visitKeys r search action post a1 w1)
      | res => res
      end.
Proof.
  induction pre as [|key pre IH]; intros a w.
  - cbn [app visitKeys ret]. now rewrite after_nil.
  - rewrite <- app_comm_cons.
    destruct (fetchValue_total r key (AccessMode search) w) as (res & w0 & t0 & Hf & _).
    destruct res as [value|e].
    + rewrite !(visitKeys_fetched r _ _ _ _ _ _ _ _ _ Hf).
      destruct (Matcher search value).
      * destruct (action key value a w0) as [[[[[e|] a1] w1] t1]|]; cbn [after];
          try reflexivity.
        rewrite IH.
        destruct (visitKeys r search action pre a1 w1) as [[[[[e|] a2] w2] t2]|];
          cbn [after]; try reflexivity.
        now rewrite !after_after, app_assoc.
      * rewrite IH.
        destruct (visitKeys r search action pre a w0) as [[[[[e|] a2] w2] t2]|];
          cbn [after]; try reflexivity.
        now rewrite !after_after.
    + rewrite !(visitKeys_skipped r _ _ _ _ _ _ _ _ _ Hf), IH.
      destruct (visitKeys r search action pre a w0) as [[[[[e'|] a2] w2] t2]|];
        cbn [after]; try reflexivity.
      now rewrite !after_after.
Qed.

(** A round of the scan loop whose page starts with keys the page loop
    went through without an error. *)
Lemma scanLoop_round (fuel : nat) (totalKeys scanCursor visitingKeys : Z)
    (a a1 : A) (w w1 w2 : World) (pre post : list string) (scanCursor' : Z)
    (t1 : list event) :
  Scan (client r) scanCursor "" 50 w = (Ok (pre ++ post, scanCursor'), w1) ->
  visitKeys r search action pre a w1 = Some ((None, a1), w2, t1) ->
  scanLoop r search action (S fuel) totalKeys scanCursor visitingKeys a w =
    after (CallScan scanCursor (Ok (pre ++ post, scanCursor'))
             :: pageLog r totalKeys visitingKeys (pre ++ post) scanCursor' ++ t1)
      match visitKeys r search action post a1 w2 with
      | None => None
      | Some ((Some e, a'), w3, t) => Some ((Some e, a'), w3, t)
      | Some ((None, a'), w3, t) =>
          if scanCursor' =? 0 then Some ((None, a'), w3, t)
          else after t (scanLoop r search action fuel totalKeys scanCursor'
                          (add64 visitingKeys (len (pre ++ post))) a' w3)
      end.
Proof.
  intros Hscan Hpre. rewrite scanLoop_step, Hscan, visitKeys_app, Hpre.
  destruct (visitKeys r search action post a1 w2) as [[[[[e|] a'] w3] t]|];
    cbn [after]; try reflexivity.
  - now rewrite app_comm_cons, app_assoc.
  - destruct (scanCursor' =? 0); cbn [after].
    + now rewrite app_comm_cons, app_assoc.
    + rewrite !after_after. now rewrite app_comm_cons, app_assoc.
Qed.

Hypothesis action_quiet : quietAction action.

Lemma visitKeys_covers (keys : list string) :
  forall (a a' : A) (w w' : World) (err : option error) (t : list event),
    visitKeys r search action keys a w = Some ((err, a'), w', t) ->
    err = None /\ visitedKeys t = keys /\ scannedKeys t = [] /\
    skipLines t = fetchFailures t.
Proof.
  induction keys as [|key rest IH]; intros a a' w w' err t.
  - intros H; injection H as <- _ _ <-. now repeat split.
  - destruct (fetchValue_total r key (AccessMode search) w) as (res & w0 & t0 & Hf & _).
    destruct (fetchValue_visits r _ _ _ _ _ _ Hf) as [Hv0 Hs0].
    destruct res as [value|e].
    + assert (Hq0 : skipLines t0 = [] /\ fetchFailures t0 = []).
      { destruct (fetchValue_events r _ _ _ _ _ _ Hf) as [-> | (hres & -> & Hres)];
          [| destruct hres; [| discriminate]]; now split. }
      destruct Hq0 as [Hk0 Hff0].
      rewrite (visitKeys_fetched r _ _ _ _ _ _ _ _ _ Hf).
      destruct (Matcher search value).
      * destruct (action key value a w0) as [[[[[e|] a1] w1] t1]|] eqn:Hact;
          cbn [after]; try discriminate.
        -- destruct (action_quiet _ _ _ _ _ _ _ _ Hact) as [? _]; discriminate.
        -- destruct (action_quiet _ _ _ _ _ _ _ _ Hact) as [_ Hq1].
           destruct (ofAction_silent _ Hq1) as (_ & Hs1 & Hv1 & Hff1 & Hk1).
           destruct (visitKeys r search action rest a1 w1)
             as [[[[err2 a2] w2] t2]|] eqn:Hrest; cbn [after]; [| discriminate].
           intros H; injection H as <- _ _ <-.
           destruct (IH _ _ _ _ _ _ Hrest) as (-> & Hv2 & Hs2 & Hk2).
           rewrite !visitedKeys_app, !scannedKeys_app, !skipLines_app, !fetchFailures_app.
           rewrite Hv0, Hs0, Hk0, Hff0, Hv1, Hs1, Hk1, Hff1, Hv2, Hs2, Hk2.
           now repeat split.
      * destruct (visitKeys r search action rest a w0)
          as [[[[err2 a2] w2] t2]|] eqn:Hrest; cbn [after]; [| discriminate].
        intros H; injection H as <- _ _ <-.
        destruct (IH _ _ _ _ _ _ Hrest) as (-> & Hv2 & Hs2 & Hk2).
        rewrite !visitedKeys_app, !scannedKeys_app, !skipLines_app, !fetchFailures_app.
        rewrite Hv0, Hs0, Hk0, Hff0, Hv2, Hs2, Hk2.
        now repeat split.
    + assert (Hq0 : skipLines t0 = [] /\ fetchFailures t0 = [(key, e)]).
      { destruct (fetchValue_events r _ _ _ _ _ _ Hf) as [-> | (hres & -> & Hres)];
          [| destruct hres; [discriminate | injection Hres as ->]]; now split. }
      destruct Hq0 as [Hk0 Hff0].
      rewrite (visitKeys_skipped r _ _ _ _ _ _ _ _ _ Hf).
      destruct (visitKeys r search action rest a w0)
        as [[[[err2 a2] w2] t2]|] eqn:Hrest; cbn [after]; [| discriminate].
      intros H; injection H as <- _ _ <-.
      destruct (IH _ _ _ _ _ _ Hrest) as (-> & Hv2 & Hs2 & Hk2).
      rewrite !visitedKeys_app, !scannedKeys_app, !skipLines_app, !fetchFailures_app.
      rewrite Hv0, Hs0, Hk0, Hff0, Hv2, Hs2, Hk2.
      now repeat split.
Qed.

Lemma scanLoop_covers (fuel : nat) :
  forall (totalKeys scanCursor visitingKeys : Z) (a a' : A) (w w' : World)
         (err : option error) (t : list event),
    scanLoop r search action fuel totalKeys scanCursor visitingKeys a w
      = Some ((err, a'), w', t) ->
    visitedKeys t = scannedKeys t /\ skipLines t = fetchFailures t.
Proof.
  induction fuel as [|fuel IH]; intros totalKeys scanCursor visitingKeys a a' w w' err t;
    [discriminate |].
  rewrite scanLoop_step.
  destruct (Scan (client r) scanCursor "" 50 w) as [[[keys scanCursor']|e] w1].
  - set (head := CallScan scanCursor (Ok (keys, scanCursor'))
                   :: pageLog r totalKeys visitingKeys keys scanCursor').
    assert (Hhead : visitedKeys head = [] /\ scannedKeys head = keys /\
                    skipLines head = [] /\ fetchFailures head = []).
    { destruct (pageLog_silent r totalKeys visitingKeys keys scanCursor')
        as (H1 & H2 & H3 & H4).
      change head with ([CallScan scanCursor (Ok (keys, scanCursor'))]
                          ++ pageLog r totalKeys visitingKeys keys scanCursor').
      rewrite visitedKeys_app, scannedKeys_app, skipLines_app, fetchFailures_app.
      rewrite H1, H2, H3, H4. cbn. rewrite !app_nil_r. now repeat split. }
    destruct Hhead as (Hhv & Hhs & Hhk & Hhf).
    destruct (visitKeys r search action keys a w1)
      as [[[[[e|] a1] w2] t1]|] eqn:Hpage; try discriminate.
    + destruct (visitKeys_covers _ _ _ _ _ _ _ Hpage); discriminate.
    + destruct (visitKeys_covers _ _ _ _ _ _ _ Hpage) as (_ & Hv1 & Hs1 & Hk1).
      destruct (scanCursor' =? 0).
      * cbn [after]. intros H; injection H as _ _ _ Ht.
        assert (Ht' : t = head ++ t1) by (rewrite <- Ht; reflexivity).
        rewrite Ht', !visitedKeys_app, !scannedKeys_app, !skipLines_app,
          !fetchFailures_app, Hhv, Hhs, Hhk, Hhf, Hv1, Hs1, Hk1.
        cbn [app]. now rewrite app_nil_r.
      * destruct (scanLoop r search action fuel totalKeys scanCursor'
                    (add64 visitingKeys (len keys)) a1 w2)
          as [[[[err2 a2] w3] t2]|] eqn:Hloop; cbn [after]; [| discriminate].
        intros H; injection H as _ _ _ Ht.
        assert (Ht' : t = head ++ t1 ++ t2) by (rewrite <- Ht; reflexivity).
        destruct (IH _ _ _ _ _ _ _ _ _ Hloop) as [Hv2 Hk2].
        rewrite Ht', !visitedKeys_app, !scannedKeys_app, !skipLines_app,
          !fetchFailures_app, Hhv, Hhs, Hhk, Hhf, Hv1, Hs1, Hk1, Hv2, Hk2.
        cbn [app]. now split.
  - intros H; injection H as _ _ _ <-. now split.
Qed.

(** A run of [matchingKeysDo] with a closure that returns no error. *)
Lemma matchingKeysDo_covers (fuel : nat) (a a' : A) (w w' : World)
    (err : option error) (t : list event) :
  matchingKeysDo r search action fuel a w = Some ((err, a'), w', t) ->
  (exists t', t = CallDBSize (fst (DBSize (client r) w)) :: t') /\
  visitedKeys t = scannedKeys t /\
  skipLines t = fetchFailures t /\
  chained 0 (scanCalls t) /\
  scanOutcome err t.
Proof.
  rewrite matchingKeysDo_run.
  destruct (DBSize (client r) w) as [[totalKeys|e0] w1]; cbn [fst].
  - destruct (scanLoop r search action fuel totalKeys 0 0 a w1)
      as [[[[err2 a2] w3] t2]|] eqn:Hloop; cbn [after]; [| discriminate].
    intros H; injection H as -> _ _ <-.
    destruct (scanLoop_covers _ _ _ _ _ _ _ _ _ _ Hloop) as [Hv Hk].
    destruct (scanLoop_plain r search action (quietAction_plain _ action_quiet)
                _ _ _ _ _ _ _ _ _ _ Hloop) as [Hch Hend].
    split; [now exists t2 |].
    change ([CallDBSize (Ok totalKeys)] ++ t2) with (CallDBSize (Ok totalKeys) :: t2).
    split; [exact Hv | split; [exact Hk | split; [exact Hch |]]].
    destruct err as [e|]; cbn [scanOutcome].
    + destruct Hend as (t0 & c & ->). right.
      now exists (CallDBSize (Ok totalKeys) :: t0), c.
    + exact Hend.
  - intros H; injection H as <- _ _ <-.
    split; [now exists [] | split; [reflexivity | split; [reflexivity | split; [exact I |]]]].
    left. now exists e0.
Qed.

End Pages.

(** ** The sizes the delete closure adds up *)

Lemma combine_app_eq {X Y : Type} (l1 l2 : list X) (m1 m2 : list Y) :
  length l1 = length m1 ->
  combine (l1 ++ l2) (m1 ++ m2) = combine l1 m1 ++ combine l2 m2.
Proof.
  revert m1; induction l1 as [|x l1 IH]; intros [|y m1]; cbn; try discriminate;
    [reflexivity |].
  intros H; injection H as H. now rewrite IH.
Qed.

Lemma deletedSizes_app (t1 t2 : list event) :
  map fst (printedDeletes t1) = map fst (delCalls t1) ->
  deletedSizes (t1 ++ t2) = deletedSizes t1 ++ deletedSizes t2.
Proof.
  intros H. unfold deletedSizes.
  rewrite printedDeletes_app, delCalls_app, combine_app_eq, filter_app, map_app;
    [reflexivity |].
  now rewrite <- (length_map fst (printedDeletes t1)), H, length_map.
Qed.

Lemma purgeSizes_silent (search : searchCondition) (v : purgeVars) (t : list event) :
  printedDeletes t = [] -> delCalls t = [] -> matchedSizes search t = [] ->
  purgeSizes search v v t.
Proof.
  intros Hp Hd Hm. unfold purgeSizes, deletedSizes. rewrite Hp, Hd, Hm.
  split; [reflexivity | split; [reflexivity |]].
  intros Hi. cbn [combine filter map sumZ fold_right].
  rewrite Z.add_0_r, (wrap64_small _ Hi). now split.
Qed.

Lemma purgeSizes_app (search : searchCondition) (v v1 v2 : purgeVars)
    (t1 t2 : list event) :
  purgeSizes search v v1 t1 -> purgeSizes search v1 v2 t2 ->
  purgeSizes search v v2 (t1 ++ t2).
Proof.
  intros (Hp1 & Hk1 & Hc1) (Hp2 & Hk2 & Hc2). unfold purgeSizes.
  rewrite printedDeletes_app, matchedSizes_app, delCalls_app, !map_app,
    Hp1, Hp2, <- Hp1, <- Hp2, Hk1, Hk2.
  split; [reflexivity | split; [reflexivity |]].
  intros Hi. destruct (Hc1 Hi) as [Hs1 Hi1]. destruct (Hc2 Hi1) as [Hs2 Hi2].
  split; [| exact Hi2].
  rewrite Hs2, Hs1, wrap64_add, (deletedSizes_app _ _ Hk1), sumZ_app.
  f_equal. lia.
Qed.

Section Sizes.

Context {World : Type}.
Variable r : redisSearch World.

Lemma purgePass_sizes (fuel : nat) (search : searchCondition) (w w' : World)
    (err : option error) (v : purgeVars) (t : list event) :
  purgePass r fuel search w = Some ((err, v), w', t) ->
  purgeSizes search purgeVars0 v t.
Proof.
  unfold purgePass.
  apply (matchingKeysDo_rule r search (deleteAction r) (purgeSizes search)).
  - intros a. now apply purgeSizes_silent.
  - apply purgeSizes_app.
  - intros a key w0 w1 e t0 Hf.
    destruct (fetchValue_events r _ _ _ _ _ _ Hf) as [-> | (hres & -> & Hres)];
      [| destruct hres; [discriminate |]]; now apply purgeSizes_silent.
  - intros a key w0 w1 value t0 Hf Hm.
    destruct (fetchValue_events r _ _ _ _ _ _ Hf) as [-> | (hres & -> & Hres)];
      [| destruct hres as [h|]; [| discriminate]; injection Hres as ->];
      apply purgeSizes_silent; trivial; unfold matchedSizes; cbn; now rewrite Hm.
  - intros a key w0 w1 value t0 err0 a' w2 t1 Hf Hm.
    rewrite deleteAction_run.
    assert (Hfetch : printedDeletes t0 = [] /\ delCalls t0 = [] /\
                     matchedSizes search t0 = [(key, len value)]).
    { destruct (fetchValue_events r _ _ _ _ _ _ Hf) as [-> | (hres & -> & Hres)];
        [| destruct hres as [h|]; [| discriminate]; injection Hres as ->];
        repeat split; unfold matchedSizes; cbn; now rewrite Hm. }
    destruct Hfetch as (Hp0 & Hd0 & Hm0).
    destruct (Del (client r) key w1) as [[e|] w4]; intros Hact;
      injection Hact as _ <- _ <-; unfold purgeSizes, deletedSizes;
      rewrite printedDeletes_app, delCalls_app, matchedSizes_app, Hp0, Hd0, Hm0;
      (split; [reflexivity | split; [reflexivity |]]); intros Hi;
      cbn [app printedDeletes delCalls flat_map printedDelete delCall combine filter
             snd fst map sumZ fold_right countFailure countSuccess appendDeleted
             deletedValuesTotalSize].
    + rewrite Z.add_0_r, (wrap64_small _ Hi). now split.
    + rewrite Z.add_0_r. split; [reflexivity | apply wrap64_in_int].
  - intros a res. now apply purgeSizes_silent.
  - intros a c res. now apply purgeSizes_silent.
  - intros a total vis keys c. unfold pageLog.
    destruct (Debug r), (Progress r); now apply purgeSizes_silent.
Qed.

End Sizes.

(** ** Failed calls in the reconciliation loop *)

Lemma failedDels_of_failures (t : list event) :
  passFailures t = [] -> failedDels t = [].
Proof.
  unfold failedDels, passFailures, delCalls.
  induction t as [|e t IH]; [reflexivity |].
  cbn [flat_map]. intros H. apply app_eq_nil in H as [He Ht].
  rewrite filter_app, (IH Ht), app_nil_r.
  destruct e; try reflexivity.
  match goal with
  | H : passFailure (CallDel _ ?x) = [] |- _ => destruct x; [discriminate H | reflexivity]
  end.
Qed.

Lemma passFailures_passHeader (minClean wait : Z) (keys : list string) (c p : Z) :
  passFailures (passHeader minClean wait keys c p) = [] /\
  delCalls (passHeader minClean wait keys c p) = [] /\
  presentKeys (passHeader minClean wait keys c p) = [].
Proof. now repeat split. Qed.

(** A failed delete in a run that ended as [loopOutcome] says is the last
    event of the run, and the run returned its error. *)
Lemma failed_delete_ends (err : option error) (t : list event) :
  loopOutcome err t -> failedDels t <> [] ->
  exists t0 key e,
    t = t0 ++ [CallDel key (Some e)] /\ failedDels t0 = [] /\
    err = Some (DeleteFailError key e).
Proof.
  destruct err as [e|]; cbn [loopOutcome].
  - intros (t0 & x & -> & Hx & Hpf) Hfailed.
    pose proof (failedDels_of_failures _ Hpf) as H0.
    rewrite failedDels_app, H0 in Hfailed. cbn [app] in Hfailed.
    destruct x; try (exfalso; now apply Hfailed).
    match goal with
    | H : passFailure (CallDel ?k ?x) = [e] |- _ =>
        destruct x as [e0|]; [| exfalso; now apply Hfailed];
        injection H as <-; now exists t0, k, e0
    end.
  - intros Hpf Hfailed. now rewrite (failedDels_of_failures _ Hpf) in Hfailed.
Qed.

Section Failures.

Context {World : Type}.
Variable r : redisSearch World.

Lemma repeatLoop_stops (minClean wait : Z) (keys : list string) (fuel : nat) :
  forall (c p : Z) (w : World) (err : option error) (c' p' : Z) (w' : World)
         (t : list event),
    repeatLoop r fuel minClean wait keys c p w = Some ((err, c', p'), w', t) ->
    loopOutcome err t /\ map fst (delCalls t) = presentKeys t.
Proof.
  induction fuel as [|fuel IH]; intros c p w err c' p' w' t;
    destruct (Z.ltb_spec c minClean) as [Hc|Hc].
  - cbn [repeatLoop]. destruct (Z.ltb_spec c minClean); [discriminate | lia].
  - rewrite repeatLoop_done by exact Hc. intros H; injection H as <- _ _ _ <-.
    now split.
  - rewrite repeatLoop_step by exact Hc.
    destruct (passFailures_passHeader minClean wait keys c p) as (Hhf & Hhd & Hhp).
    destruct (deleteKeys r keys w) as [[[[found [e|]] w1] t1]|] eqn:Hpass;
      cbn [after]; [| | discriminate].
    + intros H; injection H as <- _ _ _ Ht.
      assert (Ht' : t = passHeader minClean wait keys c p ++ t1)
        by (rewrite <- Ht; reflexivity).
      clear Ht; subst t.
      pose proof (deleteKeysFrom_stops r keys _ _ _ _ _ _ Hpass) as Hout.
      destruct (deleteKeysFrom_trace r keys _ _ _ _ _ _ Hpass) as (Hd & _).
      split; [| rewrite delCalls_app, presentKeys_app, Hhd, Hhp; exact Hd].
      destruct Hout as (pre & key & rest & t0 & e0 & _ & _ & Hpf & Hcase).
      cbn [loopOutcome].
      destruct Hcase as [[-> ->] | (n & Hn & -> & ->)].
      * exists (passHeader minClean wait keys c p ++ t0), (CallExists key (Err e0)).
        split; [now rewrite app_assoc | split; [reflexivity |]].
        now rewrite passFailures_app, Hhf, Hpf.
      * exists (passHeader minClean wait keys c p ++ t0
                  ++ [CallExists key (Ok n); PrintRedelete key]),
               (CallDel key (Some e0)).
        split; [now rewrite <- !app_assoc | split; [reflexivity |]].
        now rewrite !passFailures_app, Hhf, Hpf.
    + destruct (repeatLoop r fuel minClean wait keys
                  (if found then 0 else add64 c 1) (add64 p 1) w1)
        as [[[[[err2 c2] p2] w2] t2]|] eqn:Hloop; cbn [after]; [| discriminate].
      intros H; injection H as <- _ _ _ Ht.
      assert (Ht' : t = passHeader minClean wait keys c p ++ t1 ++ t2)
        by (rewrite <- Ht; reflexivity).
      clear Ht; subst t.
      destruct (IH _ _ _ _ _ _ _ _ Hloop) as [Hout2 Hd2].
      pose proof (deleteKeysFrom_stops r keys _ _ _ _ _ _ Hpass) as Hpf1.
      cbn [passOutcome] in Hpf1.
      destruct (deleteKeysFrom_trace r keys _ _ _ _ _ _ Hpass) as (Hd1 & _).
      split; [| rewrite !delCalls_app, !presentKeys_app, Hhd, Hhp; cbn [app];
                now rewrite map_app, Hd1, Hd2].
      destruct err2 as [e|]; cbn [loopOutcome] in *.
      * destruct Hout2 as (t0 & x & -> & Hx & Hpf2).
        exists (passHeader minClean wait keys c p ++ t1 ++ t0), x.
        split; [now rewrite <- !app_assoc | split; [exact Hx |]].
        now rewrite !passFailures_app, Hhf, Hpf1, Hpf2.
      * now rewrite !passFailures_app, Hhf, Hpf1, Hout2.
  - rewrite repeatLoop_done by exact Hc. intros H; injection H as <- _ _ _ <-.
    now split.
Qed.

Lemma repeatDeleteKeys_run (getenv : environ) (fuel : nat) (keys : list string)
    (w : World) :
  repeatDeleteKeys r getenv fuel keys w =
    match repeatLoop r fuel (envInt getenv "CLEAN_DELETE_MIN" 500)
            (envInt getenv "CLEAN_DELETE_WAIT_MS" 150) keys 0 0 w with
    | None => None
    | Some ((err, _, _), w', t) => Some (err, w', t)
    end.
Proof.
  unfold repeatDeleteKeys. rewrite bind_run.
  destruct (repeatLoop r fuel (envInt getenv "CLEAN_DELETE_MIN" 500)
              (envInt getenv "CLEAN_DELETE_WAIT_MS" 150) keys 0 0 w)
    as [[[[[err c] p] w'] t]|]; cbn; [now rewrite app_nil_r | reflexivity].
Qed.

Lemma repeatDeleteKeys_stops (getenv : environ) (fuel : nat) (keys : list string)
    (w w' : World) (err : option error) (t : list event) :
  repeatDeleteKeys r getenv fuel keys w = Some (err, w', t) ->
  loopOutcome err t /\ map fst (delCalls t) = presentKeys t.
Proof.
  rewrite repeatDeleteKeys_run.
  destruct (repeatLoop r fuel (envInt getenv "CLEAN_DELETE_MIN" 500)
              (envInt getenv "CLEAN_DELETE_WAIT_MS" 150) keys 0 0 w)
    as [[[[[err1 c] p] w1] t1]|] eqn:Hloop; [| discriminate].
  intros H; injection H as <- _ <-.
  now apply repeatLoop_stops with (1 := Hloop).
Qed.

(** C5, amended: a pass of [deleteKeys] that returns no error has checked
    the existence of every key, in order, has deleted each key reported
    present right after its check, and returns [found] exactly when some key
    was reported present; the loop then goes on with [cleanDeletePass] reset
    to 0 if [found], and one higher if not. A pass in which an existence
    check or a delete fails, whatever the counters it was started with,
    ends with the failed call: the keys after it are not checked, and the
    loop returns the wrapped error with [cleanDeletePass] as it was. So a
    run of [repeatDeleteKeys] that returns [nil] had no failed call in any
    pass, and a run that returns an error ended with the call that failed;
    in every run, deletes are called on exactly the keys reported present. *)
Theorem reconciliation_pass :
  (forall (fuel : nat) (minClean wait : Z) (keys : list string) (c p : Z)
          (w w1 : World) (found : bool) (t : list event),
      deleteKeys r keys w = Some ((found, None), w1, t) ->
      0 <= c < minClean -> minClean <= max_int ->
      (exists ns : list Z,
         length ns = length keys /\
         t = concat (map (fun kn => checkTrace (fst kn) (snd kn)) (combine keys ns)) /\
         found = existsb (fun n => n >? 0) ns) /\
      repeatLoop r (S fuel) minClean wait keys c p w =
        after (passHeader minClean wait keys c p ++ t)
          (repeatLoop r fuel minClean wait keys (if found then 0 else c + 1)
             (add64 p 1) w1)) /\
  (forall (fuel : nat) (minClean wait : Z) (keys : list string) (c p : Z)
          (w w1 : World) (found : bool) (e : error) (t : list event),
      deleteKeys r keys w = Some ((found, Some e), w1, t) ->
      c < minClean ->
      passOutcome keys (Some e) t /\
      repeatLoop r (S fuel) minClean wait keys c p w =
        Some ((Some e, c, add64 p 1), w1, passHeader minClean wait keys c p ++ t)) /\
  (forall (getenv : environ) (fuel : nat) (keys : list string) (w w' : World)
          (err : option error) (t : list event),
      repeatDeleteKeys r getenv fuel keys w = Some (err, w', t) ->
      loopOutcome err t /\ map fst (delCalls t) = presentKeys t).
Proof.
  split; [| split].
  - intros fuel minClean wait keys c p w w1 found t Hpass Hc Hmax. split.
    + destruct (deleteKeysFrom_completes r keys _ _ _ _ _ Hpass) as (ns & Hlen & Ht & Hf).
      exists ns. now repeat split.
    + rewrite repeatLoop_step, Hpass, after_after by lia.
      rewrite add64_small by (unfold in_int, min_int, max_int in *; lia).
      reflexivity.
  - intros fuel minClean wait keys c p w w1 found e t Hpass Hc. split.
    + now apply deleteKeysFrom_stops with (1 := Hpass).
    + now apply reconciliation_pass_aborts with (1 := Hpass).
  - intros getenv fuel keys w w' err t. apply repeatDeleteKeys_stops.
Qed.

(** ** Failed calls in the initial pass *)

Ltac same_events :=
  cbn [after app]; rewrite <- ?app_assoc; cbn [app]; reflexivity.

(** What the initial pass keeps account of: a delete is called, and a line
    printed, for exactly the keys fetched with a matching value, and the
    counters count the delete calls by their result. *)
Lemma purgePass_accounts (fuel : nat) (search : searchCondition) (w w' : World)
    (err : option error) (v : purgeVars) (t : list event) :
  purgePass r fuel search w = Some ((err, v), w', t) ->
  map fst (delCalls t) = matchedKeys search t /\
  printedDeletes t = matchedSizes search t /\
  deletedKeyCount v = wrap64 (len (deletedOk t)) /\
  failedDeleteCount v = wrap64 (len (failedDels t)) /\
  deletedValuesTotalSize v = wrap64 (sumZ (deletedSizes t)).
Proof.
  intros Hpass.
  destruct (purgePass_collects r _ _ _ _ _ _ _ Hpass) as [_ Hm].
  destruct (purgePass_counts r _ _ _ _ _ _ _ Hpass) as (_ & _ & _ & Hc).
  destruct Hc as (Hd & Hf & _); [cbn; unfold in_int, min_int, max_int; lia .. |].
  destruct (purgePass_sizes r _ _ _ _ _ _ _ Hpass) as (Hp & _ & Hs).
  destruct Hs as [Hs _]; [cbn; unfold in_int, min_int, max_int; lia |].
  cbn in Hd, Hf, Hs. now repeat split.
Qed.

(** C6: in the initial pass a failed delete of a matched key only counts:
    [failedDeleteCount] goes up by one, [deletedKeyCount] and
    [deletedValuesTotalSize] stay, and the loop goes on with the next key,
    in every round of the scan loop and wherever the key is in its page; so
    in a whole initial pass the three counters count the delete calls by
    their result, a delete is called for every matched key, every key the
    scan returned is fetched, and the pass returns an error only for a
    failed key count or scan. In the reconciliation loop a failed delete of
    a key found present, in whatever pass, makes [deleteKeys] return an
    error that ends [repeatDeleteKeys]: a failed delete is the last thing a
    run of the loop does, and [deleteMatchingKeys] returns its error. *)
Theorem delete_failure_handling :
  (forall (search : searchCondition) (key : string) (rest : list string)
          (value : bytes) (v : purgeVars) (w w0 w1 : World) (t0 : list event)
          (e : error),
      fetchValue r key (AccessMode search) w = Some (Ok value, w0, t0) ->
      Matcher search value = true ->
      Del (client r) key w0 = (Some e, w1) ->
      let v' := countFailure (appendDeleted key v) in
      visitKeys r search (deleteAction r) (key :: rest) v w =
        after (t0 ++ [PrintDelete key (len value); CallDel key (Some e);
                      LogDeleteFailed key e])
          (visitKeys r search (deleteAction r) rest v' w1) /\
      failedDeleteCount v' = add64 (failedDeleteCount v) 1 /\
      (0 <= failedDeleteCount v < max_int ->
       failedDeleteCount v' = failedDeleteCount v + 1) /\
      deletedKeyCount v' = deletedKeyCount v /\
      deletedValuesTotalSize v' = deletedValuesTotalSize v) /\
  (forall (getenv : environ) (fuel : nat) (pre : list string) (key : string)
          (rest : list string) (w w0 w1 w2 : World) (found : bool)
          (t0 : list event) (n : Z) (e : error),
      deleteKeysFrom r pre false w = Some ((found, None), w0, t0) ->
      Exists (client r) key w0 = (Ok n, w1) -> n > 0 ->
      Del (client r) key w1 = (Some e, w2) ->
      0 < envInt getenv "CLEAN_DELETE_MIN" 500 ->
      let t := t0 ++ [CallExists key (Ok n); PrintRedelete key; CallDel key (Some e)] in
      let keys := pre ++ key :: rest in
      deleteKeys r keys w = Some ((true, Some (DeleteFailError key e)), w2, t) /\
      repeatDeleteKeys r getenv (S fuel) keys w =
        Some (Some (DeleteFailError key e), w2,
              passHeader (envInt getenv "CLEAN_DELETE_MIN" 500)
                (envInt getenv "CLEAN_DELETE_WAIT_MS" 150) keys 0 0 ++ t)) /\
  (forall (getenv : environ) (fuel : nat) (search : searchCondition)
          (w w1 w2 : World) (v : purgeVars) (t1 t2 : list event) (e : error),
      purgePass r fuel search w = Some ((None, v), w1, t1) ->
      repeatDeleteKeys r getenv fuel (deletedKeys v) w1 = Some (Some e, w2, t2) ->
      deleteMatchingKeys r getenv fuel search true w =
        Some (Some e, w2, LogDeleting search :: t1 ++ t2 ++ [deletedSummary search v])) /\
  (forall (fuel : nat) (search : searchCondition)
          (totalKeys scanCursor visitingKeys : Z) (v v1 : purgeVars)
          (w w1 w2 w3 w4 : World) (pre : list string) (key : string)
          (rest : list string) (scanCursor' : Z) (t1 t0 : list event)
          (value : bytes) (e : error),
      Scan (client r) scanCursor "" 50 w = (Ok (pre ++ key :: rest, scanCursor'), w1) ->
      visitKeys r search (deleteAction r) pre v w1 = Some ((None, v1), w2, t1) ->
      fetchValue r key (AccessMode search) w2 = Some (Ok value, w3, t0) ->
      Matcher search value = true ->
      Del (client r) key w3 = (Some e, w4) ->
      scanLoop r search (deleteAction r) (S fuel) totalKeys scanCursor visitingKeys v w =
        after (CallScan scanCursor (Ok (pre ++ key :: rest, scanCursor'))
                 :: pageLog r totalKeys visitingKeys (pre ++ key :: rest) scanCursor'
                 ++ t1 ++ t0
                 ++ [PrintDelete key (len value); CallDel key (Some e);
                     LogDeleteFailed key e])
          match visitKeys r search (deleteAction r) rest
                  (countFailure (appendDeleted key v1)) w4 with
          | None => None
          | Some ((Some e', v'), w5, t) => Some ((Some e', v'), w5, t)
          | Some ((None, v'), w5, t) =>
              if scanCursor' =? 0 then Some ((None, v'), w5, t)
              else after t (scanLoop r search (deleteAction r) fuel totalKeys scanCursor'
                              (add64 visitingKeys (len (pre ++ key :: rest))) v' w5)
          end) /\
  (forall (fuel : nat) (search : searchCondition) (w w' : World)
          (err : option error) (v : purgeVars) (t : list event),
      purgePass r fuel search w = Some ((err, v), w', t) ->
      failedDeleteCount v = wrap64 (len (failedDels t)) /\
      deletedKeyCount v = wrap64 (len (deletedOk t)) /\
      deletedValuesTotalSize v = wrap64 (sumZ (deletedSizes t)) /\
      printedDeletes t = matchedSizes search t /\
      map fst (delCalls t) = matchedKeys search t /\
      visitedKeys t = scannedKeys t /\
      (exists t', t = CallDBSize (fst (DBSize (client r) w)) :: t') /\
      scanOutcome err t) /\
  (forall (fuel : nat) (minClean wait : Z) (pre : list string) (key : string)
          (rest : list string) (c p : Z) (w w0 w1 w2 : World) (found : bool)
          (t0 : list event) (n : Z) (e : error),
      deleteKeysFrom r pre false w = Some ((found, None), w0, t0) ->
      Exists (client r) key w0 = (Ok n, w1) -> n > 0 ->
      Del (client r) key w1 = (Some e, w2) ->
      c < minClean ->
      repeatLoop r (S fuel) minClean wait (pre ++ key :: rest) c p w =
        Some ((Some (DeleteFailError key e), c, add64 p 1), w2,
              passHeader minClean wait (pre ++ key :: rest) c p ++ t0
              ++ [CallExists key (Ok n); PrintRedelete key; CallDel key (Some e)])) /\
  (forall (getenv : environ) (fuel : nat) (keys : list string) (w w' : World)
          (err : option error) (t : list event),
      repeatDeleteKeys r getenv fuel keys w = Some (err, w', t) ->
      failedDels t <> [] ->
      exists t0 key e,
        t = t0 ++ [CallDel key (Some e)] /\ failedDels t0 = [] /\
        err = Some (DeleteFailError key e)) /\
  (forall (getenv : environ) (fuel : nat) (search : searchCondition)
          (repeatDeletes : bool) (w w' : World) (err : option error) (t : list event),
      deleteMatchingKeys r getenv fuel search repeatDeletes w = Some (err, w', t) ->
      exists err0 v w1 t1 t2,
        purgePass r fuel search w = Some ((err0, v), w1, t1) /\
        t = LogDeleting search :: t1 ++ t2 ++ [deletedSummary search v] /\
        scanOutcome err0 t1 /\
        ((err0 = None /\ repeatDeletes = true /\
          repeatDeleteKeys r getenv fuel (deletedKeys v) w1 = Some (err, w', t2)) \/
         ((err0 <> None \/ repeatDeletes = false) /\
          t2 = [] /\ err = err0 /\ w' = w1)) /\
        (failedDels t2 <> [] ->
         exists t0 key e,
           t2 = t0 ++ [CallDel key (Some e)] /\ failedDels t0 = [] /\
           err = Some (DeleteFailError key e))).
Proof.
  assert (Hredelete :
    forall (pre : list string) (key : string) (rest : list string)
           (w w0 w1 w2 : World) (found : bool) (t0 : list event) (n : Z) (e : error),
      deleteKeysFrom r pre false w = Some ((found, None), w0, t0) ->
      Exists (client r) key w0 = (Ok n, w1) -> n > 0 ->
      Del (client r) key w1 = (Some e, w2) ->
      deleteKeys r (pre ++ key :: rest) w =
        Some ((true, Some (DeleteFailError key e)), w2,
              t0 ++ [CallExists key (Ok n); PrintRedelete key; CallDel key (Some e)])).
  { intros pre key rest w w0 w1 w2 found t0 n e Hpre He Hn Hd.
    unfold deleteKeys. rewrite deleteKeysFrom_app, Hpre, deleteKeysFrom_cons, He.
    destruct (Z.gtb_spec n 0) as [_|]; [| lia]. now rewrite Hd. }
  split; [| split; [| split; [| split; [| split; [| split; [| split]]]]]].
  - intros search key rest value v w w0 w1 t0 e Hf Hm Hd v'. repeat split.
    + rewrite (visitKeys_fetched r _ _ _ _ _ _ _ _ _ Hf), Hm, deleteAction_run, Hd.
      now rewrite after_after.
    + intros H. cbn. apply add64_small. unfold in_int, min_int, max_int in *. lia.
  - intros getenv fuel pre key rest w w0 w1 w2 found t0 n e Hpre He Hn Hd Hmin t keys.
    pose proof (Hredelete pre key rest _ _ _ _ _ _ _ _ Hpre He Hn Hd) as Hkeys.
    split; [exact Hkeys |].
    unfold repeatDeleteKeys. rewrite bind_run.
    rewrite (reconciliation_pass_aborts r _ _ _ _ _ _ _ _ _ _ _ Hkeys) by lia.
    cbn. now rewrite app_nil_r.
  - intros getenv fuel search w w1 w2 v t1 t2 e Hpass Hrep.
    now rewrite deleteMatchingKeys_run, Hpass, Hrep.
  - intros fuel search totalKeys scanCursor visitingKeys v v1 w w1 w2 w3 w4 pre key rest
      scanCursor' t1 t0 value e Hscan Hpre Hf Hm Hd.
    rewrite (scanLoop_round r search (deleteAction r) _ _ _ _ _ _ _ _ _ _ _ _ _ Hscan Hpre).
    rewrite (visitKeys_fetched r _ _ _ _ _ _ _ _ _ Hf), Hm, deleteAction_run, Hd.
    destruct (visitKeys r search (deleteAction r) rest
                (countFailure (appendDeleted key v1)) w4)
      as [[[[[e'|] v'] w5] t]|]; [same_events | | reflexivity].
    cbn [after]. destruct (scanCursor' =? 0); [same_events |].
    destruct (scanLoop r search (deleteAction r) fuel totalKeys scanCursor'
                (add64 visitingKeys (len (pre ++ key :: rest))) v' w5)
      as [[[res w6] t6]|]; [same_events | reflexivity].
  - intros fuel search w w' err v t Hpass.
    destruct (purgePass_accounts _ _ _ _ _ _ _ Hpass) as (Hk & Hp & Hd & Hf & Hs).
    destruct (matchingKeysDo_covers r search (deleteAction r) (deleteAction_quiet r)
                _ _ _ _ _ _ _ Hpass) as (Hcount & Hv & _ & _ & Hout).
    now repeat split.
  - intros fuel minClean wait pre key rest c p w w0 w1 w2 found t0 n e Hpre He Hn Hd Hc.
    pose proof (Hredelete pre key rest _ _ _ _ _ _ _ _ Hpre He Hn Hd) as Hkeys.
    now apply reconciliation_pass_aborts with (1 := Hkeys).
  - intros getenv fuel keys w w' err t Hrun.
    apply failed_delete_ends. now apply repeatDeleteKeys_stops with (1 := Hrun).
  - intros getenv fuel search repeatDeletes w w' err t.
    rewrite deleteMatchingKeys_run.
    destruct (purgePass r fuel search w) as [[[[err0 v] w1] t1]|] eqn:Hpass;
      [| discriminate].
    destruct (matchingKeysDo_covers r search (deleteAction r) (deleteAction_quiet r)
                _ _ _ _ _ _ _ Hpass) as (_ & _ & _ & _ & Hout).
    intros H. exists err0, v, w1, t1.
    destruct err0 as [e|]; [| destruct repeatDeletes;
      [destruct (repeatDeleteKeys r getenv fuel (deletedKeys v) w1)
         as [[[err' w2] t2]|] eqn:Hrep; [| discriminate] |]].
    + exists []. injection H as <- <- <-.
      split; [reflexivity | split; [reflexivity | split; [exact Hout | split]]].
      * right. split; [left; discriminate | now repeat split].
      * intros Hfailed. now elim Hfailed.
    + exists t2. injection H as <- <- <-.
      split; [reflexivity | split; [reflexivity | split; [exact Hout | split]]].
      * left. now repeat split.
      * apply failed_delete_ends. now apply repeatDeleteKeys_stops with (1 := Hrep).
    + exists []. injection H as <- <- <-.
      split; [reflexivity | split; [reflexivity | split; [exact Hout | split]]].
      * right. split; [now right | now repeat split].
      * intros Hfailed. now elim Hfailed.
Qed.


End Failures.

(** ** Failed calls, on the scripted stores *)

(** A pass that finds a key and completes, with the counters at 1 and 0; a
    pass that the first existence check ends, with the counters at 1 and 3;
    and a run whose first pass is clean and whose second pass is ended by a
    failed existence check. *)
Lemma reconciliation_pass_witness :
  let w := withWriters purged ["b"]%string in
  let keys := ["a"; "b"; "c"]%string in
  let wf := broken store [] [] ["a"]%string false in
  let failed := Some (ExistCheckError "a" ioError) in
  (exists w1 t,
     deleteKeys memSearch keys w = Some ((true, None), w1, t) /\
     0 <= 1 < 2 /\ 2 <= max_int /\
     (exists ns : list Z,
        length ns = length keys /\
        t = concat (map (fun kn => checkTrace (fst kn) (snd kn)) (combine keys ns)) /\
        true = existsb (fun n => n >? 0) ns) /\
     repeatLoop memSearch 3 2 150 keys 1 0 w =
       after (passHeader 2 150 keys 1 0 ++ t)
         (repeatLoop memSearch 2 2 150 keys 0 (add64 0 1) w1)) /\
  (deleteKeys memSearch ["a"; "b"]%string wf
     = Some ((false, failed), wf, [CallExists "a" (Err ioError)]) /\
   1 < 2 /\
   passOutcome ["a"; "b"]%string failed [CallExists "a" (Err ioError)] /\
   repeatLoop memSearch 1 2 150 ["a"; "b"]%string 1 3 wf =
     Some ((failed, 1, add64 3 1), wf,
           passHeader 2 150 ["a"; "b"]%string 1 3 ++ [CallExists "a" (Err ioError)])) /\
  (exists t,
     repeatDeleteKeys (late true) (cleanMin "2") 5 ["k"]%string 0%nat
       = Some (Some (ExistCheckError "k" ioError), 2%nat, t) /\
     passes t = 2 /\
     loopOutcome (Some (ExistCheckError "k" ioError)) t /\
     map fst (delCalls t) = presentKeys t).
Proof.
  intros w keys wf failed.
  destruct (reconciliation_pass memSearch) as (Hclean & Hfail & _).
  destruct (reconciliation_pass (late true)) as (_ & _ & Hrun).
  assert (H01 : 0 <= 1 < 2) by lia.
  assert (H12 : 1 < 2) by lia.
  assert (Hmax : 2 <= max_int) by (unfold max_int; lia).
  split; [| split].
  - do 2 eexists.
    split; [reflexivity | split; [exact H01 | split; [exact Hmax |]]].
    exact (Hclean 2%nat 2 150 keys 1 0 w _ true _ eq_refl H01 Hmax).
  - split; [reflexivity | split; [exact H12 |]].
    exact (Hfail 0%nat 2 150 ["a"; "b"]%string 1 3 wf wf false
             (ExistCheckError "a" ioError) [CallExists "a" (Err ioError)] eq_refl H12).
  - eexists. split; [reflexivity | split; [reflexivity |]].
    eapply (Hrun (cleanMin "2") 5%nat ["k"]%string 0%nat). reflexivity.
Defined.

(** The delete of ["c"] fails in the second round of the initial pass; the
    delete of ["a"] fails in the initial pass and in a reconciliation pass
    started with the counters at 1 and 3; on the store whose key is back at
    the second check, the failed delete of the second pass ends the run. *)
Lemma delete_failure_handling_witness :
  let w := broken store [] ["a"]%string [] false in
  let wc := broken store [] ["c"]%string [] false in
  let failed := Some (DeleteFailError "k" ioError) in
  (fetchValue memSearch "a" valueAccessString w
     = Some (Ok (bs "null"), w, [CallGet "a" (Ok (bs "null"))]) /\
   Matcher (exactNull 0) (bs "null") = true /\
   Del memClient "a" w = (Some ioError, w) /\
   visitKeys memSearch (exactNull 0) (deleteAction memSearch) ["a"; "c"]%string
       purgeVars0 w =
     after ([CallGet "a" (Ok (bs "null"))] ++
            [PrintDelete "a" (len (bs "null")); CallDel "a" (Some ioError);
             LogDeleteFailed "a" ioError])
       (visitKeys memSearch (exactNull 0) (deleteAction memSearch) ["c"]%string
          (countFailure (appendDeleted "a" purgeVars0)) w) /\
   failedDeleteCount (countFailure (appendDeleted "a" purgeVars0)) = 0 + 1) /\
  (deleteKeysFrom memSearch [] false w = Some ((false, None), w, []) /\
   Exists memClient "a" w = (Ok 1, w) /\ 1 > 0 /\
   0 < envInt (cleanMin "1") "CLEAN_DELETE_MIN" 500 /\
   deleteKeys memSearch ["a"; "c"]%string w =
     Some ((true, Some (DeleteFailError "a" ioError)), w,
           [CallExists "a" (Ok 1); PrintRedelete "a"; CallDel "a" (Some ioError)]) /\
   valueOf (repeatDeleteKeys memSearch (cleanMin "1") 1 ["a"; "c"]%string w) =
     Some (Some (DeleteFailError "a" ioError))) /\
  valueOf (deleteMatchingKeys memSearch (cleanMin "1") 5 (exactNull 0) true w) =
    Some (Some (DeleteFailError "a" ioError)) /\
  (Scan memClient 1 "" 50 wc = (Ok (["c"]%string, 0), wc) /\
   Del memClient "c" wc = (Some ioError, wc) /\
   scanLoop memSearch (exactNull 0) (deleteAction memSearch) 1 3 1 2 purgeVars0 wc =
     Some ((None, countFailure (appendDeleted "c" purgeVars0)), wc,
           [CallScan 1 (Ok (["c"]%string, 0)); CallGet "c" (Ok (bs "null"));
            PrintDelete "c" 4; CallDel "c" (Some ioError);
            LogDeleteFailed "c" ioError])) /\
  (exists v w' t,
     purgePass memSearch 5 (exactNull 0) w = Some ((None, v), w', t) /\
     delCalls t = [("a", Some ioError); ("c", None)]%string /\
     failedDeleteCount v = wrap64 (len (failedDels t)) /\
     deletedKeyCount v = wrap64 (len (deletedOk t)) /\
     deletedValuesTotalSize v = wrap64 (sumZ (deletedSizes t)) /\
     printedDeletes t = matchedSizes (exactNull 0) t /\
     map fst (delCalls t) = matchedKeys (exactNull 0) t /\
     visitedKeys t = scannedKeys t /\
     (exists t', t = CallDBSize (fst (DBSize memClient w)) :: t') /\
     scanOutcome None t) /\
  (1 < 2 /\
   repeatLoop memSearch 1 2 150 ["a"; "c"]%string 1 3 w =
     Some ((Some (DeleteFailError "a" ioError), 1, add64 3 1), w,
           passHeader 2 150 ["a"; "c"]%string 1 3 ++ []
           ++ [CallExists "a" (Ok 1); PrintRedelete "a"; CallDel "a" (Some ioError)])) /\
  (exists t,
     repeatDeleteKeys (late false) (cleanMin "2") 5 ["k"]%string 0%nat
       = Some (failed, 2%nat, t) /\
     passes t = 2 /\ failedDels t <> [] /\
     exists t0 key e,
       t = t0 ++ [CallDel key (Some e)] /\ failedDels t0 = [] /\
       failed = Some (DeleteFailError key e)) /\
  (exists t,
     deleteMatchingKeys (late false) (cleanMin "2") 5 (exactNull 0) true 0%nat
       = Some (failed, 2%nat, t) /\
     exists err0 v w1 t1 t2,
       purgePass (late false) 5 (exactNull 0) 0%nat = Some ((err0, v), w1, t1) /\
       t = LogDeleting (exactNull 0) :: t1 ++ t2 ++ [deletedSummary (exactNull 0) v] /\
       scanOutcome err0 t1 /\
       ((err0 = None /\ true = true /\
         repeatDeleteKeys (late false) (cleanMin "2") 5 (deletedKeys v) w1
           = Some (failed, 2%nat, t2)) \/
        ((err0 <> None \/ true = false) /\ t2 = [] /\ failed = err0 /\ 2%nat = w1)) /\
       (failedDels t2 <> [] ->
        exists t0 key e,
          t2 = t0 ++ [CallDel key (Some e)] /\ failedDels t0 = [] /\
          failed = Some (DeleteFailError key e))).
Proof.
  intros w wc failed.
  destruct (delete_failure_handling memSearch)
    as (Hinitial & Hredelete & Hrun & Hround & Hpass & Hloop & _ & _).
  destruct (delete_failure_handling (late false))
    as (_ & _ & _ & _ & _ & _ & Hends & Hwhole).
  assert (H10 : 1 > 0) by lia.
  assert (H12 : 1 < 2) by lia.
  split; [| split; [| split; [| split; [| split; [| split; [| split]]]]]].
  - destruct (Hinitial (exactNull 0) "a"%string ["c"]%string (bs "null") purgeVars0
                w w w [CallGet "a" (Ok (bs "null"))] ioError
                eq_refl eq_refl eq_refl) as (Hvisit & _ & Hplus & _).
    split; [reflexivity | split; [reflexivity | split; [reflexivity | split]]].
    + exact Hvisit.
    + apply Hplus. unfold max_int. cbn. lia.
  - assert (Hmin : 0 < envInt (cleanMin "1") "CLEAN_DELETE_MIN" 500) by reflexivity.
    destruct (Hredelete (cleanMin "1") 0%nat [] "a"%string ["c"]%string w w w w false
                [] 1 ioError eq_refl eq_refl H10 eq_refl Hmin) as (Hkeys & Hrep).
    split; [reflexivity | split; [reflexivity | split; [exact H10 | split; [exact Hmin |]]]].
    split; [exact Hkeys |].
    cbn [app] in Hrep. now rewrite Hrep.
  - erewrite (Hrun (cleanMin "1") 5%nat (exactNull 0) w); reflexivity.
  - split; [reflexivity | split; [reflexivity |]].
    rewrite (Hround 0%nat (exactNull 0) 3 1 2 purgeVars0 purgeVars0 wc wc wc wc wc
               [] "c"%string [] 0 [] [CallGet "c" (Ok (bs "null"))] (bs "null") ioError
               eq_refl eq_refl eq_refl eq_refl eq_refl).
    reflexivity.
  - do 3 eexists. split; [reflexivity | split; [reflexivity |]].
    eapply (Hpass 5%nat (exactNull 0) w). reflexivity.
  - split; [exact H12 |].
    exact (Hloop 0%nat 2 150 [] "a"%string ["c"]%string 1 3 w w w w false [] 1 ioError
             eq_refl eq_refl H10 eq_refl H12).
  - eexists. split; [reflexivity | split; [reflexivity |]].
    assert (Hfailed : failedDels
                        (eventsOf (repeatDeleteKeys (late false) (cleanMin "2") 5
                                     ["k"]%string 0%nat)) <> []) by discriminate.
    split; [exact Hfailed |].
    eapply (Hends (cleanMin "2") 5%nat ["k"]%string 0%nat); [reflexivity | exact Hfailed].
  - eexists. split; [reflexivity |].
    eapply (Hwhole (cleanMin "2") 5%nat (exactNull 0) true 0%nat). reflexivity.
Defined.

